(** * outlines/text/json_schema.py: from a JSON Schema to a regular expression

    A shallow embedding of [to_regex] and of the constants it is built from,
    over a small model of the Python values the function receives, followed
    by a model of the fragment of Python's [re] syntax that the produced
    patterns use, and by the properties of the translation.

    Domain of the model: a JSON number is an integer (floats are left out),
    and a character is one of the 256 values of [ascii]. *)

From Stdlib Require Import String Ascii List ZArith Lia Bool Arith.
From Stdlib Require Import Permutation DecimalString DecimalPos.
Import ListNotations.

Set Warnings "-register-all".
Local Open Scope list_scope.
Local Open Scope string_scope.

(** ** Values *)

(** What [json.loads] builds: [None], [bool], [int], [str], [list] and [dict].
    A [dict] keeps its keys in insertion order, hence the list of pairs. *)
Inductive json : Type :=
| JNull
| JBool (b : bool)
| JInt (z : Z)
| JStr (s : string)
| JArr (l : list json)
| JObj (d : list (string * json)).

(** The exceptions that can leave [to_regex]. *)
Inductive exn : Type :=
| NotImplementedError (instance : json)
| KeyError (key : json)
| IndexError
| TypeError
| AttributeError
| ValueError
| Unresolvable (ref : string).

(** The outcome of a call: a value, an exception, or recursion deeper than
    the fuel allows. *)
Inductive result (A : Type) : Type :=
| Ok (a : A)
| Raise (e : exn)
| OutOfFuel.

Arguments Ok {A} a.
Arguments Raise {A} e.
Arguments OutOfFuel {A}.

Definition bind {A B : Type} (c : result A) (k : A -> result B) : result B :=
  match c with
  | Ok a => k a
  | Raise e => Raise e
  | OutOfFuel => OutOfFuel
  end.

Notation "'do' x <- c ; k" := (bind c (fun x => k))
  (at level 10, x name, c at level 100, k at level 200).

(** A list comprehension [[f(x) for x in l]]: the first exception stops it. *)
Fixpoint mapM {A B : Type} (f : A -> result B) (l : list A) : result (list B) :=
  match l with
  | [] => Ok []
  | x :: xs => do y <- f x; do ys <- mapM f xs; Ok (y :: ys)
  end.

(** ** Python built-ins *)

Module Py.

Definition dq : string := String "034" "".
Definition sq : string := String "039" "".

(** [sep.join(l)] *)
Definition join (sep : string) (l : list string) : string := String.concat sep l.

(** [d.get(key)] on the pairs of a dict. *)
Fixpoint assoc (key : string) (d : list (string * json)) : option json :=
  match d with
  | [] => None
  | (k, v) :: rest => if String.eqb key k then Some v else assoc key rest
  end.

(** [j == s] for a string constant [s]: only the same [str] is equal. *)
Definition is_str (j : json) (s : string) : bool :=
  match j with
  | JStr t => String.eqb t s
  | _ => false
  end.

(** [s1 in s2] on strings. *)
Definition contains (s1 s2 : string) : bool :=
  match String.index 0 s1 s2 with
  | Some _ => true
  | None => false
  end.

(** [key in container] *)
Definition contains_key (key : string) (container : json) : result bool :=
  match container with
  | JObj d => Ok (match assoc key d with Some _ => true | None => false end)
  | JArr l => Ok (existsb (fun x => is_str x key) l)
  | JStr s => Ok (contains key s)
  | _ => Raise TypeError
  end.

(** [container[key]] for a string key. *)
Definition getitem (container : json) (key : string) : result json :=
  match container with
  | JObj d =>
      match assoc key d with
      | Some v => Ok v
      | None => Raise (KeyError (JStr key))
      end
  | _ => Raise TypeError
  end.

(** [container.get(key, default)] *)
Definition get (container : json) (key : string) (default : json) : result json :=
  match container with
  | JObj d =>
      match assoc key d with
      | Some v => Ok v
      | None => Ok default
      end
  | _ => Raise AttributeError
  end.

(** [container.items()] *)
Definition items (container : json) : result (list (string * json)) :=
  match container with
  | JObj d => Ok d
  | _ => Raise AttributeError
  end.

Fixpoint chars (s : string) : list json :=
  match s with
  | EmptyString => []
  | String c rest => JStr (String c "") :: chars rest
  end.

(** [for x in container] *)
Definition iter (container : json) : result (list json) :=
  match container with
  | JArr l => Ok l
  | JObj d => Ok (map (fun kv => JStr (fst kv)) d)
  | JStr s => Ok (chars s)
  | _ => Raise TypeError
  end.

(** [str(z)] *)
Definition str_of_Z (z : Z) : string := NilZero.string_of_int (Z.to_int z).

Definition hex_digit (n : nat) : ascii :=
  nth n (list_ascii_of_string "0123456789abcdef") "0"%char.

(** The characters [repr] prints as they are (code points below 256). *)
Definition printable (c : ascii) : bool :=
  let n := nat_of_ascii c in
  (((32 <=? n) && (n <=? 126)) || ((161 <=? n) && negb (n =? 173)))%nat.

Fixpoint repr_chars (quote : ascii) (s : string) : string :=
  match s with
  | EmptyString => ""
  | String c rest =>
      (if Ascii.eqb c "\"%char then "\\"
       else if Ascii.eqb c quote then String "\" (String quote "")
       else if Ascii.eqb c "009"%char then "\t"
       else if Ascii.eqb c "010"%char then "\n"
       else if Ascii.eqb c "013"%char then "\r"
       else if printable c then String c ""
       else "\x" ++ String (hex_digit (nat_of_ascii c / 16))
                      (String (hex_digit (nat_of_ascii c mod 16)) ""))
      ++ repr_chars quote rest
  end.

(** [repr(s)]: double quotes only when [s] has a single quote and no double
    quote. *)
Definition repr_str (s : string) : string :=
  if contains sq s && negb (contains dq s)
  then dq ++ repr_chars "034" s ++ dq
  else sq ++ repr_chars "039" s ++ sq.

(** [repr(j)] *)
Fixpoint repr (j : json) : string :=
  match j with
  | JNull => "None"
  | JBool true => "True"
  | JBool false => "False"
  | JInt z => str_of_Z z
  | JStr s => repr_str s
  | JArr l => "[" ++ join ", " (map repr l) ++ "]"
  | JObj d =>
      "{" ++ join ", " (map (fun kv => repr_str (fst kv) ++ ": " ++ repr (snd kv)) d) ++ "}"
  end.

(** [str(j)], also what an f-string field prints. *)
Definition str (j : json) : string :=
  match j with
  | JStr s => s
  | _ => repr j
  end.

(** White space as [str.isspace] sees it, below 256. *)
Definition is_space (c : ascii) : bool :=
  let n := nat_of_ascii c in
  (((9 <=? n) && (n <=? 13)) || ((28 <=? n) && (n <=? 32))
   || (n =? 133) || (n =? 160))%nat.

Definition is_digit (c : ascii) : bool :=
  let n := nat_of_ascii c in ((48 <=? n) && (n <=? 57))%nat.

Fixpoint lstrip (l : list ascii) : list ascii :=
  match l with
  | c :: rest => if is_space c then lstrip rest else l
  | [] => []
  end.

Definition strip (l : list ascii) : list ascii := rev (lstrip (rev (lstrip l))).

(** Decimal digits, a single underscore allowed between two of them. *)
Fixpoint digits_value (acc : Z) (after_digit : bool) (l : list ascii) : option Z :=
  match l with
  | [] => if after_digit then Some acc else None
  | c :: rest =>
      if is_digit c
      then digits_value (10 * acc + Z.of_nat (nat_of_ascii c - 48)) true rest
      else if Ascii.eqb c "_" && after_digit then digits_value acc false rest
      else None
  end.

(** [int(s)] for a string, in base 10 (the interpreter's limit on the number
    of digits is left out). *)
Definition int_of_str (s : string) : option Z :=
  match strip (list_ascii_of_string s) with
  | "-"%char :: rest => option_map Z.opp (digits_value 0 false rest)
  | "+"%char :: rest => digits_value 0 false rest
  | l => digits_value 0 false l
  end.

(** [int(j)] *)
Definition int (j : json) : result Z :=
  match j with
  | JInt z => Ok z
  | JBool b => Ok (if b then 1 else 0)%Z
  | JStr s =>
      match int_of_str s with
      | Some z => Ok z
      | None => Raise ValueError
      end
  | _ => Raise TypeError
  end.

(** [j[0]] *)
Definition first (j : json) : result json :=
  match j with
  | JStr EmptyString => Raise IndexError
  | JStr (String c _) => Ok (JStr (String c ""))
  | JArr [] => Raise IndexError
  | JArr (x :: _) => Ok x
  | JObj _ => Raise (KeyError (JInt 0))
  | _ => Raise TypeError
  end.

Fixpoint last_char (c : ascii) (s : string) : ascii :=
  match s with
  | EmptyString => c
  | String c' rest => last_char c' rest
  end.

(** [j[-1]] *)
Definition last (j : json) : result json :=
  match j with
  | JStr EmptyString => Raise IndexError
  | JStr (String c rest) => Ok (JStr (String (last_char c rest) ""))
  | JArr [] => Raise IndexError
  | JArr (x :: rest) => Ok (List.last rest x)
  | JObj _ => Raise (KeyError (JInt (-1)))
  | _ => Raise TypeError
  end.

(** [j[1:-1]] on a string or a list. *)
Definition inner (j : json) : json :=
  match j with
  | JStr s => JStr (string_of_list_ascii (removelast (tl (list_ascii_of_string s))))
  | JArr l => JArr (removelast (tl l))
  | _ => j
  end.

(** [itertools.permutations(l, r)]: the arrangements of [r] positions of
    [l], in the lexicographic order of the positions. *)
Fixpoint picks {A : Type} (l : list A) : list (A * list A) :=
  match l with
  | [] => []
  | x :: rest => (x, rest) :: map (fun p => (fst p, x :: snd p)) (picks rest)
  end.

Fixpoint permutations {A : Type} (r : nat) (l : list A) : list (list A) :=
  match r with
  | O => [[]]
  | S r' => flat_map (fun p => map (cons (fst p)) (permutations r' (snd p))) (picks l)
  end.

End Py.

(** ** The [re] module: [re.escape] *)

Module Re.

(** The characters [re.escape] puts a backslash before (Python 3.7 and
    later). *)
Definition special_chars : list ascii :=
  (list_ascii_of_string "()[]{}?*+-|^$\.&~# "
   ++ ["009"; "010"; "013"; "011"; "012"]%char)%list.

Fixpoint escape (s : string) : string :=
  match s with
  | EmptyString => ""
  | String c rest =>
      if existsb (Ascii.eqb c) special_chars
      then String "\" (String c (escape rest))
      else String c (escape rest)
  end.

(** [re.escape(j)]: a value that is not a string is refused. *)
Definition escape_value (j : json) : result string :=
  match j with
  | JStr s => Ok (escape s)
  | _ => Raise TypeError
  end.

End Re.

(** ** The translator *)

Import Py.

Definition STRING_INNER : string := "(?:[^" ++ dq ++ "\\\x00-\x1f\x7f-\x9f]|\\.)".
Definition STRING : string := dq ++ STRING_INNER ++ "*" ++ dq.
Definition INTEGER : string := "(0|[1-9][0-9]*)".
Definition NUMBER : string := "(-)?(" ++ INTEGER ++ ")(\.[0-9]+)?([eE][+-][0-9]+)?".
Definition BOOLEAN : string := "(true|false)".
Definition NULL : string := "null".

Definition type_to_regex : list (string * string) :=
  [ ("string", STRING);
    ("integer", INTEGER);
    ("number", NUMBER);
    ("boolean", BOOLEAN);
    ("null", NULL) ].

(** [type_to_regex[name]] *)
Fixpoint table_get (table : list (string * string)) (name : string) : result string :=
  match table with
  | [] => Raise (KeyError (JStr name))
  | (k, v) :: rest => if String.eqb name k then Ok v else table_get rest name
  end.

(** What [to_regex] asks of the resolver: [resolver.lookup(path).contents],
    or nothing when the reference cannot be resolved. *)
Record Resolver : Type := { lookup : string -> option json }.

Definition whitespace : string := "[\n ]*".

Section Branches.

(** The recursive call [to_regex(resolver, _)]. *)
Variable recur : json -> result string.

(** The body of [for i, (name, value) in enumerate(properties.items())],
    from index [i] on; [n] is [len(properties)]. *)
Fixpoint properties_loop (n : nat) (i : nat) (rest : list (string * json))
    (regex : string) : result string :=
  match rest with
  | [] => Ok regex
  | (name, value) :: rest' =>
      let regex := regex ++ (whitespace ++ dq ++ name ++ dq ++ whitespace ++ ":" ++ whitespace) in
      do sub <- recur value;
      let regex := regex ++ sub in
      let regex :=
        if (Z.of_nat i <? Z.of_nat n - 1)%Z then regex ++ (whitespace ++ ",") else regex in
      properties_loop n (S i) rest' regex
  end.

Definition properties_branch (instance : json) : result string :=
  let regex := "" in
  let regex := regex ++ "\{" in
  do properties <- getitem instance "properties";
  do pairs <- items properties;
  do regex <- properties_loop (List.length pairs) 0 pairs regex;
  let regex := regex ++ (whitespace ++ "\}") in
  Ok regex.

Definition allOf_branch (instance : json) : result string :=
  do allOf <- getitem instance "allOf";
  do ts <- iter allOf;
  do subregexes <- mapM recur ts;
  let subregexes_str := map (fun subregex => subregex) subregexes in
  Ok ("(" ++ join "" subregexes_str ++ ")").

Definition anyOf_branch (instance : json) : result string :=
  do anyOf <- getitem instance "anyOf";
  do ts <- iter anyOf;
  do subregexes <- mapM recur ts;
  let combinations :=
    flat_map (fun r => map (fun c => "(" ++ join "" c ++ ")") (permutations r subregexes))
             (seq 1 (List.length subregexes)) in
  Ok ("(" ++ join "|" combinations ++ ")").

Definition oneOf_branch (instance : json) : result string :=
  do oneOf <- getitem instance "oneOf";
  do ts <- iter oneOf;
  do subregexes <- mapM recur ts;
  Ok ("(" ++ join "|" subregexes ++ ")").

Definition enum_branch (instance : json) : result string :=
  do type <- getitem instance "type";
  if is_str type "string" then
    do enum <- getitem instance "enum";
    do members <- iter enum;
    do choices <- mapM (fun choice => do e <- Re.escape_value choice; Ok (dq ++ e ++ dq)) members;
    Ok ("(" ++ join "|" choices ++ ")")
  else
    do enum <- getitem instance "enum";
    do members <- iter enum;
    let choices := map (fun choice => Re.escape (str choice)) members in
    Ok ("(" ++ join "|" choices ++ ")").

End Branches.

(** The [try] block of the string leaf: a [ValueError], raised by [int] or
    by the comparison, is caught; any other exception leaves. *)
Definition check_lengths (max_length min_length : json) : result unit :=
  let attempt : result unit :=
    do hi <- int max_length;
    do lo <- int min_length;
    if (hi <? lo)%Z then Raise ValueError else Ok tt in
  match attempt with
  | Raise ValueError => Ok tt
  | other => other
  end.

Definition string_leaf (instance : json) : result string :=
  do has_max <- contains_key "maxLength" instance;
  do has_min <- (if has_max then Ok true else contains_key "minLength" instance);
  if has_min then
    do max_length <- get instance "maxLength" (JStr "");
    do min_length <- get instance "minLength" (JStr "");
    do _ <- check_lengths max_length min_length;
    Ok (dq ++ STRING_INNER ++ "{" ++ str min_length ++ "," ++ str max_length ++ "}" ++ dq)
  else
    do has_pattern <- contains_key "pattern" instance;
    if has_pattern then
      do pattern <- getitem instance "pattern";
      do head <- first pattern;
      do anchored <- (if is_str head "^"
                      then do tail <- last pattern; Ok (is_str tail "$")
                      else Ok false);
      if anchored
      then Ok ("(^" ++ dq ++ str (inner pattern) ++ dq ++ "$)")
      else Ok ("(" ++ dq ++ str pattern ++ dq ++ ")")
    else table_get type_to_regex "string".

Definition array_types : list json :=
  [ JObj [("type", JStr "boolean")];
    JObj [("type", JStr "null")];
    JObj [("type", JStr "number")];
    JObj [("type", JStr "integer")];
    JObj [("type", JStr "string")] ].

Section Body.

(** The recursive call [to_regex(resolver, _)] and its resolver. *)
Variable recur : json -> result string.
Variable resolver : Resolver.

Definition ref_branch (instance : json) : result string :=
  do ref <- getitem instance "$ref";
  let path := str ref in
  match lookup resolver path with
  | Some contents => recur contents
  | None => Raise (Unresolvable path)
  end.

Definition array_leaf (instance : json) : result string :=
  do has_items <- contains_key "items" instance;
  if has_items then
    do items <- getitem instance "items";
    do items_regex <- recur items;
    Ok ("\[(" ++ items_regex ++ ")(,(" ++ items_regex ++ "))*\]")
  else
    do regexes <- mapM recur array_types;
    Ok ("\[(" ++ join "|" regexes ++ ")(,(" ++ join "|" regexes ++ "))*\]").

(** The [type] branch; a type that none of its tests recognises falls
    through to the final [raise]. *)
Definition type_branch (instance : json) : result string :=
  do type <- getitem instance "type";
  if is_str type "string" then string_leaf instance
  else if is_str type "number" then table_get type_to_regex "number"
  else if is_str type "integer" then table_get type_to_regex "integer"
  else if is_str type "array" then array_leaf instance
  else if is_str type "boolean" then table_get type_to_regex "boolean"
  else if is_str type "null" then table_get type_to_regex "null"
  else
    match type with
    | JArr types =>
        let listed := filter (fun t => negb (is_str t "object")) types in
        do regexes <- mapM (fun t => recur (JObj [("type", t)])) listed;
        Ok ("(" ++ join "|" regexes ++ ")")
    | _ => Raise (NotImplementedError instance)
    end.

(** The body of [to_regex]: the chain of presence tests, first match first. *)
Definition to_regex_body (instance : json) : result string :=
  do has_properties <- contains_key "properties" instance;
  if has_properties then properties_branch recur instance else
  do has_allOf <- contains_key "allOf" instance;
  if has_allOf then allOf_branch recur instance else
  do has_anyOf <- contains_key "anyOf" instance;
  if has_anyOf then anyOf_branch recur instance else
  do has_oneOf <- contains_key "oneOf" instance;
  if has_oneOf then oneOf_branch recur instance else
  do has_enum <- contains_key "enum" instance;
  if has_enum then enum_branch instance else
  do has_ref <- contains_key "$ref" instance;
  if has_ref then ref_branch instance else
  do has_type <- contains_key "type" instance;
  if has_type then type_branch instance else
  Raise (NotImplementedError instance).

End Body.

(** [to_regex], its recursion bounded by [fuel]: a schema whose references
    form a cycle recurses without end. *)
Fixpoint to_regex (fuel : nat) (resolver : Resolver) (instance : json) : result string :=
  match fuel with
  | O => OutOfFuel
  | S fuel' => to_regex_body (to_regex fuel' resolver) resolver instance
  end.

(** ** The [re] module: the patterns the translator produces

    The syntax covered is what the translator's constants and the escapes of
    [re.escape] use: literals, [\] escapes, [.], character sets with ranges
    and negation, groups, [|], and the repetitions [*], [+], [?] and
    [{m,n}].  Anything else is refused by [compile].  The meaning of a
    pattern is the set of texts that [re.fullmatch] accepts. *)

Module Regex.

Inductive regex : Type :=
| Void
| Eps
| Class (negated : bool) (ranges : list (ascii * ascii))
| Cat (r1 r2 : regex)
| Alt (r1 r2 : regex)
| Star (r : regex).

Definition in_range (c : ascii) (range : ascii * ascii) : bool :=
  ((nat_of_ascii (fst range) <=? nat_of_ascii c)
   && (nat_of_ascii c <=? nat_of_ascii (snd range)))%nat.

Definition class_mem (negated : bool) (ranges : list (ascii * ascii)) (c : ascii) : bool :=
  xorb negated (existsb (in_range c) ranges).

Definition Lit (c : ascii) : regex := Class false [(c, c)].

(** [.] without [re.DOTALL]: any character but the newline. *)
Definition Dot : regex := Class true [("010"%char, "010"%char)].

Fixpoint power (r : regex) (n : nat) : regex :=
  match n with
  | O => Eps
  | S n' => Cat r (power r n')
  end.

Fixpoint upto (r : regex) (n : nat) : regex :=
  match n with
  | O => Eps
  | S n' => Alt Eps (Cat r (upto r n'))
  end.

(** [r{lo,hi}]; no [hi] means no upper bound. *)
Definition Repeat (lo : nat) (hi : option nat) (r : regex) : regex :=
  match hi with
  | Some h => Cat (power r lo) (upto r (h - lo))
  | None => Cat (power r lo) (Star r)
  end.

(** The texts a pattern matches in full. *)
Inductive Matches : regex -> list ascii -> Prop :=
| MEps : Matches Eps []
| MClass negated ranges c :
    class_mem negated ranges c = true -> Matches (Class negated ranges) [c]
| MCat r1 r2 s1 s2 :
    Matches r1 s1 -> Matches r2 s2 -> Matches (Cat r1 r2) (s1 ++ s2)%list
| MAltL r1 r2 s : Matches r1 s -> Matches (Alt r1 r2) s
| MAltR r1 r2 s : Matches r2 s -> Matches (Alt r1 r2) s
| MStarNil r : Matches (Star r) []
| MStarApp r s1 s2 :
    Matches r s1 -> Matches (Star r) s2 -> Matches (Star r) (s1 ++ s2)%list.

(** Matching by derivatives. *)
Fixpoint nullable (r : regex) : bool :=
  match r with
  | Void => false
  | Eps => true
  | Class _ _ => false
  | Cat r1 r2 => nullable r1 && nullable r2
  | Alt r1 r2 => nullable r1 || nullable r2
  | Star _ => true
  end.

Fixpoint deriv (c : ascii) (r : regex) : regex :=
  match r with
  | Void => Void
  | Eps => Void
  | Class negated ranges => if class_mem negated ranges c then Eps else Void
  | Cat r1 r2 =>
      if nullable r1
      then Alt (Cat (deriv c r1) r2) (deriv c r2)
      else Cat (deriv c r1) r2
  | Alt r1 r2 => Alt (deriv c r1) (deriv c r2)
  | Star r1 => Cat (deriv c r1) (Star r1)
  end.

Fixpoint matchb (r : regex) (s : list ascii) : bool :=
  match s with
  | [] => nullable r
  | c :: rest => matchb (deriv c r) rest
  end.

(** *** The parser *)

Definition hex_value (c : ascii) : option nat :=
  let n := nat_of_ascii c in
  if ((48 <=? n) && (n <=? 57))%nat then Some (n - 48)
  else if ((97 <=? n) && (n <=? 102))%nat then Some (n - 87)
  else if ((65 <=? n) && (n <=? 70))%nat then Some (n - 55)
  else None.

Definition is_alnum (c : ascii) : bool :=
  let n := nat_of_ascii c in
  (((48 <=? n) && (n <=? 57)) || ((65 <=? n) && (n <=? 90))
   || ((97 <=? n) && (n <=? 122)))%nat.

(** The character an escape stands for, after the backslash: [\n], [\t],
    [\r], [\xHH], or an escaped character that is neither a letter nor a
    digit (and below 128). *)
Definition parse_escape (s : list ascii) : option (ascii * list ascii) :=
  match s with
  | "n"%char :: rest => Some ("010"%char, rest)
  | "t"%char :: rest => Some ("009"%char, rest)
  | "r"%char :: rest => Some ("013"%char, rest)
  | "x"%char :: h1 :: h2 :: rest =>
      match hex_value h1, hex_value h2 with
      | Some a, Some b => Some (ascii_of_nat (16 * a + b), rest)
      | _, _ => None
      end
  | c :: rest =>
      if is_alnum c || (128 <=? nat_of_ascii c)%nat then None else Some (c, rest)
  | [] => None
  end.

(** One member of a character set: a character or an escape. *)
Definition parse_set_char (s : list ascii) : option (ascii * list ascii) :=
  match s with
  | "\"%char :: rest => parse_escape rest
  | "["%char :: _ => None
  | "]"%char :: _ => None
  | c :: rest => Some (c, rest)
  | [] => None
  end.

(** The members of a set up to the closing bracket. *)
Fixpoint parse_set (fuel : nat) (s : list ascii)
  : option (list (ascii * ascii) * list ascii) :=
  match fuel with
  | O => None
  | S fuel' =>
      match s with
      | "]"%char :: rest => Some ([], rest)
      | _ =>
          match parse_set_char s with
          | Some (lo, "-"%char :: "]"%char :: rest) =>
              Some ([(lo, lo); ("-"%char, "-"%char)], rest)
          | Some (lo, "-"%char :: rest) =>
              match parse_set_char rest with
              | Some (hi, rest') =>
                  if (nat_of_ascii hi <? nat_of_ascii lo)%nat then None
                  else
                    match parse_set fuel' rest' with
                    | Some (ranges, rest'') => Some ((lo, hi) :: ranges, rest'')
                    | None => None
                    end
              | None => None
              end
          | Some (lo, rest) =>
              match parse_set fuel' rest with
              | Some (ranges, rest') => Some ((lo, lo) :: ranges, rest')
              | None => None
              end
          | None => None
          end
      end
  end.

Fixpoint parse_digits (acc : option nat) (s : list ascii) : option nat * list ascii :=
  match s with
  | c :: rest =>
      if Py.is_digit c
      then parse_digits (Some (10 * match acc with Some n => n | None => 0 end
                               + (nat_of_ascii c - 48))%nat) rest
      else (acc, s)
  | [] => (acc, s)
  end.

(** The bounds of [{lo,hi}], after the opening brace. *)
Definition parse_bounds (s : list ascii) : option (nat * option nat * list ascii) :=
  let (lo, rest) := parse_digits None s in
  match rest with
  | ","%char :: rest1 =>
      let (hi, rest2) := parse_digits None rest1 in
      match rest2 with
      | "}"%char :: rest3 =>
          let lo' := match lo with Some n => n | None => O end in
          match hi with
          | Some h => if (h <? lo')%nat then None else Some (lo', Some h, rest3)
          | None => Some (lo', None, rest3)
          end
      | _ => None
      end
  | "}"%char :: rest1 =>
      match lo with
      | Some n => Some (n, Some n, rest1)
      | None => None
      end
  | _ => None
  end.

Definition is_repeat_char (c : ascii) : bool :=
  existsb (Ascii.eqb c) (list_ascii_of_string "*+?{").

(** The repetition after an atom, if there is one; a second repetition
    right after it is refused. *)
Definition parse_repeat (r : regex) (s : list ascii) : option (regex * list ascii) :=
  let single (q : regex) (rest : list ascii) :=
    match rest with
    | c :: _ => if is_repeat_char c then None else Some (q, rest)
    | [] => Some (q, rest)
    end in
  match s with
  | "*"%char :: rest => single (Star r) rest
  | "+"%char :: rest => single (Cat r (Star r)) rest
  | "?"%char :: rest => single (Alt Eps r) rest
  | "{"%char :: rest =>
      match parse_bounds rest with
      | Some (lo, hi, rest') => single (Repeat lo hi r) rest'
      | None => None
      end
  | _ => Some (r, s)
  end.

Fixpoint parse_alt (fuel : nat) (s : list ascii) : option (regex * list ascii) :=
  match fuel with
  | O => None
  | S fuel' =>
      match parse_seq fuel' s with
      | Some (r1, "|"%char :: rest) =>
          match parse_alt fuel' rest with
          | Some (r2, rest') => Some (Alt r1 r2, rest')
          | None => None
          end
      | other => other
      end
  end

with parse_seq (fuel : nat) (s : list ascii) : option (regex * list ascii) :=
  match fuel with
  | O => None
  | S fuel' =>
      match s with
      | [] => Some (Eps, s)
      | "|"%char :: _ => Some (Eps, s)
      | ")"%char :: _ => Some (Eps, s)
      | _ =>
          match parse_atom fuel' s with
          | Some (r1, rest) =>
              match parse_repeat r1 rest with
              | Some (r1', rest') =>
                  match parse_seq fuel' rest' with
                  | Some (r2, rest'') => Some (Cat r1' r2, rest'')
                  | None => None
                  end
              | None => None
              end
          | None => None
          end
      end
  end

with parse_atom (fuel : nat) (s : list ascii) : option (regex * list ascii) :=
  match fuel with
  | O => None
  | S fuel' =>
      let group (body : list ascii) :=
        match parse_alt fuel' body with
        | Some (r, ")"%char :: rest) => Some (r, rest)
        | _ => None
        end in
      match s with
      | "("%char :: "?"%char :: ":"%char :: body => group body
      | "("%char :: "?"%char :: _ => None
      | "("%char :: body => group body
      | "["%char :: "^"%char :: "]"%char :: _ => None
      | "["%char :: "^"%char :: body =>
          match parse_set fuel' body with
          | Some (ranges, rest) => Some (Class true ranges, rest)
          | None => None
          end
      | "["%char :: "]"%char :: _ => None
      | "["%char :: body =>
          match parse_set fuel' body with
          | Some (ranges, rest) => Some (Class false ranges, rest)
          | None => None
          end
      | "\"%char :: rest =>
          match parse_escape rest with
          | Some (c, rest') => Some (Lit c, rest')
          | None => None
          end
      | "."%char :: rest => Some (Dot, rest)
      | c :: rest =>
          if existsb (Ascii.eqb c) (list_ascii_of_string "^$*+?{}]|)") then None
          else Some (Lit c, rest)
      | [] => None
      end
  end.

(** [re.compile(pattern)], when the pattern is in the fragment. *)
Definition compile (pattern : string) : option regex :=
  let s := list_ascii_of_string pattern in
  match parse_alt (4 * List.length s + 4) s with
  | Some (r, []) => Some r
  | _ => None
  end.

(** [re.fullmatch(pattern, text) is not None] *)
Definition fullmatch (pattern text : string) : option bool :=
  match compile pattern with
  | Some r => Some (matchb r (list_ascii_of_string text))
  | None => None
  end.

End Regex.

(** * Vocabulary of the properties *)

(** ** Dispatch *)

(** The keywords [to_regex] tests, in the order of its [if]/[elif] chain. *)
Definition dispatch_order : list string :=
  ["properties"; "allOf"; "anyOf"; "oneOf"; "enum"; "$ref"; "type"].

Fixpoint before (key : string) (order : list string) : list string :=
  match order with
  | [] => []
  | k :: rest => if String.eqb k key then [] else k :: before key rest
  end.

(** The keywords tested before [key]. *)
Definition earlier (key : string) : list string := before key dispatch_order.

Definition absent (d : list (string * json)) (key : string) : Prop :=
  assoc key d = None.

(** [key] is the first keyword of the chain that [d] has, with value [v]. *)
Definition wins (key : string) (d : list (string * json)) (v : json) : Prop :=
  Forall (absent d) (earlier key) /\ assoc key d = Some v.

(** The branch of [to_regex] that belongs to a keyword of the chain. *)
Definition branch (key : string) (recur : json -> result string) (resolver : Resolver)
  : json -> result string :=
  if String.eqb key "properties" then properties_branch recur
  else if String.eqb key "allOf" then allOf_branch recur
  else if String.eqb key "anyOf" then anyOf_branch recur
  else if String.eqb key "oneOf" then oneOf_branch recur
  else if String.eqb key "enum" then enum_branch
  else if String.eqb key "$ref" then ref_branch recur resolver
  else type_branch recur.

(** The first keyword wins and every later keyword of the node is ignored:
    two nodes with the same first keyword and the same value for it have
    the same translation, whatever else they hold. *)
Definition later_keys_ignored : Prop :=
  forall fuel resolver key d1 d2 v,
    In key (earlier "type") ->
    wins key d1 v -> wins key d2 v ->
    to_regex fuel resolver (JObj d1) = to_regex fuel resolver (JObj d2).

(** The values of [type] that the [type] branch handles. *)
Definition recognised (type : json) : bool :=
  match type with
  | JStr s =>
      existsb (String.eqb s) ["string"; "number"; "integer"; "array"; "boolean"; "null"]
  | JArr _ => true
  | _ => false
  end.

(** ** Outcomes *)

(** [translates resolver node r]: the call [to_regex(resolver, node)] ends
    with outcome [r], a pattern or an exception. *)
Definition translates (resolver : Resolver) (node : json) (r : result string) : Prop :=
  r <> OutOfFuel /\ exists fuel, to_regex fuel resolver node = r.

(** [r2] is what [r1] becomes with more fuel: the same outcome, unless [r1]
    ran out of fuel. *)
Definition extends {A : Type} (r1 r2 : result A) : Prop :=
  r1 = OutOfFuel \/ r1 = r2.

(** ** Fragments *)

(** One member of an object: white space, the quoted name, white space,
    a colon, white space, and the fragment of the value. *)
Definition member_fragment (name fragment : string) : string :=
  whitespace ++ dq ++ name ++ dq ++ whitespace ++ ":" ++ whitespace ++ fragment.

(** An object: an opening brace, the members in their order with white
    space and a comma between two of them, white space and a closing brace. *)
Definition object_fragment (members : list (string * string)) : string :=
  "\{"
  ++ join (whitespace ++ ",") (map (fun m => member_fragment (fst m) (snd m)) members)
  ++ whitespace ++ "\}".

(** What the [anyOf] branch enumerates: for every size from 1 to the number
    of fragments, the arrangements of that many of them. *)
Definition arrangements {A : Type} (l : list A) : list (list A) :=
  flat_map (fun r => permutations r l) (seq 1 (List.length l)).

(** The number of arrangements of [r] out of [n]: [n (n-1) ... (n-r+1)]. *)
Fixpoint falling (n r : nat) : nat :=
  match r with
  | O => 1
  | S r' => n * falling (n - 1) r'
  end.

(** The sum of [n! / (n-k)!] for [k] from 1 to [n]. *)
Definition arrangement_count (n : nat) : nat :=
  list_sum (map (fun k => fact n / fact (n - k)) (seq 1 n)).

(** How a length bound is printed in the repetition range: nothing when the
    keyword is absent. *)
Definition bound (b : option Z) : string :=
  match b with
  | Some z => str_of_Z z
  | None => ""
  end.

(** ** Texts *)

(** A text between double quotes. *)
Definition quoted (s : string) : string := dq ++ s ++ dq.

(** A run of newlines and spaces. *)
Definition blank (w : string) : Prop :=
  Forall (fun c => c = "010"%char \/ c = " "%char) (list_ascii_of_string w).

(** The pattern of a fixed text, as the parser builds it. *)
Fixpoint literal (w : list ascii) : Regex.regex :=
  match w with
  | [] => Regex.Eps
  | c :: w' => Regex.Cat (Regex.Lit c) (literal w')
  end.

(** The texts of a JSON number, as the fragment [NUMBER] is described: an
    optional minus sign, an integer body, an optional fraction and an
    optional exponent. *)
Module NumberText.

Definition digit (c : ascii) : Prop := In c (list_ascii_of_string "0123456789").

Definition nonzero_digit (c : ascii) : Prop := In c (list_ascii_of_string "123456789").

(** One or more digits. *)
Definition digits1 (s : list ascii) : Prop := s <> [] /\ Forall digit s.

(** [0], or a digit other than [0] followed by any number of digits. *)
Definition integer_text (s : list ascii) : Prop :=
  s = ["0"%char]
  \/ exists d ds, s = d :: ds /\ nonzero_digit d /\ Forall digit ds.

(** A point followed by one or more digits. *)
Definition fraction_text (s : list ascii) : Prop :=
  exists ds, s = "."%char :: ds /\ digits1 ds.

(** [e] or [E], a sign, and one or more digits. *)
Definition exponent_text (s : list ascii) : Prop :=
  exists e sign ds,
    s = e :: sign :: ds
    /\ (e = "e"%char \/ e = "E"%char)
    /\ (sign = "+"%char \/ sign = "-"%char)
    /\ digits1 ds.

Definition optional (P : list ascii -> Prop) (s : list ascii) : Prop :=
  s = [] \/ P s.

Definition number_text (s : list ascii) : Prop :=
  exists sign int frac exp,
    s = (sign ++ int ++ frac ++ exp)%list
    /\ optional (eq ["-"%char]) sign
    /\ integer_text int
    /\ optional fraction_text frac
    /\ optional exponent_text exp.

(** The parts of the pattern that [NUMBER] compiles to. *)
Definition digit_re : Regex.regex := Regex.Class false [("0"%char, "9"%char)].

Definition digits1_re : Regex.regex := Regex.Cat digit_re (Regex.Star digit_re).

Definition sign_re : Regex.regex :=
  Regex.Alt Regex.Eps (Regex.Cat (Regex.Lit "-") Regex.Eps).

Definition integer_re : Regex.regex :=
  Regex.Alt (Regex.Cat (Regex.Lit "0") Regex.Eps)
            (Regex.Cat (Regex.Class false [("1"%char, "9"%char)])
                       (Regex.Cat (Regex.Star digit_re) Regex.Eps)).

Definition fraction_re : Regex.regex :=
  Regex.Alt Regex.Eps
            (Regex.Cat (Regex.Lit ".") (Regex.Cat digits1_re Regex.Eps)).

Definition exponent_re : Regex.regex :=
  Regex.Alt Regex.Eps
            (Regex.Cat (Regex.Class false [("e"%char, "e"%char); ("E"%char, "E"%char)])
               (Regex.Cat (Regex.Class false [("+"%char, "+"%char); ("-"%char, "-"%char)])
                  (Regex.Cat digits1_re Regex.Eps))).

Definition number_re : Regex.regex :=
  Regex.Cat sign_re
    (Regex.Cat (Regex.Cat integer_re Regex.Eps)
       (Regex.Cat fraction_re (Regex.Cat exponent_re Regex.Eps))).

End NumberText.

(** ** Examples *)

(** A resolver with no definition, one with a single definition, and one
    for a document whose root refers to itself. *)
Definition no_refs : Resolver := {| lookup := fun _ => None |}.

Definition ref_resolver : Resolver :=
  {| lookup := fun path =>
       if String.eqb path "#/$defs/name"
       then Some (JObj [("type", JStr "string")])
       else None |}.

Definition self_ref : list (string * json) := [("$ref", JStr "#")].

Definition self_resolver : Resolver :=
  {| lookup := fun path => if String.eqb path "#" then Some (JObj self_ref) else None |}.

(** An object schema with properties [a], a string, and [b], an integer,
    and its pattern. *)
Definition schema_ab : json :=
  JObj [("properties",
         JObj [("a", JObj [("type", JStr "string")]);
               ("b", JObj [("type", JStr "integer")])])].

Definition pattern_ab : string := object_fragment [("a", STRING); ("b", INTEGER)].

(** The text [{"a": "x", "b": 1}] with a run of white space at each
    boundary between two tokens. *)
Definition text_ab (w1 w2 w3 w4 w5 w6 w7 w8 : string) : string :=
  "{" ++ w1 ++ quoted "a" ++ w2 ++ ":" ++ w3 ++ quoted "x" ++ w4 ++ ","
  ++ w5 ++ quoted "b" ++ w6 ++ ":" ++ w7 ++ "1" ++ w8 ++ "}".

(** The same members in the other order: [{"b": 1, "a": "x"}]. *)
Definition text_ba : string :=
  "{" ++ quoted "b" ++ ": 1, " ++ quoted "a" ++ ": " ++ quoted "x" ++ "}".

Definition integer_array : json :=
  JObj [("type", JStr "array"); ("items", JObj [("type", JStr "integer")])].

Definition colours : json := JArr [JStr "red"; JStr "green"; JStr "blue"].

Definition null_or_boolean : json :=
  JObj [("anyOf", JArr [JObj [("type", JStr "null")]; JObj [("type", JStr "boolean")]])].

Definition integer_or_string : json :=
  JObj [("oneOf", JArr [JObj [("type", JStr "integer")]; JObj [("type", JStr "string")]])].

(** ** Self-contained fragments

    A text is a fragment when the parser reads it the same way whatever
    comes after it: this is what lets [to_regex] build a pattern by putting
    fragments side by side, between parentheses and around [|]. *)

Module Fragment.

(** A set of texts. *)
Definition lang : Type := list ascii -> Prop.

Definition lang_eps : lang := fun s => s = [].

Definition lang_text (w : string) : lang := fun s => s = list_ascii_of_string w.

Definition lang_cat (L1 L2 : lang) : lang :=
  fun s => exists s1 s2, s = (s1 ++ s2)%list /\ L1 s1 /\ L2 s2.

Definition lang_alt (L1 L2 : lang) : lang := fun s => L1 s \/ L2 s.

Definition lang_opt (L : lang) : lang := fun s => s = [] \/ L s.

Definition lang_star (L : lang) : lang :=
  fun s => exists chunks, s = List.concat chunks /\ Forall L chunks.


(** A text of one of the languages. *)
Definition lang_union (Ls : list lang) : lang := fun s => Exists (fun L => L s) Ls.

(** A text of each language, one after the other. *)
Definition lang_concat (Ls : list lang) : lang := fold_right lang_cat lang_eps Ls.

(** What can follow a sequence: the end, a closing parenthesis or a bar. *)
Definition ends_seq (u : list ascii) : Prop :=
  u = [] \/ exists u', u = ")"%char :: u' \/ u = "|"%char :: u'.

(** What can follow an alternation: the end or a closing parenthesis. *)
Definition closes (w : list ascii) : Prop :=
  w = [] \/ exists w', w = ")"%char :: w'.

(** A text that does not start with a repetition. *)
Definition safe (v : list ascii) : Prop :=
  match v with
  | [] => True
  | c :: _ => Regex.is_repeat_char c = false
  end.

(** A character that stands for itself in a pattern. *)
Definition plain (c : ascii) : bool :=
  negb (existsb (Ascii.eqb c) (list_ascii_of_string "\.^$*+?{}[]|()")).

(** The texts of [r] are those of [L]. *)
Definition recognises (r : Regex.regex) (L : lang) : Prop :=
  forall s, Regex.Matches r s <-> L s.

(** From [N] levels of recursion on, [v] is read as a sequence for the
    texts [L], up to [rest]. *)
Definition stable_seq (N : nat) (v : list ascii) (L : lang) (rest : list ascii) : Prop :=
  forall m,
    (N <= m)%nat ->
    exists r, Regex.parse_seq m v = Some (r, rest) /\ recognises r L.

(** [a] is a sequence of pieces for the texts [L]: before any sequence [v],
    it is read as a text of [L] followed by a text of [v]. *)
Definition seq_frag (a : list ascii) (L : lang) : Prop :=
  forall N v Lv rest,
    stable_seq N v Lv rest ->
    stable_seq (N + 3 * List.length a) (a ++ v)%list (lang_cat L Lv) rest.

(** [a] is one atom for the texts [L], whatever follows it. *)
Definition atom_frag (a : list ascii) (L : lang) : Prop :=
  forall m w,
    (3 * List.length a <= S m)%nat ->
    exists r, Regex.parse_atom m (a ++ w)%list = Some (r, w) /\ recognises r L.

(** [a] is an alternation for the texts [L], up to the end or a closing
    parenthesis. *)
Definition alt_frag (a : list ascii) (L : lang) : Prop :=
  forall m w,
    (3 * List.length a + 3 <= m)%nat ->
    closes w ->
    exists r, Regex.parse_alt m (a ++ w)%list = Some (r, w) /\ recognises r L.

(** The result of a group once its body is read. *)
Definition close_group (body : option (Regex.regex * list ascii))
  : option (Regex.regex * list ascii) :=
  match body with
  | Some (r, ")"%char :: rest) => Some (r, rest)
  | _ => None
  end.

End Fragment.

(** [pattern] is a fragment whose texts are [L]. *)
Definition denotes (pattern : string) (L : Fragment.lang) : Prop :=
  Fragment.seq_frag (list_ascii_of_string pattern) L.

(** The texts of a JSON string, as the fragment [STRING] reads them: between
    double quotes, any number of units, each a character that is not a
    double quote, a backslash or a control character, or a backslash and
    any character but the newline. *)
Module StringText.

Definition inner_char (c : ascii) : bool :=
  let n := nat_of_ascii c in
  (negb (Ascii.eqb c "034") && negb (Ascii.eqb c "\")
   && negb (n <=? 31) && negb ((127 <=? n) && (n <=? 159)))%nat.

Definition unit (u : list ascii) : Prop :=
  (exists c, u = [c] /\ inner_char c = true)
  \/ (exists c, u = ["\"%char; c] /\ c <> "010"%char).

Definition string_text (s : list ascii) : Prop :=
  exists units,
    s = ("034"%char :: List.concat units ++ ["034"%char])%list /\ Forall unit units.


End StringText.



(** The texts of the leaves that [type_to_regex] serves. *)
Definition leaf_lang (type : string) : Fragment.lang :=
  if String.eqb type "string" then StringText.string_text
  else if String.eqb type "integer" then NumberText.integer_text
  else if String.eqb type "number" then NumberText.number_text
  else if String.eqb type "boolean"
       then Fragment.lang_alt (Fragment.lang_text "true") (Fragment.lang_text "false")
  else Fragment.lang_text "null".

(** The texts one character long, the character in a set. *)
Definition class_lang (negated : bool) (ranges : list (ascii * ascii)) : Fragment.lang :=
  fun s => exists c, s = [c] /\ Regex.class_mem negated ranges c = true.

(** A text of one of the languages; with no language, the empty text (what
    an empty group matches). *)
Definition lang_choice (Ls : list Fragment.lang) : Fragment.lang :=
  match Ls with
  | [] => Fragment.lang_eps
  | _ => Fragment.lang_union Ls
  end.

(** A text of each language in turn, a text of [Lsep] between two of them. *)
Fixpoint lang_join (Lsep : Fragment.lang) (Ls : list Fragment.lang) : Fragment.lang :=
  match Ls with
  | [] => Fragment.lang_eps
  | [L] => L
  | L :: rest => Fragment.lang_cat L (Fragment.lang_cat Lsep (lang_join Lsep rest))
  end.

(** A run of newlines and spaces. *)
Definition lang_blank : Fragment.lang :=
  fun s => Forall (fun c => c = "010"%char \/ c = " "%char) s.

(** The texts of an array: between brackets, an item, then any number of
    items each after a comma. *)
Definition array_lang (L : Fragment.lang) : Fragment.lang :=
  fun s =>
    exists first rest,
      L first /\ Forall L rest
      /\ s = ("["%char :: first ++ List.concat (map (cons ","%char) rest) ++ ["]"%char])%list.

(** The texts of one member of an object, and of an object. *)
Definition member_lang (name : string) (L : Fragment.lang) : Fragment.lang :=
  Fragment.lang_concat
    [lang_blank; Fragment.lang_text (quoted name); lang_blank;
     Fragment.lang_text ":"; lang_blank; L].

Definition object_lang (members : list (string * Fragment.lang)) : Fragment.lang :=
  Fragment.lang_concat
    [Fragment.lang_text "{";
     lang_join (Fragment.lang_cat lang_blank (Fragment.lang_text ","))
               (map (fun m => member_lang (fst m) (snd m)) members);
     lang_blank; Fragment.lang_text "}"].

(** The texts of an item of an array whose schema has no [items]: a
    boolean, [null], a number, an integer or a string. *)
Definition any_item_lang : Fragment.lang :=
  Fragment.lang_union (map leaf_lang ["boolean"; "null"; "number"; "integer"; "string"]).

(** The texts of a type named alone in a node. *)
Definition type_lang (type : string) : Fragment.lang :=
  if String.eqb type "array" then array_lang any_item_lang else leaf_lang type.

(** The same when the name is read as a pattern, for the texts [N]. *)
Definition named_member_lang (N L : Fragment.lang) : Fragment.lang :=
  Fragment.lang_concat
    [lang_blank; Fragment.lang_text dq; N; Fragment.lang_text dq; lang_blank;
     Fragment.lang_text ":"; lang_blank; L].

Definition named_object_lang (members : list (Fragment.lang * Fragment.lang))
  : Fragment.lang :=
  Fragment.lang_concat
    [Fragment.lang_text "{";
     lang_join (Fragment.lang_cat lang_blank (Fragment.lang_text ","))
               (map (fun m => named_member_lang (fst m) (snd m)) members);
     lang_blank; Fragment.lang_text "}"].

(** The names of the primitive types. *)
Definition primitive_types : list string :=
  ["string"; "integer"; "number"; "boolean"; "null"].

(** The call returned a fragment for the texts [L]: a pattern that
    [re.fullmatch] accepts exactly on [L], and that can be put in a larger
    pattern. *)
Definition translated (outcome : result string) (L : Fragment.lang) : Prop :=
  exists pattern,
    outcome = Ok pattern
    /\ denotes pattern L
    /\ forall text,
        Regex.fullmatch pattern text = Some true <-> L (list_ascii_of_string text).

(** ** Nesting *)

(** How deep the lists and dicts of a value are nested. *)
Fixpoint depth (j : json) : nat :=
  match j with
  | JArr l => S (list_max (map depth l))
  | JObj d => S (list_max (map (fun kv => depth (snd kv)) d))
  | _ => O
  end.

(** No dict of the value, at any level, has the key [$ref]. *)
Fixpoint ref_free (j : json) : bool :=
  match j with
  | JArr l => forallb ref_free l
  | JObj d =>
      match assoc "$ref" d with
      | Some _ => false
      | None => forallb (fun kv => ref_free (snd kv)) d
      end
  | _ => true
  end.

(** A schema with three levels of nesting and no reference. *)
Definition nested_schema : json :=
  JObj [("properties",
         JObj [("tags", JObj [("type", JStr "array");
                              ("items", JObj [("type", JStr "string")])]);
               ("kind", JObj [("oneOf", JArr [JObj [("type", JStr "null")];
                                              JObj [("type", JStr "integer")]])])])].


(** ** Schemas and their texts *)


(** ** Recursive schemas *)

(** No level of recursion makes the call on [schema] raise. *)
Definition never_raises (resolver : Resolver) (schema : json) : Prop :=
  forall fuel e, to_regex fuel resolver schema <> Raise e.

(** [calls resolver node child]: the call on [node] makes the recursive call
    on [child], the calls before it in the same loop raising nothing. *)
Inductive calls (resolver : Resolver) : json -> json -> Prop :=
| calls_ref d ref target :
    wins "$ref" d ref ->
    lookup resolver (str ref) = Some target ->
    calls resolver (JObj d) target
| calls_property d before name value after :
    wins "properties" d (JObj (before ++ (name, value) :: after)%list) ->
    Forall (fun m => never_raises resolver (snd m)) before ->
    calls resolver (JObj d) value
| calls_subschema key d before child after :
    In key ["allOf"; "anyOf"; "oneOf"] ->
    wins key d (JArr (before ++ child :: after)%list) ->
    Forall (never_raises resolver) before ->
    calls resolver (JObj d) child
| calls_items d items :
    wins "type" d (JStr "array") ->
    assoc "items" d = Some items ->
    calls resolver (JObj d) items.

(** A list of integers as a recursive schema: a value and, for the rest, a
    reference to the schema itself. *)
Definition chain_schema : json :=
  JObj [("properties",
         JObj [("value", JObj [("type", JStr "integer")]);
               ("next", JObj self_ref)])].

Definition chain_resolver : Resolver :=
  {| lookup := fun path => if String.eqb path "#" then Some chain_schema else None |}.

(** * Properties *)

(** ** The matcher agrees with the meaning of patterns *)

Module RegexFacts.
Import Regex.

Lemma Matches_Void_inv s : ~ Matches Void s.
Proof. intros H; inversion H. Qed.

Lemma Matches_Eps_inv s : Matches Eps s -> s = [].
Proof. intros H; inversion H; reflexivity. Qed.

Lemma Matches_Class_inv negated ranges s :
  Matches (Class negated ranges) s ->
  exists c, s = [c] /\ class_mem negated ranges c = true.
Proof. intros H; inversion H; subst; eauto. Qed.

Lemma Matches_Cat_inv r1 r2 s :
  Matches (Cat r1 r2) s ->
  exists s1 s2, s = (s1 ++ s2)%list /\ Matches r1 s1 /\ Matches r2 s2.
Proof. intros H; inversion H; subst; eauto. Qed.

Lemma Matches_Alt_inv r1 r2 s :
  Matches (Alt r1 r2) s -> Matches r1 s \/ Matches r2 s.
Proof. intros H; inversion H; subst; auto. Qed.

(** A non-empty match of a star starts with a non-empty match of its body. *)
Lemma Matches_Star_cons r c s :
  Matches (Star r) (c :: s) ->
  exists s1 s2, s = (s1 ++ s2)%list /\ Matches r (c :: s1) /\ Matches (Star r) s2.
Proof.
  intros H.
  remember (Star r) as q eqn:Eq.
  remember (c :: s) as t eqn:Et.
  revert c s Et.
  induction H; intros c0 s0 Et; try discriminate.
  injection Eq as ->.
  destruct s1 as [|a s1'].
  - simpl in Et. apply IHMatches2; auto.
  - simpl in Et. injection Et as -> <-.
    exists s1', s2. auto.
Qed.

Lemma nullable_spec r : nullable r = true <-> Matches r [].
Proof.
  induction r as [| |negated ranges|r1 IH1 r2 IH2|r1 IH1 r2 IH2|r IH]; simpl.
  - split; [discriminate | intros H; inversion H].
  - split; [constructor | reflexivity].
  - split; [discriminate | intros H; inversion H].
  - rewrite andb_true_iff, IH1, IH2. split.
    + intros [H1 H2]. exact (MCat _ _ [] [] H1 H2).
    + intros H. apply Matches_Cat_inv in H as (s1 & s2 & E & H1 & H2).
      symmetry in E. apply app_eq_nil in E as [-> ->]. auto.
  - rewrite orb_true_iff, IH1, IH2. split.
    + intros [H | H]; [apply MAltL | apply MAltR]; exact H.
    + apply Matches_Alt_inv.
  - split; [constructor | reflexivity].
Qed.

Lemma deriv_spec c r : forall s, Matches (deriv c r) s <-> Matches r (c :: s).
Proof.
  induction r as [| |negated ranges|r1 IH1 r2 IH2|r1 IH1 r2 IH2|r IH]; intros s; simpl.
  - split; intros H; inversion H.
  - split; intros H; inversion H.
  - destruct (class_mem negated ranges c) eqn:E; split; intros H.
    + apply Matches_Eps_inv in H as ->. constructor; exact E.
    + apply Matches_Class_inv in H as (c' & Es & _). injection Es as _ ->. constructor.
    + inversion H.
    + apply Matches_Class_inv in H as (c' & Es & Hc).
      injection Es as -> _. congruence.
  - assert (Hcat : Matches (Cat (deriv c r1) r2) s ->  Matches (Cat r1 r2) (c :: s)).
    { intros H. apply Matches_Cat_inv in H as (s1 & s2 & -> & H1 & H2).
      apply IH1 in H1. exact (MCat _ _ (c :: s1) s2 H1 H2). }
    assert (Hinv : Matches (Cat r1 r2) (c :: s) ->
                   Matches (Cat (deriv c r1) r2) s \/
                   (Matches r1 [] /\ Matches (deriv c r2) s)).
    { intros H. apply Matches_Cat_inv in H as (s1 & s2 & E & H1 & H2).
      destruct s1 as [|a s1'].
      - simpl in E. subst s2. right. split; [exact H1 | apply IH2; exact H2].
      - simpl in E. injection E as <- ->. left.
        apply MCat; [apply IH1; exact H1 | exact H2]. }
    destruct (nullable r1) eqn:N; split; intros H.
    + apply Matches_Alt_inv in H as [H | H]; [auto |].
      apply IH2 in H. apply nullable_spec in N. exact (MCat _ _ [] (c :: s) N H).
    + apply Hinv in H as [H | [_ H]]; [apply MAltL | apply MAltR]; exact H.
    + auto.
    + apply Hinv in H as [H | [H _]]; [exact H |].
      apply nullable_spec in H. congruence.
  - split; intros H.
    + apply Matches_Alt_inv in H as [H | H]; [apply MAltL, IH1 | apply MAltR, IH2]; exact H.
    + apply Matches_Alt_inv in H as [H | H]; [apply MAltL, IH1 | apply MAltR, IH2]; exact H.
  - split; intros H.
    + apply Matches_Cat_inv in H as (s1 & s2 & -> & H1 & H2).
      apply IH in H1. exact (MStarApp _ (c :: s1) s2 H1 H2).
    + apply Matches_Star_cons in H as (s1 & s2 & -> & H1 & H2).
      apply MCat; [apply IH; exact H1 | exact H2].
Qed.

Theorem matchb_spec r s : matchb r s = true <-> Matches r s.
Proof.
  revert r. induction s as [|c s IH]; intros r; simpl.
  - apply nullable_spec.
  - rewrite IH. apply deriv_spec.
Qed.

Corollary matchb_false r s : matchb r s = false <-> ~ Matches r s.
Proof.
  rewrite <- matchb_spec. destruct (matchb r s); split; congruence.
Qed.

End RegexFacts.

(** ** Patterns of fixed texts, sets and repetitions *)

Section Literals.
Import Regex RegexFacts.

Lemma class_mem_single (c x : ascii) : class_mem false [(c, c)] x = true <-> x = c.
Proof.
  unfold class_mem, in_range. cbn [existsb fst snd xorb].
  rewrite orb_false_r, andb_true_iff, !Nat.leb_le. split.
  - intros [H1 H2].
    rewrite <- (ascii_nat_embedding x), <- (ascii_nat_embedding c).
    f_equal. lia.
  - intros ->. lia.
Qed.

Lemma Matches_Lit (c : ascii) (s : list ascii) : Matches (Lit c) s <-> s = [c].
Proof.
  unfold Lit. split.
  - intros H. apply Matches_Class_inv in H as (x & -> & Hx).
    apply class_mem_single in Hx. now subst.
  - intros ->. constructor. now apply class_mem_single.
Qed.

Lemma Matches_literal (w s : list ascii) : Matches (literal w) s <-> s = w.
Proof.
  revert s. induction w as [|c w IH]; intros s; cbn [literal].
  - split; [apply Matches_Eps_inv | intros ->; constructor].
  - split.
    + intros H. apply Matches_Cat_inv in H as (s1 & s2 & -> & H1 & H2).
      apply Matches_Lit in H1 as ->. apply IH in H2 as ->. reflexivity.
    + intros ->. apply (MCat _ _ [c] w); [now apply Matches_Lit | now apply IH].
Qed.

Lemma Matches_Cat_Eps (r : regex) (s : list ascii) : Matches (Cat r Eps) s <-> Matches r s.
Proof.
  split.
  - intros H. apply Matches_Cat_inv in H as (s1 & s2 & -> & H1 & H2).
    apply Matches_Eps_inv in H2 as ->. now rewrite app_nil_r.
  - intros H. rewrite <- (app_nil_r s). apply MCat; [exact H | constructor].
Qed.

End Literals.

Lemma list_ascii_of_string_inj (a b : string) :
  list_ascii_of_string a = list_ascii_of_string b -> a = b.
Proof.
  intros H.
  rewrite <- (string_of_list_ascii_of_string a), <- (string_of_list_ascii_of_string b).
  now rewrite H.
Qed.

Section Generic.
Import Regex RegexFacts.

Lemma in_chars (c : ascii) (l : list ascii) :
  In c l <-> existsb (Ascii.eqb c) l = true.
Proof.
  rewrite existsb_exists. split.
  - intros H. exists c. split; [exact H | apply Ascii.eqb_refl].
  - intros (x & Hx & E). apply Ascii.eqb_eq in E. now subst.
Qed.

Lemma Matches_optional (r : regex) (s : list ascii) :
  Matches (Alt Eps r) s <-> s = [] \/ Matches r s.
Proof.
  split.
  - intros H. apply Matches_Alt_inv in H as [H | H]; [left | right; exact H].
    now apply Matches_Eps_inv.
  - intros [-> | H]; [apply MAltL; constructor | apply MAltR; exact H].
Qed.

Lemma Matches_Cat_iff (r1 r2 : regex) (s : list ascii) :
  Matches (Cat r1 r2) s
  <-> exists s1 s2, s = (s1 ++ s2)%list /\ Matches r1 s1 /\ Matches r2 s2.
Proof.
  split; [apply Matches_Cat_inv |].
  intros (s1 & s2 & -> & H1 & H2). now apply MCat.
Qed.

Lemma Matches_Class_Cat (negated : bool) (ranges : list (ascii * ascii)) (r : regex)
    (s : list ascii) :
  Matches (Cat (Class negated ranges) r) s
  <-> exists c s', s = c :: s' /\ class_mem negated ranges c = true /\ Matches r s'.
Proof.
  rewrite Matches_Cat_iff. split.
  - intros (s1 & s2 & -> & H1 & H2).
    apply Matches_Class_inv in H1 as (c & -> & Hc). exists c, s2. auto.
  - intros (c & s' & -> & Hc & H). exists [c], s'. repeat split; [| exact H].
    now constructor.
Qed.

Lemma Matches_Star_Class (negated : bool) (ranges : list (ascii * ascii))
    (s : list ascii) :
  Matches (Star (Class negated ranges)) s
  <-> Forall (fun c => class_mem negated ranges c = true) s.
Proof.
  split.
  - induction s as [|c s IH]; intros H; [constructor |].
    apply Matches_Star_cons in H as (s1 & s2 & -> & H1 & H2).
    apply Matches_Class_inv in H1 as (c' & E & Hc). injection E as <- ->.
    constructor; [exact Hc | apply IH; exact H2].
  - induction 1 as [|c s Hc _ IH]; [constructor |].
    apply (MStarApp _ [c] s); [now constructor | exact IH].
Qed.

End Generic.

Section Building.
Import Regex RegexFacts.

Lemma step_lit (c : ascii) (r : regex) (s : list ascii) :
  Matches r s -> Matches (Cat (Lit c) r) (c :: s).
Proof. intros H. apply (MCat _ _ [c] s); [now apply Matches_Lit | exact H]. Qed.

Lemma step_closed (r1 r : regex) (s1 s : list ascii) :
  matchb r1 s1 = true -> Matches r s -> Matches (Cat r1 r) (s1 ++ s)%list.
Proof. intros H1 H. apply MCat; [now apply matchb_spec | exact H]. Qed.

Lemma Matches_blank (w : string) :
  blank w ->
  Matches (Star (Class false [("010"%char, "010"%char); (" "%char, " "%char)]))
          (list_ascii_of_string w).
Proof.
  unfold blank. induction 1 as [|c l Hc _ IH].
  - constructor.
  - apply (MStarApp _ [c] l); [| exact IH].
    constructor. destruct Hc as [-> | ->]; reflexivity.
Qed.

Lemma step_blank (w : string) (r : regex) (s : list ascii) :
  blank w ->
  Matches r s ->
  Matches (Cat (Star (Class false [("010"%char, "010"%char); (" "%char, " "%char)])) r)
          (list_ascii_of_string w ++ s)%list.
Proof. intros Hw H. apply MCat; [now apply Matches_blank | exact H]. Qed.

End Building.

(** ** Strings *)

Lemma append_assoc (a b c : string) : (a ++ b) ++ c = a ++ (b ++ c).
Proof. induction a as [|x a IH]; simpl; [reflexivity | now rewrite IH]. Qed.

Lemma append_nil_r (a : string) : a ++ "" = a.
Proof. induction a as [|x a IH]; simpl; [reflexivity | now rewrite IH]. Qed.

Lemma list_ascii_of_string_app (a b : string) :
  list_ascii_of_string (a ++ b) = (list_ascii_of_string a ++ list_ascii_of_string b)%list.
Proof. induction a as [|x a IH]; simpl; [reflexivity | now rewrite IH]. Qed.

(** ** The dispatch of [to_regex] on a dict *)

Ltac split_absent H :=
  cbv [earlier before dispatch_order String.eqb Ascii.eqb Bool.eqb] in H;
  repeat match type of H with
         | Forall _ (_ :: _) => apply Forall_cons_iff in H; destruct H as [? H]
         end;
  clear H; unfold absent in *.

Ltac split_wins H :=
  let Ha := fresh "Hearlier" in
  let Hv := fresh "Hkey" in
  destruct H as [Ha Hv]; split_absent Ha.

(** One step of the chain: rewrite the presence tests met so far. *)
Ltac chain :=
  cbn [to_regex]; unfold to_regex_body; cbn [contains_key bind];
  repeat match goal with
         | H : assoc ?k ?d = _ |- context [assoc ?k ?d] => rewrite H; cbn [bind]
         end.

Section Dispatch.

Variables (fuel : nat) (resolver : Resolver) (d : list (string * json)).

Let recur := to_regex fuel resolver.

Lemma to_regex_properties v :
  wins "properties" d v ->
  to_regex (S fuel) resolver (JObj d) = properties_branch recur (JObj d).
Proof. intros H. split_wins H. chain. reflexivity. Qed.

Lemma to_regex_allOf v :
  wins "allOf" d v ->
  to_regex (S fuel) resolver (JObj d) = allOf_branch recur (JObj d).
Proof. intros H. split_wins H. chain. reflexivity. Qed.

Lemma to_regex_anyOf v :
  wins "anyOf" d v ->
  to_regex (S fuel) resolver (JObj d) = anyOf_branch recur (JObj d).
Proof. intros H. split_wins H. chain. reflexivity. Qed.

Lemma to_regex_oneOf v :
  wins "oneOf" d v ->
  to_regex (S fuel) resolver (JObj d) = oneOf_branch recur (JObj d).
Proof. intros H. split_wins H. chain. reflexivity. Qed.

Lemma to_regex_enum v :
  wins "enum" d v ->
  to_regex (S fuel) resolver (JObj d) = enum_branch (JObj d).
Proof. intros H. split_wins H. chain. reflexivity. Qed.

Lemma to_regex_ref v :
  wins "$ref" d v ->
  to_regex (S fuel) resolver (JObj d) = ref_branch recur resolver (JObj d).
Proof. intros H. split_wins H. chain. reflexivity. Qed.

Lemma to_regex_type v :
  wins "type" d v ->
  to_regex (S fuel) resolver (JObj d) = type_branch recur (JObj d).
Proof. intros H. split_wins H. chain. reflexivity. Qed.

Lemma to_regex_no_keyword :
  Forall (absent d) dispatch_order ->
  to_regex (S fuel) resolver (JObj d) = Raise (NotImplementedError (JObj d)).
Proof.
  intros H. cbv [dispatch_order] in H. split_absent H. chain. reflexivity.
Qed.

End Dispatch.


(** ** More fuel does not change an outcome *)

Lemma extends_refl {A : Type} (r : result A) : extends r r.
Proof. now right. Qed.

Lemma extends_bind {A B : Type} (c1 c2 : result A) (k1 k2 : A -> result B) :
  extends c1 c2 ->
  (forall a, extends (k1 a) (k2 a)) ->
  extends (bind c1 k1) (bind c2 k2).
Proof.
  intros [-> | <-] Hk; [now left |].
  destruct c1 as [a | e |]; cbn [bind]; [apply Hk | now right | now left].
Qed.

Lemma extends_mapM {A B : Type} (f g : A -> result B) (l : list A) :
  (forall x, extends (f x) (g x)) -> extends (mapM f l) (mapM g l).
Proof.
  intros Hfg. induction l as [|x l IH]; cbn [mapM]; [apply extends_refl |].
  apply extends_bind; [apply Hfg | intros y].
  apply extends_bind; [exact IH | intros ys; apply extends_refl].
Qed.

Section MoreFuel.

Variables recur1 recur2 : json -> result string.
Hypothesis Hrecur : forall j, extends (recur1 j) (recur2 j).

Ltac more_fuel :=
  repeat first
    [ apply extends_refl
    | apply Hrecur
    | apply extends_bind; [| intros ?]
    | apply extends_mapM; intros ?
    | match goal with
      | |- extends (if ?b then _ else _) (if ?b then _ else _) => destruct b
      | |- extends (match ?x with _ => _ end) (match ?x with _ => _ end) => destruct x
      end ].

Lemma extends_properties_loop (n : nat) (rest : list (string * json)) :
  forall i regex,
    extends (properties_loop recur1 n i rest regex) (properties_loop recur2 n i rest regex).
Proof.
  induction rest as [|[name value] rest IH]; intros i regex; cbn [properties_loop].
  - apply extends_refl.
  - apply extends_bind; [apply Hrecur | intros sub; apply IH].
Qed.

Lemma extends_body (resolver : Resolver) (instance : json) :
  extends (to_regex_body recur1 resolver instance)
          (to_regex_body recur2 resolver instance).
Proof.
  unfold to_regex_body, properties_branch, allOf_branch, anyOf_branch, oneOf_branch,
    ref_branch, type_branch, array_leaf.
  more_fuel. apply extends_properties_loop.
Qed.

End MoreFuel.

Lemma to_regex_step (fuel : nat) (resolver : Resolver) :
  forall instance,
    extends (to_regex fuel resolver instance) (to_regex (S fuel) resolver instance).
Proof.
  induction fuel as [|fuel IH]; intros instance.
  - now left.
  - cbn [to_regex]. apply extends_body. exact IH.
Qed.

Lemma to_regex_more_fuel (resolver : Resolver) (instance : json) (fuel fuel' : nat) :
  (fuel <= fuel')%nat ->
  extends (to_regex fuel resolver instance) (to_regex fuel' resolver instance).
Proof.
  induction 1 as [|fuel' _ IH]; [apply extends_refl |].
  destruct IH as [E | E]; [now left |].
  rewrite E. apply to_regex_step.
Qed.

(** A call has one outcome at most. *)
Lemma translates_functional (resolver : Resolver) (node : json) (r1 r2 : result string) :
  translates resolver node r1 -> translates resolver node r2 -> r1 = r2.
Proof.
  intros [H1 [f1 E1]] [H2 [f2 E2]].
  destruct (Nat.le_ge_cases f1 f2) as [Hle | Hle].
  - destruct (to_regex_more_fuel resolver node f1 f2 Hle) as [E | E]; congruence.
  - destruct (to_regex_more_fuel resolver node f2 f1 Hle) as [E | E]; congruence.
Qed.

(** ** Objects *)

Lemma mapM_length {A B : Type} (f : A -> result B) (l : list A) (out : list B) :
  mapM f l = Ok out -> List.length out = List.length l.
Proof.
  revert out. induction l as [|x l IH]; intros out; cbn [mapM bind].
  - intros [= <-]. reflexivity.
  - destruct (f x) as [y | e |]; cbn [bind]; try discriminate.
    destruct (mapM f l) as [ys | e |]; cbn [bind]; try discriminate.
    intros [= <-]. cbn [List.length]. now rewrite (IH ys eq_refl).
Qed.

Section Loop.

Variable recur : json -> result string.

(** The loop writes the members one after the other, a comma after each but
    the last: its result is the [join] of the member fragments. *)
Lemma properties_loop_join (rest : list (string * json)) :
  forall (i : nat) (regex : string),
    properties_loop recur (i + List.length rest) i rest regex
    = do fragments <- mapM (fun m => recur (snd m)) rest;
      Ok (regex
          ++ join (whitespace ++ ",")
               (map (fun m => member_fragment (fst m) (snd m))
                    (combine (map fst rest) fragments))).
Proof.
  induction rest as [|[name value] rest IH]; intros i regex.
  - cbn [properties_loop mapM bind map combine join String.concat].
    now rewrite append_nil_r.
  - cbn [properties_loop mapM bind List.length snd].
    destruct (recur value) as [sub | e |]; cbn [bind]; try reflexivity.
    replace (i + S (List.length rest))%nat with (S i + List.length rest)%nat by lia.
    rewrite IH.
    destruct (mapM (fun m => recur (snd m)) rest) as [fragments | e |] eqn:E;
      cbn [bind]; try reflexivity.
    apply mapM_length in E. f_equal.
    destruct rest as [|m rest'], fragments as [|f fragments']; try discriminate E.
    + replace (Z.of_nat i <? Z.of_nat (S i + List.length (@nil (string * json))) - 1)%Z
        with false by (symmetry; apply Z.ltb_ge; cbn [List.length]; lia).
      cbn [map combine fst snd join String.concat]. unfold member_fragment.
      rewrite append_nil_r. repeat rewrite append_assoc. reflexivity.
    + replace (Z.of_nat i <? Z.of_nat (S i + List.length (m :: rest')) - 1)%Z
        with true by (symmetry; apply Z.ltb_lt; cbn [List.length]; lia).
      cbn [map combine fst snd]. unfold member_fragment.
      cbn [join String.concat]. repeat rewrite append_assoc. reflexivity.
Qed.

Lemma properties_branch_join (d members : list (string * json)) :
  assoc "properties" d = Some (JObj members) ->
  properties_branch recur (JObj d)
  = do fragments <- mapM (fun m => recur (snd m)) members;
    Ok (object_fragment (combine (map fst members) fragments)).
Proof.
  intros Hkey. unfold properties_branch. cbn [getitem items bind]. rewrite Hkey.
  cbn [bind items]. pose proof (properties_loop_join members 0) as Hloop.
  cbn [Nat.add] in Hloop. rewrite Hloop. clear Hloop.
  destruct (mapM (fun m => recur (snd m)) members) as [fragments | e |]; reflexivity.
Qed.

End Loop.


Lemma translate_schema_ab (fuel : nat) (resolver : Resolver) :
  to_regex (S (S fuel)) resolver schema_ab = Ok pattern_ab.
Proof.
  unfold schema_ab.
  rewrite to_regex_properties
    with (v := JObj [("a", JObj [("type", JStr "string")]);
                     ("b", JObj [("type", JStr "integer")])])
    by (split; [repeat constructor | reflexivity]).
  rewrite properties_branch_join
    with (members := [("a", JObj [("type", JStr "string")]);
                      ("b", JObj [("type", JStr "integer")])])
    by reflexivity.
  reflexivity.
Qed.

Lemma pattern_ab_accepts (w1 w2 w3 w4 w5 w6 w7 w8 : string) :
  blank w1 -> blank w2 -> blank w3 -> blank w4 ->
  blank w5 -> blank w6 -> blank w7 -> blank w8 ->
  Regex.fullmatch pattern_ab (text_ab w1 w2 w3 w4 w5 w6 w7 w8) = Some true.
Proof.
  intros B1 B2 B3 B4 B5 B6 B7 B8.
  unfold Regex.fullmatch.
  destruct (Regex.compile pattern_ab) as [r|] eqn:E; vm_compute in E; [| discriminate E].
  injection E as <-. f_equal. apply RegexFacts.matchb_spec.
  unfold text_ab, quoted.
  repeat rewrite list_ascii_of_string_app.
  repeat rewrite <- app_assoc.
  change (list_ascii_of_string dq) with ["034"%char].
  cbn [list_ascii_of_string app].
  apply step_lit. apply step_blank; [assumption |].
  do 3 apply step_lit.
  apply step_blank; [assumption |]. apply step_lit. apply step_blank; [assumption |].
  apply step_lit. apply (step_closed _ _ ["x"%char]); [reflexivity |]. apply step_lit.
  apply step_blank; [assumption |]. apply step_lit. apply step_blank; [assumption |].
  do 3 apply step_lit.
  apply step_blank; [assumption |]. apply step_lit. apply step_blank; [assumption |].
  apply (step_closed _ _ ["1"%char]); [reflexivity |].
  apply step_blank; [assumption |]. apply step_lit. constructor.
Qed.

(** C1. A node with [properties] is translated to an opening brace, then
    each property in the order of the dict as white space, the quoted name,
    white space, a colon, white space and the translation of its value, with
    white space and a comma between two properties and none after the last,
    then white space and a closing brace.  With [a], a string, declared
    before [b], an integer, the pattern matches [{"a": "x", "b": 1}] with
    any runs of newlines and spaces between its tokens, and does not match
    [{"b": 1, "a": "x"}]. *)
Theorem properties_object_form :
  (forall fuel resolver d members,
      wins "properties" d (JObj members) ->
      to_regex (S fuel) resolver (JObj d)
      = do fragments <- mapM (fun m => to_regex fuel resolver (snd m)) members;
        Ok (object_fragment (combine (map fst members) fragments)))
  /\ (forall fuel resolver, to_regex (S (S fuel)) resolver schema_ab = Ok pattern_ab)
  /\ (forall w1 w2 w3 w4 w5 w6 w7 w8,
         blank w1 -> blank w2 -> blank w3 -> blank w4 ->
         blank w5 -> blank w6 -> blank w7 -> blank w8 ->
         Regex.fullmatch pattern_ab (text_ab w1 w2 w3 w4 w5 w6 w7 w8) = Some true)
  /\ Regex.fullmatch pattern_ab text_ba = Some false.
Proof.
  split; [| split; [| split]].
  - intros fuel resolver d members Hwin.
    rewrite (to_regex_properties _ _ _ _ Hwin). destruct Hwin as [_ Hkey].
    now apply properties_branch_join.
  - exact translate_schema_ab.
  - exact pattern_ab_accepts.
  - vm_compute. reflexivity.
Qed.

Lemma properties_object_form_witness :
  wins "properties" [("properties", JObj [("n", JObj [("type", JStr "null")])])]
       (JObj [("n", JObj [("type", JStr "null")])])
  /\ to_regex 2 no_refs (JObj [("properties", JObj [("n", JObj [("type", JStr "null")])])])
     = Ok (object_fragment [("n", NULL)])
  /\ blank " "
  /\ Regex.fullmatch pattern_ab (text_ab "" "" " " "" " " "" " " "") = Some true.
Proof.
  assert (Hwin : wins "properties"
                   [("properties", JObj [("n", JObj [("type", JStr "null")])])]
                   (JObj [("n", JObj [("type", JStr "null")])])).
  { split; [repeat constructor | reflexivity]. }
  assert (Hblank : blank " ") by (repeat constructor; auto).
  assert (Hempty : blank "") by constructor.
  split; [exact Hwin |]. split; [| split; [exact Hblank |]].
  - rewrite (proj1 properties_object_form 1%nat no_refs _ _ Hwin). reflexivity.
  - apply (proj1 (proj2 (proj2 properties_object_form))); assumption.
Defined.

(** ** Arrangements *)

Section Arrangements.

Context {A : Type}.

Lemma in_picks (x : A) (rest l : list A) :
  In (x, rest) (picks l)
  <-> exists l1 l2, l = (l1 ++ x :: l2)%list /\ rest = (l1 ++ l2)%list.
Proof.
  revert rest. induction l as [|a l IH]; intros rest; cbn [picks].
  - split; [intros [] | intros (l1 & l2 & E & _); destruct l1; discriminate E].
  - split.
    + intros [E | Hin].
      * injection E as -> ->. exists [], rest. auto.
      * apply in_map_iff in Hin as ([y rest'] & E & Hin). cbn [fst snd] in E.
        injection E as -> <-. apply IH in Hin as (l1 & l2 & -> & ->).
        exists (a :: l1), l2. auto.
    + intros (l1 & l2 & E & ->). destruct l1 as [|b l1]; cbn [app] in *.
      * injection E as -> ->. left. reflexivity.
      * injection E as -> ->. right. apply in_map_iff.
        exists (x, (l1 ++ l2)%list). split; [reflexivity |].
        apply IH. eauto.
Qed.

Lemma length_picks (l : list A) : List.length (picks l) = List.length l.
Proof.
  induction l as [|a l IH]; cbn [picks List.length]; [reflexivity |].
  now rewrite length_map, IH.
Qed.

Lemma length_pick_rest (x : A) (rest l : list A) :
  In (x, rest) (picks l) -> List.length rest = (List.length l - 1)%nat.
Proof.
  intros H. apply in_picks in H as (l1 & l2 & -> & ->).
  rewrite !length_app. cbn [List.length]. lia.
Qed.

(** [permutations r l] has [n (n-1) ... (n-r+1)] members, positions
    counted and not values. *)
Lemma length_permutations (r : nat) :
  forall l : list A, List.length (permutations r l) = falling (List.length l) r.
Proof.
  induction r as [|r IH]; intros l; cbn [permutations falling]; [reflexivity |].
  rewrite flat_map_constant_length with (c := falling (List.length l - 1) r).
  - now rewrite length_picks.
  - intros [x rest] Hin. cbn [fst snd]. rewrite length_map, IH.
    now rewrite (length_pick_rest _ _ _ Hin).
Qed.

(** Its members are the lists of length [r] that can be completed to a
    rearrangement of [l]. *)
Lemma in_permutations (r : nat) :
  forall (c l : list A),
    In c (permutations r l)
    <-> List.length c = r /\ exists rest, Permutation (c ++ rest) l.
Proof.
  induction r as [|r IH]; intros c l; cbn [permutations].
  - split.
    + intros [<- | []]. split; [reflexivity |]. exists l. reflexivity.
    + intros [Hlen _]. left. destruct c; [reflexivity | discriminate Hlen].
  - rewrite in_flat_map. split.
    + intros ([x rest0] & Hpick & Hin). cbn [fst snd] in Hin.
      apply in_map_iff in Hin as (c' & <- & Hin).
      apply IH in Hin as (Hlen & rest & Hperm).
      apply in_picks in Hpick as (l1 & l2 & -> & ->).
      split; [cbn [List.length]; now rewrite Hlen |].
      exists rest. cbn [app]. now apply Permutation_cons_app.
    + intros (Hlen & rest & Hperm).
      destruct c as [|x c']; [discriminate Hlen |]. injection Hlen as Hlen.
      cbn [app] in Hperm.
      assert (Hx : In x l) by (eapply Permutation_in; [exact Hperm | now left]).
      apply in_split in Hx as (l1 & l2 & ->).
      apply Permutation_cons_app_inv in Hperm.
      exists (x, (l1 ++ l2)%list). split.
      * apply in_picks. eauto.
      * cbn [fst snd]. apply in_map. apply IH. eauto.
Qed.

Lemma in_arrangements (c l : list A) :
  In c (arrangements l) <-> c <> [] /\ exists rest, Permutation (c ++ rest) l.
Proof.
  unfold arrangements. rewrite in_flat_map. split.
  - intros (r & Hr & Hin). apply in_seq in Hr.
    apply in_permutations in Hin as (Hlen & Hrest).
    split; [| exact Hrest]. intros ->. cbn in Hlen. lia.
  - intros (Hne & rest & Hperm). exists (List.length c). split.
    + apply in_seq. apply Permutation_length in Hperm. rewrite length_app in Hperm.
      destruct c; [contradiction | cbn [List.length] in *; lia].
    + apply in_permutations. eauto.
Qed.

End Arrangements.

Lemma falling_fact (r : nat) :
  forall n, (r <= n)%nat -> (falling n r * fact (n - r) = fact n)%nat.
Proof.
  induction r as [|r IH]; intros n Hle; cbn [falling].
  - rewrite Nat.sub_0_r. lia.
  - destruct n as [|n]; [lia |].
    replace (S n - 1)%nat with n by lia.
    replace (S n - S r)%nat with (n - r)%nat by lia.
    rewrite <- Nat.mul_assoc, IH by lia. reflexivity.
Qed.

Lemma falling_quotient (n r : nat) :
  (r <= n)%nat -> falling n r = (fact n / fact (n - r))%nat.
Proof.
  intros Hle. rewrite <- (falling_fact r n Hle).
  symmetry. apply Nat.div_mul. apply fact_neq_0.
Qed.

Lemma length_arrangements {A : Type} (l : list A) :
  List.length (arrangements l) = arrangement_count (List.length l).
Proof.
  unfold arrangements, arrangement_count. rewrite length_flat_map.
  f_equal. apply map_ext_in. intros k Hk. apply in_seq in Hk.
  rewrite length_permutations. apply falling_quotient. lia.
Qed.

Lemma flat_map_map {A B C : Type} (f : B -> C) (g : A -> list B) (l : list A) :
  flat_map (fun x => map f (g x)) l = map f (flat_map g l).
Proof.
  induction l as [|x l IH]; cbn [flat_map]; [reflexivity |].
  now rewrite IH, map_app.
Qed.

(** C2. A node whose first keyword is [anyOf], with a list of subschemas,
    is translated to a group that joins with [|] one alternative for each
    arrangement of the child fragments, every alternative being the
    fragments of the arrangement one after the other, in a group of their
    own.  The arrangements are the non-empty lists that can be completed to
    a rearrangement of the children; there are as many as the sum of
    [N!/(N-k)!] for [k] from 1 to [N]; for two children [A] and [B] they are
    [A], [B], [A B] and [B A].  With a null and a boolean child the pattern
    matches [null], [true], [nulltrue] and [falsenull], and neither
    [nullnull] nor the empty text. *)
Theorem anyOf_arrangements :
  (forall fuel resolver d children,
      wins "anyOf" d (JArr children) ->
      to_regex (S fuel) resolver (JObj d)
      = do fragments <- mapM (to_regex fuel resolver) children;
        Ok ("(" ++ join "|" (map (fun c => "(" ++ join "" c ++ ")")
                                 (arrangements fragments)) ++ ")"))
  /\ (forall (fragments c : list string),
         In c (arrangements fragments)
         <-> c <> [] /\ exists rest, Permutation (c ++ rest) fragments)
  /\ (forall fragments : list string,
         List.length (arrangements fragments) = arrangement_count (List.length fragments))
  /\ (forall A B : string, arrangements [A; B] = [[A]; [B]; [A; B]; [B; A]])
  /\ arrangement_count 2 = 4%nat
  /\ (forall fuel resolver,
         exists pattern,
           to_regex (S (S fuel)) resolver null_or_boolean = Ok pattern
           /\ map (Regex.fullmatch pattern)
                 ["null"; "true"; "nulltrue"; "falsenull"; "nullnull"; ""]
              = [Some true; Some true; Some true; Some true; Some false; Some false]).
Proof.
  split; [| split; [| split; [| split; [| split]]]].
  - intros fuel resolver d children Hwin.
    rewrite (to_regex_anyOf _ _ _ _ Hwin). destruct Hwin as [_ Hkey].
    unfold anyOf_branch. cbn [getitem bind]. rewrite Hkey. cbn [bind iter].
    destruct (mapM (to_regex fuel resolver) children) as [fragments | e |];
      cbn [bind]; try reflexivity.
    unfold arrangements. now rewrite flat_map_map.
  - intros fragments c. apply in_arrangements.
  - intros fragments. apply length_arrangements.
  - reflexivity.
  - reflexivity.
  - intros fuel resolver. eexists. split; [reflexivity |]. vm_compute. reflexivity.
Qed.

Lemma anyOf_arrangements_witness :
  wins "anyOf" [("anyOf", JArr [JObj [("type", JStr "null")];
                                JObj [("type", JStr "boolean")]])]
       (JArr [JObj [("type", JStr "null")]; JObj [("type", JStr "boolean")]])
  /\ to_regex 2 no_refs
       (JObj [("anyOf", JArr [JObj [("type", JStr "null")];
                              JObj [("type", JStr "boolean")]])])
     = Ok "((null)|((true|false))|(null(true|false))|((true|false)null))".
Proof.
  assert (Hwin : wins "anyOf"
                   [("anyOf", JArr [JObj [("type", JStr "null")];
                                    JObj [("type", JStr "boolean")]])]
                   (JArr [JObj [("type", JStr "null")];
                          JObj [("type", JStr "boolean")]])).
  { split; [repeat constructor | reflexivity]. }
  split; [exact Hwin |].
  rewrite (proj1 anyOf_arrangements 1%nat no_refs _ _ Hwin). reflexivity.
Defined.

(** ** References *)

Lemma to_regex_ref_target (fuel : nat) (resolver : Resolver)
    (d : list (string * json)) (ref target : json) :
  wins "$ref" d ref ->
  lookup resolver (str ref) = Some target ->
  to_regex (S fuel) resolver (JObj d) = to_regex fuel resolver target.
Proof.
  intros Hwin Hlookup. rewrite (to_regex_ref _ _ _ _ Hwin).
  destruct Hwin as [_ Hkey].
  unfold ref_branch. cbn [getitem bind]. rewrite Hkey. cbn [bind].
  rewrite Hlookup. reflexivity.
Qed.

(** C3. A node on which [$ref] is the first dispatched keyword, and whose
    reference the resolver resolves to [target], is translated by the
    recursive call on [target] with the same resolver: the two calls have
    the same outcome, pattern for pattern and exception for exception. *)
Theorem ref_is_inlining (resolver : Resolver) (d : list (string * json))
    (ref target : json) :
  wins "$ref" d ref ->
  lookup resolver (str ref) = Some target ->
  (forall fuel,
      to_regex (S fuel) resolver (JObj d) = to_regex fuel resolver target)
  /\ (forall r, translates resolver (JObj d) r <-> translates resolver target r).
Proof.
  intros Hwin Hlookup.
  assert (Hstep : forall fuel,
             to_regex (S fuel) resolver (JObj d) = to_regex fuel resolver target).
  { intros fuel. now apply to_regex_ref_target with (ref := ref). }
  split; [exact Hstep |].
  intros r. unfold translates. split; intros [Hr [fuel E]]; split; try exact Hr.
  - destruct fuel as [|fuel].
    + cbn in E. congruence.
    + exists fuel. rewrite <- Hstep. exact E.
  - exists (S fuel). rewrite Hstep. exact E.
Qed.

Lemma ref_is_inlining_witness :
  wins "$ref" [("$ref", JStr "#/$defs/name")] (JStr "#/$defs/name")
  /\ to_regex 2 ref_resolver (JObj [("$ref", JStr "#/$defs/name")])
     = to_regex 1 ref_resolver (JObj [("type", JStr "string")]).
Proof.
  assert (Hwin : wins "$ref" [("$ref", JStr "#/$defs/name")] (JStr "#/$defs/name")).
  { split; [repeat constructor | reflexivity]. }
  split; [exact Hwin |].
  apply (ref_is_inlining ref_resolver _ _ (JObj [("type", JStr "string")]) Hwin).
  reflexivity.
Defined.

(** ** String leaves with length bounds *)

Lemma check_lengths_ints (hi lo : Z) : check_lengths (JInt hi) (JInt lo) = Ok tt.
Proof. unfold check_lengths. cbn [int bind]. destruct (hi <? lo)%Z; reflexivity. Qed.

Lemma string_leaf_bounds (d : list (string * json)) (min max : option Z) :
  assoc "minLength" d = option_map JInt min ->
  assoc "maxLength" d = option_map JInt max ->
  min <> None \/ max <> None ->
  string_leaf (JObj d)
  = Ok (dq ++ STRING_INNER ++ "{" ++ bound min ++ "," ++ bound max ++ "}" ++ dq).
Proof.
  intros Hmin Hmax Hsome.
  unfold string_leaf. cbn [contains_key get bind]. rewrite Hmin, Hmax.
  destruct min as [lo|], max as [hi|]; cbn [option_map bind].
  - rewrite check_lengths_ints. reflexivity.
  - reflexivity.
  - reflexivity.
  - destruct Hsome; congruence.
Qed.

(** C4. A string leaf that has [minLength] or [maxLength] (integers) is
    translated to the quoted inner-character pattern repeated over the range
    written from the two bounds as they are, an absent bound left empty; the
    range of bounds 2 and 4 is [{2,4}]; and a maximum below the minimum
    raises nothing and is written out all the same.  With the range [{2,4}]
    the pattern matches quoted bodies of 2, 3 and 4 characters and no body
    of 1 or 5. *)
Theorem string_length_bounds :
  (forall fuel resolver d (min max : option Z),
      wins "type" d (JStr "string") ->
      assoc "minLength" d = option_map JInt min ->
      assoc "maxLength" d = option_map JInt max ->
      min <> None \/ max <> None ->
      to_regex (S fuel) resolver (JObj d)
      = Ok (dq ++ STRING_INNER ++ "{" ++ bound min ++ "," ++ bound max ++ "}" ++ dq))
  /\ (forall fuel resolver,
         to_regex (S fuel) resolver
           (JObj [("type", JStr "string"); ("minLength", JInt 2); ("maxLength", JInt 4)])
         = Ok (dq ++ STRING_INNER ++ "{2,4}" ++ dq))
  /\ (forall fuel resolver,
         to_regex (S fuel) resolver
           (JObj [("type", JStr "string"); ("minLength", JInt 4); ("maxLength", JInt 2)])
         = Ok (dq ++ STRING_INNER ++ "{4,2}" ++ dq))
  /\ map (Regex.fullmatch (dq ++ STRING_INNER ++ "{2,4}" ++ dq))
         [quoted "a"; quoted "ab"; quoted "abc"; quoted "abcd"; quoted "abcde"]
     = [Some false; Some true; Some true; Some true; Some false].
Proof.
  assert (General : forall fuel resolver d (min max : option Z),
      wins "type" d (JStr "string") ->
      assoc "minLength" d = option_map JInt min ->
      assoc "maxLength" d = option_map JInt max ->
      min <> None \/ max <> None ->
      to_regex (S fuel) resolver (JObj d)
      = Ok (dq ++ STRING_INNER ++ "{" ++ bound min ++ "," ++ bound max ++ "}" ++ dq)).
  { intros fuel resolver d min max Hwin Hmin Hmax Hsome.
    rewrite (to_regex_type _ _ _ _ Hwin). destruct Hwin as [_ Hkey].
    unfold type_branch. cbn [getitem bind]. rewrite Hkey. cbn [bind is_str String.eqb].
    change (String.eqb "string" "string") with true. cbv iota.
    apply string_leaf_bounds; assumption. }
  split; [exact General |]. split; [| split]; [intros fuel resolver .. |].
  - apply (General fuel resolver _ (Some 2%Z) (Some 4%Z)).
    + split; [repeat constructor | reflexivity].
    + reflexivity.
    + reflexivity.
    + left; discriminate.
  - apply (General fuel resolver _ (Some 4%Z) (Some 2%Z)).
    + split; [repeat constructor | reflexivity].
    + reflexivity.
    + reflexivity.
    + left; discriminate.
  - vm_compute. reflexivity.
Qed.

Lemma string_length_bounds_witness :
  wins "type" [("type", JStr "string"); ("maxLength", JInt 3)] (JStr "string")
  /\ to_regex 1 no_refs (JObj [("type", JStr "string"); ("maxLength", JInt 3)])
     = Ok (dq ++ STRING_INNER ++ "{,3}" ++ dq).
Proof.
  assert (Hwin : wins "type" [("type", JStr "string"); ("maxLength", JInt 3)] (JStr "string")).
  { split; [repeat constructor | reflexivity]. }
  split; [exact Hwin |].
  apply (proj1 string_length_bounds 0%nat no_refs _ None (Some 3%Z) Hwin).
  - reflexivity.
  - reflexivity.
  - right; discriminate.
Defined.

(** ** Enumerations *)

Lemma mapM_escape_strings (strings : list string) :
  mapM (fun choice => do e <- Re.escape_value choice; Ok (dq ++ e ++ dq))
       (map JStr strings)
  = Ok (map (fun s => dq ++ Re.escape s ++ dq) strings).
Proof.
  induction strings as [|s rest IH]; cbn [map mapM bind Re.escape_value].
  - reflexivity.
  - rewrite IH. reflexivity.
Qed.

(** With [type] equal to ["string"], string members are written between
    double quotes, escaped. *)
Lemma enum_of_strings (fuel : nat) (resolver : Resolver) (d : list (string * json))
    (strings : list string) :
  wins "enum" d (JArr (map JStr strings)) ->
  assoc "type" d = Some (JStr "string") ->
  to_regex (S fuel) resolver (JObj d)
  = Ok ("(" ++ join "|" (map (fun s => dq ++ Re.escape s ++ dq) strings) ++ ")").
Proof.
  intros Hwin Htype. rewrite (to_regex_enum _ _ _ _ Hwin). destruct Hwin as [_ Hkey].
  unfold enum_branch. cbn [getitem bind]. rewrite Htype. cbn [bind is_str].
  change (String.eqb "string" "string") with true. cbv iota.
  rewrite Hkey. cbn [bind iter]. rewrite mapM_escape_strings. reflexivity.
Qed.

(** With a [type] other than ["string"], members are written as [str]
    prints them, escaped. *)
Lemma enum_of_other_type (fuel : nat) (resolver : Resolver) (d : list (string * json))
    (members : list json) (type : json) :
  wins "enum" d (JArr members) ->
  assoc "type" d = Some type ->
  is_str type "string" = false ->
  to_regex (S fuel) resolver (JObj d)
  = Ok ("(" ++ join "|" (map (fun m => Re.escape (str m)) members) ++ ")").
Proof.
  intros Hwin Htype Hother. rewrite (to_regex_enum _ _ _ _ Hwin). destruct Hwin as [_ Hkey].
  unfold enum_branch. cbn [getitem bind]. rewrite Htype. cbn [bind].
  rewrite Hother, Hkey. reflexivity.
Qed.

(** Without [type], reading [instance["type"]] raises [KeyError]. *)
Lemma enum_without_type (fuel : nat) (resolver : Resolver) (d : list (string * json))
    (enum : json) :
  wins "enum" d enum ->
  absent d "type" ->
  to_regex (S fuel) resolver (JObj d) = Raise (KeyError (JStr "type")).
Proof.
  intros Hwin Htype. rewrite (to_regex_enum _ _ _ _ Hwin).
  unfold enum_branch, absent in *. cbn [getitem bind]. rewrite Htype. reflexivity.
Qed.

(** The pattern of the three colours, of type string, matches the three
    quoted names and nothing else. *)
Lemma enum_colours (fuel : nat) (resolver : Resolver) :
  exists pattern,
    to_regex (S fuel) resolver (JObj [("enum", colours); ("type", JStr "string")])
    = Ok pattern
    /\ forall text,
        Regex.fullmatch pattern text = Some true
        <-> text = quoted "red" \/ text = quoted "green" \/ text = quoted "blue".
Proof.
  eexists. split; [reflexivity |].
  intros text. unfold Regex.fullmatch.
  match goal with
  | |- context [Regex.compile ?p] =>
      replace (Regex.compile p) with
        (Some (Regex.Cat
                 (Regex.Alt (literal (list_ascii_of_string (quoted "red")))
                    (Regex.Alt (literal (list_ascii_of_string (quoted "green")))
                               (literal (list_ascii_of_string (quoted "blue")))))
                 Regex.Eps))
        by (vm_compute; reflexivity)
  end.
  split.
  - intros H. injection H as H. apply RegexFacts.matchb_spec in H.
    apply (proj1 (Matches_Cat_Eps _ _)) in H.
    apply RegexFacts.Matches_Alt_inv in H as [H | H];
      [| apply RegexFacts.Matches_Alt_inv in H as [H | H]].
    + apply (proj1 (Matches_literal (list_ascii_of_string (quoted "red")) _)) in H.
      apply list_ascii_of_string_inj in H. auto.
    + apply (proj1 (Matches_literal (list_ascii_of_string (quoted "green")) _)) in H.
      apply list_ascii_of_string_inj in H. auto.
    + apply (proj1 (Matches_literal (list_ascii_of_string (quoted "blue")) _)) in H.
      apply list_ascii_of_string_inj in H. auto.
  - intros H. f_equal. apply RegexFacts.matchb_spec, Matches_Cat_Eps.
    destruct H as [-> | [-> | ->]];
      [apply Regex.MAltL | apply Regex.MAltR, Regex.MAltL | apply Regex.MAltR, Regex.MAltR];
      now apply Matches_literal.
Qed.

(** C5, at the input where the code departs from it.  The node whose only
    keyword is [enum], with the three colours, is not rendered through the
    default text of its members: the enum branch reads [instance["type"]]
    first, and the call raises [KeyError] on the key [type]. *)
Theorem enum_without_type_faults (fuel : nat) (resolver : Resolver) :
  to_regex (S fuel) resolver (JObj [("enum", colours)]) = Raise (KeyError (JStr "type")).
Proof.
  apply enum_without_type with (enum := colours).
  - split; [repeat constructor | reflexivity].
  - reflexivity.
Qed.

(** ** Nodes that no branch handles *)

Lemma type_branch_unrecognised (recur : json -> result string)
    (d : list (string * json)) (type : json) :
  assoc "type" d = Some type ->
  recognised type = false ->
  type_branch recur (JObj d) = Raise (NotImplementedError (JObj d)).
Proof.
  intros Hkey Hrec. unfold type_branch. cbn [getitem bind]. rewrite Hkey. cbn [bind].
  destruct type as [| b | z | s | l | o]; try reflexivity; [| discriminate Hrec].
  cbn [recognised existsb] in Hrec. cbn [is_str].
  repeat (apply orb_false_elim in Hrec; destruct Hrec as [E Hrec]; rewrite E; clear E).
  reflexivity.
Qed.

(** C6. A node with none of [properties], [allOf], [anyOf], [oneOf],
    [enum] and [$ref], and with no [type] or a [type] that is not
    recognised, is not translated: the call raises [NotImplementedError]
    carrying that node, and returns no pattern.  The empty node is one. *)
Theorem unsupported_node :
  (forall fuel resolver d,
      Forall (absent d) (earlier "type") ->
      (assoc "type" d = None
       \/ exists type, assoc "type" d = Some type /\ recognised type = false) ->
      to_regex (S fuel) resolver (JObj d) = Raise (NotImplementedError (JObj d)))
  /\ (forall fuel resolver,
         to_regex (S fuel) resolver (JObj []) = Raise (NotImplementedError (JObj []))).
Proof.
  split.
  - intros fuel resolver d Hearlier [Hnone | (type & Hkey & Hrec)].
    + apply to_regex_no_keyword.
      change dispatch_order with (earlier "type" ++ ["type"])%list.
      apply Forall_app. split; [exact Hearlier | repeat constructor; exact Hnone].
    + rewrite (to_regex_type _ _ _ type (conj Hearlier Hkey)).
      apply type_branch_unrecognised with (type := type); assumption.
  - reflexivity.
Qed.

Lemma unsupported_node_witness :
  Forall (absent [("type", JStr "object"); ("required", JArr [])]) (earlier "type")
  /\ to_regex 1 no_refs (JObj [("type", JStr "object"); ("required", JArr [])])
     = Raise (NotImplementedError (JObj [("type", JStr "object"); ("required", JArr [])])).
Proof.
  assert (H : Forall (absent [("type", JStr "object"); ("required", JArr [])])
                (earlier "type")).
  { repeat constructor. }
  split; [exact H |].
  apply (proj1 unsupported_node 0%nat no_refs _ H).
  right. exists (JStr "object"). split; reflexivity.
Defined.

(** ** Arrays *)

Lemma type_branch_array (recur : json -> result string) (d : list (string * json)) :
  assoc "type" d = Some (JStr "array") ->
  type_branch recur (JObj d) = array_leaf recur (JObj d).
Proof.
  intros Hkey. unfold type_branch. cbn [getitem bind]. rewrite Hkey. reflexivity.
Qed.

(** C7. An array leaf with [items] translates [items] once, to a fragment
    [F], and returns [\[(F)(,(F))*\]]: one item, then any number of items
    each after a comma.  For integer items, [[1,2,3]] and [[1]] match and
    [[]] does not. *)
Theorem array_items_form :
  (forall fuel resolver d items,
      wins "type" d (JStr "array") ->
      assoc "items" d = Some items ->
      to_regex (S fuel) resolver (JObj d)
      = do F <- to_regex fuel resolver items;
        Ok ("\[(" ++ F ++ ")(,(" ++ F ++ "))*\]"))
  /\ (forall fuel resolver,
         exists pattern,
           to_regex (S (S fuel)) resolver integer_array = Ok pattern
           /\ Regex.fullmatch pattern "[1,2,3]" = Some true
           /\ Regex.fullmatch pattern "[1]" = Some true
           /\ Regex.fullmatch pattern "[]" = Some false).
Proof.
  split.
  - intros fuel resolver d items Hwin Hitems.
    rewrite (to_regex_type _ _ _ _ Hwin). destruct Hwin as [_ Hkey].
    rewrite (type_branch_array _ _ Hkey).
    unfold array_leaf. cbn [contains_key getitem bind]. rewrite Hitems. reflexivity.
  - intros fuel resolver. eexists. split; [reflexivity |].
    vm_compute. auto.
Qed.

Lemma array_items_form_witness :
  wins "type" [("type", JStr "array"); ("items", JObj [("type", JStr "null")])]
    (JStr "array")
  /\ to_regex 2 no_refs
       (JObj [("type", JStr "array"); ("items", JObj [("type", JStr "null")])])
     = Ok "\[(null)(,(null))*\]".
Proof.
  assert (Hwin : wins "type"
                   [("type", JStr "array"); ("items", JObj [("type", JStr "null")])]
                   (JStr "array")).
  { split; [repeat constructor | reflexivity]. }
  split; [exact Hwin |].
  rewrite (proj1 array_items_form 1%nat no_refs _ (JObj [("type", JStr "null")]) Hwin);
    reflexivity.
Defined.

(** ** Precedence *)

Lemma to_regex_branch (fuel : nat) (resolver : Resolver) (key : string)
    (d : list (string * json)) (v : json) :
  In key dispatch_order ->
  wins key d v ->
  to_regex (S fuel) resolver (JObj d) = branch key (to_regex fuel resolver) resolver (JObj d).
Proof.
  intros Hin Hwin. cbv [dispatch_order In] in Hin.
  destruct Hin as [<- | [<- | [<- | [<- | [<- | [<- | [<- | []]]]]]]].
  - exact (to_regex_properties _ _ _ _ Hwin).
  - exact (to_regex_allOf _ _ _ _ Hwin).
  - exact (to_regex_anyOf _ _ _ _ Hwin).
  - exact (to_regex_oneOf _ _ _ _ Hwin).
  - exact (to_regex_enum _ _ _ _ Hwin).
  - exact (to_regex_ref _ _ _ _ Hwin).
  - exact (to_regex_type _ _ _ _ Hwin).
Qed.

(** The enum branch reads [type], a keyword that comes later in the chain. *)
Lemma enum_reads_type :
  to_regex 1 no_refs (JObj [("enum", JArr [JStr "a"]); ("type", JStr "string")])
  = Ok ("(" ++ quoted "a" ++ ")")
  /\ to_regex 1 no_refs (JObj [("enum", JArr [JStr "a"]); ("type", JStr "integer")])
     = Ok "(a)".
Proof. split; reflexivity. Qed.

(** The precedence rule without a proviso fails on two nodes that have
    [enum] first, with the same value, and differ in [type] only. *)
Lemma later_keys_not_all_ignored : ~ later_keys_ignored.
Proof.
  intros Hclaim.
  specialize (Hclaim 1%nat no_refs "enum"
                [("enum", JArr [JStr "a"]); ("type", JStr "string")]
                [("enum", JArr [JStr "a"]); ("type", JStr "integer")]
                (JArr [JStr "a"])).
  destruct enum_reads_type as [E1 E2]. rewrite E1, E2 in Hclaim.
  assert (Habs : Ok ("(" ++ quoted "a" ++ ")") = Ok "(a)").
  { apply Hclaim.
    - cbv [earlier before dispatch_order String.eqb Ascii.eqb Bool.eqb In]. auto 10.
    - split; [repeat constructor | reflexivity].
    - split; [repeat constructor | reflexivity]. }
  discriminate Habs.
Qed.

(** C8, amended. The first keyword of the chain that a node has selects
    the branch.  Two nodes with the same first keyword, one of
    [properties], [allOf], [anyOf], [oneOf], [enum] and [$ref], and the same
    value for it, have the same translation whatever else they hold,
    provided, when that keyword is [enum], that they agree on [type],
    which the enum branch reads.  So a node with [properties] and [type] is
    translated as the node with its [properties] alone. *)
Theorem first_keyword_wins :
  (forall fuel resolver key d v,
      In key dispatch_order ->
      wins key d v ->
      to_regex (S fuel) resolver (JObj d)
      = branch key (to_regex fuel resolver) resolver (JObj d))
  /\ (forall fuel resolver key d1 d2 v,
         In key (earlier "type") ->
         wins key d1 v -> wins key d2 v ->
         (key = "enum" -> assoc "type" d1 = assoc "type" d2) ->
         to_regex fuel resolver (JObj d1) = to_regex fuel resolver (JObj d2))
  /\ (forall fuel resolver properties type,
         to_regex fuel resolver (JObj [("properties", properties); ("type", type)])
         = to_regex fuel resolver (JObj [("properties", properties)])).
Proof.
  assert (Agree : forall fuel resolver key d1 d2 v,
             In key (earlier "type") ->
             wins key d1 v -> wins key d2 v ->
             (key = "enum" -> assoc "type" d1 = assoc "type" d2) ->
             to_regex fuel resolver (JObj d1) = to_regex fuel resolver (JObj d2)).
  { intros [|fuel] resolver key d1 d2 v Hin H1 H2 Htype; [reflexivity |].
    assert (Hin' : In key dispatch_order).
    { change dispatch_order with (earlier "type" ++ ["type"])%list.
      apply in_or_app. left. exact Hin. }
    rewrite (to_regex_branch _ _ _ _ _ Hin' H1), (to_regex_branch _ _ _ _ _ Hin' H2).
    destruct H1 as [_ K1], H2 as [_ K2].
    cbv [earlier before dispatch_order String.eqb Ascii.eqb Bool.eqb In] in Hin.
    destruct Hin as [<- | [<- | [<- | [<- | [<- | [<- | []]]]]]];
      cbv [branch String.eqb Ascii.eqb Bool.eqb].
    - unfold properties_branch. cbn [getitem bind]. now rewrite K1, K2.
    - unfold allOf_branch. cbn [getitem bind]. now rewrite K1, K2.
    - unfold anyOf_branch. cbn [getitem bind]. now rewrite K1, K2.
    - unfold oneOf_branch. cbn [getitem bind]. now rewrite K1, K2.
    - unfold enum_branch. cbn [getitem bind]. now rewrite K1, K2, (Htype eq_refl).
    - unfold ref_branch. cbn [getitem bind]. now rewrite K1, K2. }
  split; [| split].
  - intros. eapply to_regex_branch; eassumption.
  - exact Agree.
  - intros fuel resolver properties type.
    apply (Agree fuel resolver "properties" _ _ properties).
    + cbv [earlier before dispatch_order String.eqb Ascii.eqb Bool.eqb In]. auto.
    + split; [repeat constructor | reflexivity].
    + split; [repeat constructor | reflexivity].
    + discriminate.
Qed.

Lemma first_keyword_wins_witness :
  wins "allOf" [("type", JStr "null"); ("allOf", JArr [])] (JArr [])
  /\ wins "allOf" [("allOf", JArr []); ("enum", JArr [])] (JArr [])
  /\ to_regex 1 no_refs (JObj [("type", JStr "null"); ("allOf", JArr [])])
     = to_regex 1 no_refs (JObj [("allOf", JArr []); ("enum", JArr [])]).
Proof.
  assert (H1 : wins "allOf" [("type", JStr "null"); ("allOf", JArr [])] (JArr [])).
  { split; [repeat constructor | reflexivity]. }
  assert (H2 : wins "allOf" [("allOf", JArr []); ("enum", JArr [])] (JArr [])).
  { split; [repeat constructor | reflexivity]. }
  split; [exact H1 |]. split; [exact H2 |].
  apply (proj1 (proj2 first_keyword_wins) 1%nat no_refs "allOf" _ _ (JArr [])).
  - cbv [earlier before dispatch_order String.eqb Ascii.eqb Bool.eqb In]. auto.
  - exact H1.
  - exact H2.
  - discriminate.
Defined.

(** ** Numbers *)

Section Numbers.
Import Regex RegexFacts NumberText.

Lemma compile_NUMBER : compile NUMBER = Some number_re.
Proof. vm_compute. reflexivity. Qed.

Ltac each_char c := destruct c as [[] [] [] [] [] [] [] []]; reflexivity.

Lemma digit_class (c : ascii) :
  class_mem false [("0"%char, "9"%char)] c = true <-> digit c.
Proof.
  unfold digit. rewrite in_chars.
  replace (existsb (Ascii.eqb c) (list_ascii_of_string "0123456789"))
    with (class_mem false [("0"%char, "9"%char)] c) by each_char c.
  reflexivity.
Qed.

Lemma nonzero_digit_class (c : ascii) :
  class_mem false [("1"%char, "9"%char)] c = true <-> nonzero_digit c.
Proof.
  unfold nonzero_digit. rewrite in_chars.
  replace (existsb (Ascii.eqb c) (list_ascii_of_string "123456789"))
    with (class_mem false [("1"%char, "9"%char)] c) by each_char c.
  reflexivity.
Qed.

Lemma letter_e_class (c : ascii) :
  class_mem false [("e"%char, "e"%char); ("E"%char, "E"%char)] c = true
  <-> c = "e"%char \/ c = "E"%char.
Proof.
  transitivity (In c ["e"%char; "E"%char]).
  - rewrite in_chars.
    replace (existsb (Ascii.eqb c) ["e"%char; "E"%char])
      with (class_mem false [("e"%char, "e"%char); ("E"%char, "E"%char)] c)
      by each_char c.
    reflexivity.
  - cbn [In]. intuition congruence.
Qed.

Lemma sign_class (c : ascii) :
  class_mem false [("+"%char, "+"%char); ("-"%char, "-"%char)] c = true
  <-> c = "+"%char \/ c = "-"%char.
Proof.
  transitivity (In c ["+"%char; "-"%char]).
  - rewrite in_chars.
    replace (existsb (Ascii.eqb c) ["+"%char; "-"%char])
      with (class_mem false [("+"%char, "+"%char); ("-"%char, "-"%char)] c)
      by each_char c.
    reflexivity.
  - cbn [In]. intuition congruence.
Qed.

Lemma Matches_digits (s : list ascii) : Matches (Star digit_re) s <-> Forall digit s.
Proof.
  unfold digit_re. rewrite Matches_Star_Class.
  split; apply Forall_impl; intros c; apply digit_class.
Qed.

Lemma Matches_digits1 (s : list ascii) : Matches digits1_re s <-> digits1 s.
Proof.
  unfold digits1_re, digits1. unfold digit_re at 1. rewrite Matches_Class_Cat. split.
  - intros (c & s' & -> & Hc & H). split; [discriminate |].
    constructor; [now apply digit_class | now apply Matches_digits].
  - intros [Hne H]. destruct s as [|c s']; [contradiction |].
    apply Forall_cons_iff in H as [Hc H].
    exists c, s'. repeat split; [now apply digit_class | now apply Matches_digits].
Qed.

Lemma Matches_sign (s : list ascii) : Matches sign_re s <-> optional (eq ["-"%char]) s.
Proof.
  unfold sign_re, optional. rewrite Matches_optional, Matches_Cat_Eps, Matches_Lit.
  intuition congruence.
Qed.

Lemma Matches_integer (s : list ascii) : Matches integer_re s <-> integer_text s.
Proof.
  unfold integer_re, integer_text. split.
  - intros H. apply Matches_Alt_inv in H as [H | H].
    + left. now apply Matches_Cat_Eps, Matches_Lit in H.
    + right. apply Matches_Class_Cat in H as (d & ds & -> & Hd & H).
      apply Matches_Cat_Eps, Matches_digits in H.
      exists d, ds. repeat split; [now apply nonzero_digit_class | exact H].
  - intros [-> | (d & ds & -> & Hd & H)].
    + apply MAltL. now apply Matches_Cat_Eps, Matches_Lit.
    + apply MAltR. apply Matches_Class_Cat. exists d, ds.
      repeat split; [now apply nonzero_digit_class |].
      now apply Matches_Cat_Eps, Matches_digits.
Qed.

Lemma Matches_fraction (s : list ascii) :
  Matches fraction_re s <-> optional fraction_text s.
Proof.
  unfold fraction_re, optional, fraction_text. rewrite Matches_optional.
  unfold Lit. rewrite Matches_Class_Cat. split.
  - intros [-> | (c & ds & -> & Hc & H)]; [now left | right].
    apply class_mem_single in Hc as ->.
    apply Matches_Cat_Eps, Matches_digits1 in H. eauto.
  - intros [-> | (ds & -> & H)]; [now left | right].
    exists "."%char, ds. repeat split. now apply Matches_Cat_Eps, Matches_digits1.
Qed.

Lemma Matches_exponent (s : list ascii) :
  Matches exponent_re s <-> optional exponent_text s.
Proof.
  unfold exponent_re, optional, exponent_text. rewrite Matches_optional. split.
  - intros [-> | H]; [now left | right].
    apply Matches_Class_Cat in H as (e & s1 & -> & He & H).
    apply Matches_Class_Cat in H as (sign & ds & -> & Hsign & H).
    apply Matches_Cat_Eps, Matches_digits1 in H.
    exists e, sign, ds. repeat split;
      [now apply letter_e_class | now apply sign_class | apply H | apply H].
  - intros [-> | (e & sign & ds & -> & He & Hsign & H)]; [now left | right].
    apply Matches_Class_Cat. exists e, (sign :: ds).
    repeat split; [now apply letter_e_class |].
    apply Matches_Class_Cat. exists sign, ds.
    repeat split; [now apply sign_class |].
    now apply Matches_Cat_Eps, Matches_digits1.
Qed.

Lemma Matches_number (s : list ascii) : Matches number_re s <-> number_text s.
Proof.
  unfold number_re, number_text. split.
  - intros H.
    apply Matches_Cat_inv in H as (sign & s1 & -> & Hsign & H).
    apply Matches_Cat_inv in H as (int & s2 & -> & Hint & H).
    apply Matches_Cat_inv in H as (frac & s3 & -> & Hfrac & H).
    apply (proj1 (Matches_Cat_Eps _ _)) in H, Hint.
    exists sign, int, frac, s3. repeat split.
    + now apply Matches_sign.
    + now apply Matches_integer.
    + now apply Matches_fraction.
    + now apply Matches_exponent.
  - intros (sign & int & frac & exp & -> & Hsign & Hint & Hfrac & Hexp).
    apply MCat; [now apply Matches_sign |].
    apply MCat; [apply Matches_Cat_Eps; now apply Matches_integer |].
    apply MCat; [now apply Matches_fraction |].
    apply Matches_Cat_Eps. now apply Matches_exponent.
Qed.

End Numbers.

(** C9. The fragment [NUMBER] matches exactly the texts made of an optional
    minus sign, an integer body ([0], or a digit other than [0] followed by
    any number of digits), an optional fraction (a point and one or more
    digits) and an optional exponent ([e] or [E], a sign that must be
    there, and one or more digits).  So [-1.5e+10] and [0.2] match, and
    [1e5], whose exponent has no sign, does not. *)
Theorem number_fragment :
  (forall text,
      Regex.fullmatch NUMBER text = Some true
      <-> NumberText.number_text (list_ascii_of_string text))
  /\ Regex.fullmatch NUMBER "-1.5e+10" = Some true
  /\ Regex.fullmatch NUMBER "0.2" = Some true
  /\ Regex.fullmatch NUMBER "1e5" = Some false.
Proof.
  split; [| repeat split; vm_compute; reflexivity].
  intros text. unfold Regex.fullmatch. rewrite compile_NUMBER.
  rewrite <- Matches_number, <- RegexFacts.matchb_spec.
  split; [now intros [= ->] | now intros ->].
Qed.

(** ** String leaves with a pattern *)

Lemma type_branch_string (recur : json -> result string) (d : list (string * json)) :
  assoc "type" d = Some (JStr "string") ->
  type_branch recur (JObj d) = string_leaf (JObj d).
Proof.
  intros Hkey. unfold type_branch. cbn [getitem bind]. rewrite Hkey. reflexivity.
Qed.

(** C10. A string leaf without [minLength] and [maxLength] whose [pattern]
    is the empty string is not translated: reading the first character of
    the pattern raises [IndexError]. *)
Theorem empty_pattern_faults (fuel : nat) (resolver : Resolver)
    (d : list (string * json)) :
  wins "type" d (JStr "string") ->
  absent d "minLength" ->
  absent d "maxLength" ->
  assoc "pattern" d = Some (JStr "") ->
  to_regex (S fuel) resolver (JObj d) = Raise IndexError.
Proof.
  intros Hwin Hmin Hmax Hpattern.
  rewrite (to_regex_type _ _ _ _ Hwin). destruct Hwin as [_ Hkey].
  rewrite (type_branch_string _ _ Hkey).
  unfold string_leaf, absent in *. cbn [contains_key getitem bind].
  rewrite Hmin, Hmax. cbn [bind]. rewrite Hpattern. reflexivity.
Qed.

Lemma empty_pattern_faults_witness :
  wins "type" [("type", JStr "string"); ("pattern", JStr "")] (JStr "string")
  /\ to_regex 1 no_refs (JObj [("type", JStr "string"); ("pattern", JStr "")])
     = Raise IndexError.
Proof.
  assert (Hwin : wins "type" [("type", JStr "string"); ("pattern", JStr "")]
                   (JStr "string")).
  { split; [repeat constructor | reflexivity]. }
  split; [exact Hwin |].
  apply (empty_pattern_faults 0 no_refs _ Hwin); reflexivity.
Defined.

(** ** How the parser reads the first characters of a text *)

(** The 256 characters, one by one. *)
Ltac ascii_cases c := destruct c as [[] [] [] [] [] [] [] []].

Section ParserSteps.
Import Regex Fragment.

Lemma parse_seq_end (m : nat) (u : list ascii) :
  ends_seq u -> parse_seq (S m) u = Some (Eps, u).
Proof. intros [-> | [u' [-> | ->]]]; reflexivity. Qed.

Lemma parse_seq_step (m : nat) (c : ascii) (x : list ascii) :
  c <> ")"%char -> c <> "|"%char ->
  parse_seq (S m) (c :: x)
  = match parse_atom m (c :: x) with
    | Some (r1, rest) =>
        match parse_repeat r1 rest with
        | Some (r1', rest') =>
            match parse_seq m rest' with
            | Some (r2, rest'') => Some (Cat r1' r2, rest'')
            | None => None
            end
        | None => None
        end
    | None => None
    end.
Proof. intros H1 H2. ascii_cases c; try reflexivity; congruence. Qed.

Lemma parse_atom_nil (m : nat) : parse_atom m [] = None.
Proof. destruct m; reflexivity. Qed.

Lemma parse_atom_refused (m : nat) (c : ascii) (x : list ascii) :
  existsb (Ascii.eqb c) (list_ascii_of_string "^$*+?{}]|)") = true ->
  parse_atom m (c :: x) = None.
Proof.
  intros H. destruct m; [reflexivity |].
  ascii_cases c; try discriminate H; reflexivity.
Qed.

Lemma parse_atom_plain (m : nat) (c : ascii) (w : list ascii) :
  plain c = true -> parse_atom (S m) (c :: w) = Some (Lit c, w).
Proof. intros H. ascii_cases c; try discriminate H; reflexivity. Qed.

Lemma parse_atom_escaped (m : nat) (c : ascii) (w : list ascii) :
  existsb (Ascii.eqb c) Re.special_chars = true ->
  parse_atom (S m) ("\"%char :: c :: w) = Some (Lit c, w).
Proof. intros H. ascii_cases c; try discriminate H; reflexivity. Qed.

Lemma parse_atom_group (m : nat) (c : ascii) (x : list ascii) :
  c <> "?"%char ->
  parse_atom (S m) ("("%char :: c :: x) = close_group (parse_alt m (c :: x)).
Proof. intros H. ascii_cases c; try reflexivity; congruence. Qed.

Lemma parse_atom_noncapturing (m : nat) (x : list ascii) :
  parse_atom (S m) ("("%char :: "?"%char :: ":"%char :: x) = close_group (parse_alt m x).
Proof. reflexivity. Qed.

Lemma parse_repeat_none (r : regex) (v : list ascii) :
  safe v -> parse_repeat r v = Some (r, v).
Proof.
  destruct v as [|c x]; [reflexivity |]. cbn [safe]. intros H.
  ascii_cases c; try discriminate H; reflexivity.
Qed.

Lemma parse_repeat_single (q : regex) (v : list ascii) :
  safe v ->
  match v with
  | c :: _ => if is_repeat_char c then None else Some (q, v)
  | [] => Some (q, v)
  end = Some (q, v).
Proof. destruct v as [|c x]; [reflexivity |]. cbn [safe]. now intros ->. Qed.

Lemma parse_repeat_star (r : regex) (v : list ascii) :
  safe v -> parse_repeat r ("*"%char :: v) = Some (Star r, v).
Proof. intros H. cbn [parse_repeat]. now apply parse_repeat_single. Qed.

Lemma parse_repeat_plus (r : regex) (v : list ascii) :
  safe v -> parse_repeat r ("+"%char :: v) = Some (Cat r (Star r), v).
Proof. intros H. cbn [parse_repeat]. now apply parse_repeat_single. Qed.

Lemma parse_repeat_opt (r : regex) (v : list ascii) :
  safe v -> parse_repeat r ("?"%char :: v) = Some (Alt Eps r, v).
Proof. intros H. cbn [parse_repeat]. now apply parse_repeat_single. Qed.

(** What the parser reads as a sequence does not start with a repetition. *)
Lemma parse_seq_safe (m : nat) (v : list ascii) (x : regex * list ascii) :
  parse_seq m v = Some x -> safe v.
Proof.
  intros H. destruct v as [|c y]; [exact I |]. cbn [safe].
  destruct (is_repeat_char c) eqn:E; [exfalso | reflexivity].
  destruct m as [|m]; [discriminate H |].
  rewrite parse_seq_step in H.
  - rewrite parse_atom_refused in H; [discriminate H |].
    ascii_cases c; try discriminate E; reflexivity.
  - intros ->. discriminate E.
  - intros ->. discriminate E.
Qed.

Lemma close_group_closed (r : regex) (w : list ascii) :
  close_group (Some (r, ")"%char :: w)) = Some (r, w).
Proof. reflexivity. Qed.

End ParserSteps.

(** ** Fragments compose *)

Section Fragments.
Import Regex RegexFacts Fragment.

Lemma Matches_Star_iff (r : regex) (s : list ascii) :
  Matches (Star r) s
  <-> exists chunks, s = List.concat chunks /\ Forall (Matches r) chunks.
Proof.
  split.
  - intros H. remember (Star r) as q eqn:Eq.
    induction H; try discriminate Eq.
    + exists []. split; [reflexivity | constructor].
    + injection Eq as ->. destruct (IHMatches2 eq_refl) as (chunks & -> & Hall).
      exists (s1 :: chunks). split; [reflexivity | now constructor].
  - intros (chunks & -> & Hall). induction Hall as [|x chunks Hx _ IH].
    + constructor.
    + cbn [List.concat]. now apply MStarApp.
Qed.

Lemma recognises_Cat (r1 r2 : regex) (L1 L2 : lang) :
  recognises r1 L1 -> recognises r2 L2 -> recognises (Cat r1 r2) (lang_cat L1 L2).
Proof.
  intros H1 H2 s. rewrite Matches_Cat_iff. unfold lang_cat.
  split; intros (s1 & s2 & E & M1 & M2); exists s1, s2;
    (split; [exact E | split; [now apply H1 | now apply H2]]).
Qed.

Lemma recognises_Alt (r1 r2 : regex) (L1 L2 : lang) :
  recognises r1 L1 -> recognises r2 L2 -> recognises (Alt r1 r2) (lang_alt L1 L2).
Proof.
  intros H1 H2 s. unfold lang_alt. rewrite <- (H1 s), <- (H2 s). split.
  - apply Matches_Alt_inv.
  - intros [H | H]; [now apply MAltL | now apply MAltR].
Qed.

Lemma recognises_Star (r : regex) (L : lang) :
  recognises r L -> recognises (Star r) (lang_star L).
Proof.
  intros H s. rewrite Matches_Star_iff. unfold lang_star.
  split; intros (chunks & E & Hall); exists chunks; (split; [exact E |]);
    revert Hall; apply Forall_impl; intros x; apply H.
Qed.

Lemma recognises_Eps : recognises Eps lang_eps.
Proof.
  intros s. split; [apply Matches_Eps_inv | intros ->; constructor].
Qed.

Lemma recognises_ext (r : regex) (L L' : lang) :
  recognises r L -> (forall s, L s <-> L' s) -> recognises r L'.
Proof. intros H E s. rewrite <- E. apply H. Qed.

Lemma stable_seq_ext (N : nat) (v : list ascii) (L L' : lang) (rest : list ascii) :
  stable_seq N v L rest -> (forall s, L s <-> L' s) -> stable_seq N v L' rest.
Proof.
  intros H E m Hm. destruct (H m Hm) as (r & P & R).
  exists r. split; [exact P | now apply recognises_ext with (L := L)].
Qed.

Lemma stable_seq_more (N N' : nat) (v : list ascii) (L : lang) (rest : list ascii) :
  stable_seq N v L rest -> (N <= N')%nat -> stable_seq N' v L rest.
Proof. intros H Hle m Hm. apply H. lia. Qed.

Lemma stable_seq_end (u : list ascii) : ends_seq u -> stable_seq 1 u lang_eps u.
Proof.
  intros Hu m Hm. destruct m as [|m]; [lia |].
  exists Eps. split; [now apply parse_seq_end | apply recognises_Eps].
Qed.

Lemma stable_seq_safe (N : nat) (v : list ascii) (L : lang) (rest : list ascii) :
  stable_seq N v L rest -> safe v.
Proof.
  intros H. destruct (H N (Nat.le_refl N)) as (r & P & _).
  now apply parse_seq_safe in P.
Qed.

Lemma lang_cat_eps_l (L : lang) (s : list ascii) : lang_cat lang_eps L s <-> L s.
Proof.
  unfold lang_cat, lang_eps. split.
  - intros (s1 & s2 & -> & -> & H). exact H.
  - intros H. exists [], s. auto.
Qed.

Lemma lang_cat_eps_r (L : lang) (s : list ascii) : lang_cat L lang_eps s <-> L s.
Proof.
  unfold lang_cat, lang_eps. split.
  - intros (s1 & s2 & -> & H & ->). now rewrite app_nil_r.
  - intros H. exists s, []. now rewrite app_nil_r.
Qed.

Lemma lang_cat_assoc (L1 L2 L3 : lang) (s : list ascii) :
  lang_cat L1 (lang_cat L2 L3) s <-> lang_cat (lang_cat L1 L2) L3 s.
Proof.
  unfold lang_cat. split.
  - intros (s1 & s23 & -> & H1 & s2 & s3 & -> & H2 & H3).
    exists (s1 ++ s2)%list, s3. rewrite app_assoc. repeat split; eauto.
  - intros (s12 & s3 & -> & (s1 & s2 & -> & H1 & H2) & H3).
    exists s1, (s2 ++ s3)%list. rewrite app_assoc. repeat split; eauto.
Qed.

Lemma lang_cat_ext (L1 L1' L2 L2' : lang) :
  (forall s, L1 s <-> L1' s) -> (forall s, L2 s <-> L2' s) ->
  forall s, lang_cat L1 L2 s <-> lang_cat L1' L2' s.
Proof.
  intros E1 E2 s. unfold lang_cat.
  split; intros (s1 & s2 & E & H1 & H2); exists s1, s2;
    (split; [exact E | split; [now apply E1 | now apply E2]]).
Qed.

(** *** Sequences *)

Lemma seq_frag_ext (a : list ascii) (L L' : lang) :
  seq_frag a L -> (forall s, L s <-> L' s) -> seq_frag a L'.
Proof.
  intros H E N v Lv rest Hv. apply stable_seq_ext with (L := lang_cat L Lv).
  - now apply H.
  - apply lang_cat_ext; [exact E | reflexivity].
Qed.

Lemma seq_frag_nil : seq_frag [] lang_eps.
Proof.
  intros N v Lv rest Hv. cbn [app List.length].
  apply stable_seq_more with (N := N); [| lia].
  apply stable_seq_ext with (L := Lv); [exact Hv |].
  intros s. symmetry. apply lang_cat_eps_l.
Qed.

Lemma seq_frag_app (a b : list ascii) (La Lb : lang) :
  seq_frag a La -> seq_frag b Lb -> seq_frag (a ++ b) (lang_cat La Lb).
Proof.
  intros Ha Hb N v Lv rest Hv.
  rewrite <- app_assoc.
  apply stable_seq_more with (N := (N + 3 * List.length b + 3 * List.length a)%nat);
    [| rewrite length_app; lia].
  apply stable_seq_ext with (L := lang_cat La (lang_cat Lb Lv)).
  - apply Ha. apply Hb. exact Hv.
  - apply lang_cat_assoc.
Qed.

(** *** Atoms and their repetitions *)

Lemma atom_frag_start (a : list ascii) (L : lang) :
  atom_frag a L ->
  exists c a', a = c :: a' /\ c <> ")"%char /\ c <> "|"%char.
Proof.
  intros H. destruct (H (3 * List.length a)%nat [] ltac:(lia)) as (r & P & _).
  rewrite app_nil_r in P. destruct a as [|c a'].
  - now rewrite parse_atom_nil in P.
  - exists c, a'. split; [reflexivity |].
    split; intros ->; now rewrite parse_atom_refused in P.
Qed.

Lemma seq_frag_repeat (a suffix : list ascii) (L Lf : lang) (f : regex -> regex) :
  atom_frag a L ->
  (forall r v, safe v -> parse_repeat r (suffix ++ v)%list = Some (f r, v)) ->
  (forall r, recognises r L -> recognises (f r) Lf) ->
  seq_frag (a ++ suffix) Lf.
Proof.
  intros Ha Hrep Hf N v Lv rest Hv m Hm.
  destruct (atom_frag_start a L Ha) as (c & a' & -> & Hc1 & Hc2).
  rewrite length_app in Hm. cbn [List.length] in Hm.
  destruct m as [|m]; [lia |].
  destruct (Ha m (suffix ++ v)%list) as (ra & Pa & Ra); [cbn [List.length]; lia |].
  destruct (Hv m) as (rv & Pv & Rv); [lia |].
  exists (Cat (f ra) rv). split.
  - rewrite <- app_assoc. cbn [app]. rewrite parse_seq_step by assumption.
    cbn [app] in Pa. rewrite Pa, Hrep, Pv; [reflexivity |].
    now apply stable_seq_safe in Hv.
  - apply recognises_Cat; [now apply Hf | exact Rv].
Qed.

Lemma seq_frag_atom (a : list ascii) (L : lang) : atom_frag a L -> seq_frag a L.
Proof.
  intros Ha. rewrite <- (app_nil_r a).
  apply seq_frag_repeat with (L := L) (f := fun r => r); [exact Ha | | auto].
  intros r v Hv. now apply parse_repeat_none.
Qed.

Lemma seq_frag_star (a : list ascii) (L : lang) :
  atom_frag a L -> seq_frag (a ++ ["*"%char]) (lang_star L).
Proof.
  intros Ha. apply seq_frag_repeat with (L := L) (f := Star); [exact Ha | |].
  - intros r v Hv. now apply parse_repeat_star.
  - intros r. apply recognises_Star.
Qed.

Lemma seq_frag_opt (a : list ascii) (L : lang) :
  atom_frag a L -> seq_frag (a ++ ["?"%char]) (lang_opt L).
Proof.
  intros Ha. apply seq_frag_repeat with (L := L) (f := Alt Eps); [exact Ha | |].
  - intros r v Hv. now apply parse_repeat_opt.
  - intros r Hr s. unfold lang_opt. rewrite Matches_optional. now rewrite (Hr s).
Qed.

Lemma seq_frag_plus (a : list ascii) (L : lang) :
  atom_frag a L -> seq_frag (a ++ ["+"%char]) (lang_cat L (lang_star L)).
Proof.
  intros Ha.
  apply seq_frag_repeat with (L := L) (f := fun r => Cat r (Star r)); [exact Ha | |].
  - intros r v Hv. now apply parse_repeat_plus.
  - intros r Hr. apply recognises_Cat; [exact Hr | now apply recognises_Star].
Qed.

(** *** Alternations and groups *)

Lemma alt_frag_seq (a : list ascii) (L : lang) : seq_frag a L -> alt_frag a L.
Proof.
  intros Ha m w Hm Hw. destruct m as [|m]; [lia |].
  assert (Hend : ends_seq w).
  { destruct Hw as [-> | [w' ->]]; [now left | right; eauto]. }
  destruct (Ha 1%nat w lang_eps w (stable_seq_end w Hend) m) as (r & P & R); [lia |].
  exists r. split.
  - cbn [parse_alt]. rewrite P. destruct Hw as [-> | [w' ->]]; reflexivity.
  - apply recognises_ext with (L := lang_cat L lang_eps); [exact R |].
    apply lang_cat_eps_r.
Qed.

Lemma alt_frag_bar (a b : list ascii) (La Lb : lang) :
  seq_frag a La -> alt_frag b Lb ->
  alt_frag (a ++ "|"%char :: b) (lang_alt La Lb).
Proof.
  intros Ha Hb m w Hm Hw. rewrite length_app in Hm. cbn [List.length] in Hm.
  destruct m as [|m]; [lia |].
  assert (Hend : ends_seq ("|"%char :: b ++ w)) by (right; eauto).
  destruct (Ha 1%nat _ lang_eps _ (stable_seq_end _ Hend) m) as (ra & Pa & Ra); [lia |].
  destruct (Hb m w) as (rb & Pb & Rb); [lia | exact Hw |].
  exists (Alt ra rb). split.
  - rewrite <- app_assoc. cbn [app parse_alt]. rewrite Pa, Pb. reflexivity.
  - apply recognises_Alt; [| exact Rb].
    apply recognises_ext with (L := lang_cat La lang_eps); [exact Ra |].
    apply lang_cat_eps_r.
Qed.

Lemma alt_frag_start (a : list ascii) (L : lang) :
  alt_frag a L -> forall x, a <> "?"%char :: x.
Proof.
  intros H x ->.
  destruct (H (S (S (3 * List.length ("?"%char :: x) + 3))) [] ltac:(lia) ltac:(now left))
    as (r & P & _).
  rewrite app_nil_r in P. cbn [parse_alt] in P.
  rewrite parse_seq_step in P by discriminate.
  now rewrite parse_atom_refused in P.
Qed.

Lemma atom_frag_group (a : list ascii) (L : lang) :
  alt_frag a L -> atom_frag ("("%char :: a ++ [")"%char]) L.
Proof.
  intros Ha m w Hm. cbn [List.length] in Hm. rewrite length_app in Hm.
  cbn [List.length] in Hm. destruct m as [|m]; [lia |].
  destruct (Ha m (")"%char :: w)) as (r & P & R); [lia | right; eauto |].
  exists r. split; [| exact R].
  cbn [app]. rewrite <- app_assoc. cbn [app].
  destruct a as [|c x].
  - cbn [app] in *. rewrite parse_atom_group by discriminate.
    rewrite P. reflexivity.
  - cbn [app] in *. rewrite parse_atom_group.
    + rewrite P. reflexivity.
    + intros ->. now apply (alt_frag_start _ _ Ha x).
Qed.

Lemma atom_frag_noncapturing (a : list ascii) (L : lang) :
  alt_frag a L ->
  atom_frag ("("%char :: "?"%char :: ":"%char :: a ++ [")"%char]) L.
Proof.
  intros Ha m w Hm. cbn [List.length] in Hm. rewrite length_app in Hm.
  cbn [List.length] in Hm. destruct m as [|m]; [lia |].
  destruct (Ha m (")"%char :: w)) as (r & P & R); [lia | right; eauto |].
  exists r. split; [| exact R].
  cbn [app]. rewrite <- app_assoc. cbn [app].
  rewrite parse_atom_noncapturing, P. reflexivity.
Qed.

(** *** Characters *)

Lemma recognises_Lit (c : ascii) : recognises (Lit c) (fun s => s = [c]).
Proof. intros s. apply Matches_Lit. Qed.

Lemma atom_frag_plain (c : ascii) :
  plain c = true -> atom_frag [c] (fun s => s = [c]).
Proof.
  intros Hc m w Hm. destruct m as [|m]; [cbn [List.length] in Hm; lia |].
  exists (Lit c). split; [now apply parse_atom_plain | apply recognises_Lit].
Qed.

Lemma atom_frag_escaped (c : ascii) :
  existsb (Ascii.eqb c) Re.special_chars = true ->
  atom_frag ["\"%char; c] (fun s => s = [c]).
Proof.
  intros Hc m w Hm. destruct m as [|m]; [cbn [List.length] in Hm; lia |].
  exists (Lit c). split; [now apply parse_atom_escaped | apply recognises_Lit].
Qed.

End Fragments.

(** ** Fragments and [re.fullmatch] *)

Section FragmentTexts.
Import Regex RegexFacts Fragment.

Lemma alt_frag_ext (a : list ascii) (L L' : lang) :
  alt_frag a L -> (forall s, L s <-> L' s) -> alt_frag a L'.
Proof.
  intros H E m w Hm Hw. destruct (H m w Hm Hw) as (r & P & R).
  exists r. split; [exact P | now apply recognises_ext with (L := L)].
Qed.


(** A fragment compiles, to a pattern for its texts. *)
Lemma denotes_compile (pattern : string) (L : lang) :
  denotes pattern L ->
  exists r, compile pattern = Some r /\ recognises r L.
Proof.
  intros H. apply alt_frag_seq in H.
  destruct (H (4 * List.length (list_ascii_of_string pattern) + 4)%nat [])
    as (r & P & R); [lia | now left |].
  rewrite app_nil_r in P. exists r. split; [| exact R].
  unfold compile. now rewrite P.
Qed.

Lemma denotes_fullmatch (pattern : string) (L : lang) :
  denotes pattern L ->
  forall text, fullmatch pattern text = Some true <-> L (list_ascii_of_string text).
Proof.
  intros H text. destruct (denotes_compile pattern L H) as (r & C & R).
  unfold fullmatch. rewrite C, <- (R _), <- matchb_spec.
  split; [now intros [= ->] | now intros ->].
Qed.

Lemma denotes_ext (pattern : string) (L L' : lang) :
  denotes pattern L -> (forall s, L s <-> L' s) -> denotes pattern L'.
Proof. apply seq_frag_ext. Qed.

(** The texts of a fragment are those of the pattern it compiles to. *)
Lemma denotes_compiled (pattern : string) (L L' : lang) (r : regex) :
  denotes pattern L -> compile pattern = Some r -> recognises r L' -> denotes pattern L'.
Proof.
  intros H C R'. destruct (denotes_compile pattern L H) as (r0 & C0 & R0).
  assert (r0 = r) as -> by congruence.
  apply denotes_ext with (L := L); [exact H |].
  intros s. now rewrite <- (R0 s), (R' s).
Qed.

(** *** Fixed texts *)

Lemma seq_frag_cons (c : ascii) (a w : list ascii) :
  atom_frag [c] (fun s => s = [c]) ->
  seq_frag a (fun s => s = w) ->
  seq_frag (c :: a) (fun s => s = c :: w).
Proof.
  intros Hc Hw. change (c :: a) with ([c] ++ a)%list.
  apply seq_frag_ext with (L := lang_cat (fun s => s = [c]) (fun s => s = w)).
  - apply seq_frag_app; [now apply seq_frag_atom | exact Hw].
  - intros s. unfold lang_cat. split.
    + intros (s1 & s2 & -> & -> & ->). reflexivity.
    + intros ->. exists [c], w. auto.
Qed.

Lemma seq_frag_nil_text : seq_frag [] (fun s => s = []).
Proof. exact seq_frag_nil. Qed.

Lemma seq_frag_plain_text (w : list ascii) :
  forallb plain w = true -> seq_frag w (fun s => s = w).
Proof.
  induction w as [|c w IH]; intros H; [exact seq_frag_nil_text |].
  cbn [forallb] in H. apply andb_true_iff in H as [Hc Hw].
  apply seq_frag_cons; [now apply atom_frag_plain | now apply IH].
Qed.

Lemma denotes_plain_text (w : string) :
  forallb plain (list_ascii_of_string w) = true -> denotes w (lang_text w).
Proof. apply seq_frag_plain_text. Qed.

Lemma not_special_plain (c : ascii) :
  existsb (Ascii.eqb c) Re.special_chars = false -> plain c = true.
Proof. intros H. ascii_cases c; try discriminate H; reflexivity. Qed.

(** What [re.escape] returns is a fragment for the one text it was given. *)
Lemma denotes_escape (w : string) : denotes (Re.escape w) (lang_text w).
Proof.
  unfold denotes, lang_text. induction w as [|c w IH]; [exact seq_frag_nil_text |].
  cbn [Re.escape list_ascii_of_string].
  destruct (existsb (Ascii.eqb c) Re.special_chars) eqn:E; cbn [list_ascii_of_string].
  - change ("\"%char :: c :: list_ascii_of_string (Re.escape w))
      with (["\"%char; c] ++ list_ascii_of_string (Re.escape w))%list.
    apply seq_frag_ext
      with (L := lang_cat (fun s => s = [c]) (fun s => s = list_ascii_of_string w)).
    + apply seq_frag_app; [| exact IH].
      apply seq_frag_atom. now apply atom_frag_escaped.
    + intros s. unfold lang_cat. split.
      * intros (s1 & s2 & -> & -> & ->). reflexivity.
      * intros ->. exists [c], (list_ascii_of_string w). auto.
  - apply seq_frag_cons; [| exact IH].
    apply atom_frag_plain. now apply not_special_plain.
Qed.

(** *** Side by side, around bars, between parentheses *)

Lemma denotes_app (p q : string) (Lp Lq : lang) :
  denotes p Lp -> denotes q Lq -> denotes (p ++ q) (lang_cat Lp Lq).
Proof.
  intros Hp Hq. unfold denotes. rewrite list_ascii_of_string_app.
  now apply seq_frag_app.
Qed.

Lemma alt_frag_join (fs : list string) (Ls : list lang) :
  Forall2 denotes fs Ls ->
  fs <> [] ->
  alt_frag (list_ascii_of_string (join "|" fs)) (lang_union Ls).
Proof.
  induction 1 as [|f L fs Ls Hf Hall IH]; intros Hne; [contradiction |].
  destruct Hall as [|f2 L2 fs Ls Hf2 Hall].
  - cbn [join String.concat]. apply alt_frag_ext with (L := L).
    + now apply alt_frag_seq.
    + intros s. unfold lang_union. split.
      * intros H. now constructor.
      * intros H. inversion H as [? ? H0 | ? ? H0]; subst; [exact H0 | inversion H0].
  - unfold join in *. cbn [String.concat].
    rewrite list_ascii_of_string_app. cbn [append list_ascii_of_string].
    apply alt_frag_ext with (L := lang_alt L (lang_union (L2 :: Ls))).
    + apply alt_frag_bar; [exact Hf |]. apply IH. discriminate.
    + intros s. unfold lang_alt, lang_union. split.
      * intros [H | H]; [now constructor | now apply Exists_cons_tl].
      * intros H. inversion H; subst; auto.
Qed.

Lemma seq_frag_concat (fs : list string) (Ls : list lang) :
  Forall2 denotes fs Ls ->
  seq_frag (list_ascii_of_string (join "" fs)) (lang_concat Ls).
Proof.
  induction 1 as [|f L fs Ls Hf Hall IH]; [exact seq_frag_nil |].
  destruct Hall as [|f2 L2 fs Ls Hf2 Hall].
  - cbn [join String.concat lang_concat fold_right].
    apply seq_frag_ext with (L := L); [exact Hf |].
    intros s. symmetry. apply lang_cat_eps_r.
  - unfold join in *. cbn [String.concat].
    rewrite list_ascii_of_string_app. cbn [append].
    cbn [lang_concat fold_right]. now apply seq_frag_app.
Qed.

Lemma denotes_group (p : string) (L : lang) :
  alt_frag (list_ascii_of_string p) L -> denotes ("(" ++ p ++ ")") L.
Proof.
  intros H. unfold denotes. cbn [append list_ascii_of_string].
  rewrite list_ascii_of_string_app. cbn [list_ascii_of_string].
  apply seq_frag_atom. now apply atom_frag_group.
Qed.

Lemma alt_frag_nil : alt_frag [] lang_eps.
Proof. apply alt_frag_seq. exact seq_frag_nil. Qed.

End FragmentTexts.

(** ** The fragments of the primitive types *)

Section Leaves.
Import Regex RegexFacts Fragment NumberText StringText.

Lemma recognises_Class (negated : bool) (ranges : list (ascii * ascii)) :
  recognises (Class negated ranges) (class_lang negated ranges).
Proof.
  intros s. split; [apply Matches_Class_inv |].
  intros (c & -> & H). now constructor.
Qed.

(** A set that the parser reads within [k] levels is an atom. *)
Lemma atom_frag_class (a : list ascii) (negated : bool) (ranges : list (ascii * ascii))
    (k : nat) :
  (forall m w, parse_atom (k + m) (a ++ w)%list = Some (Class negated ranges, w)) ->
  (k < 3 * List.length a)%nat ->
  atom_frag a (class_lang negated ranges).
Proof.
  intros H Hk m w Hm. exists (Class negated ranges). split; [| apply recognises_Class].
  replace m with (k + (m - k))%nat by lia. apply H.
Qed.

Lemma atom_frag_dot : atom_frag ["."%char] (class_lang true [("010"%char, "010"%char)]).
Proof. apply atom_frag_class with (k := 1%nat); [reflexivity | cbn; lia]. Qed.

Lemma atom_frag_digit : atom_frag (list_ascii_of_string "[0-9]") (class_lang false [("0"%char, "9"%char)]).
Proof. apply atom_frag_class with (k := 3%nat); [reflexivity | cbn; lia]. Qed.

Lemma atom_frag_nonzero :
  atom_frag (list_ascii_of_string "[1-9]") (class_lang false [("1"%char, "9"%char)]).
Proof. apply atom_frag_class with (k := 3%nat); [reflexivity | cbn; lia]. Qed.

Lemma atom_frag_letter_e :
  atom_frag (list_ascii_of_string "[eE]")
            (class_lang false [("e"%char, "e"%char); ("E"%char, "E"%char)]).
Proof. apply atom_frag_class with (k := 4%nat); [reflexivity | cbn; lia]. Qed.

Lemma atom_frag_sign :
  atom_frag (list_ascii_of_string "[+-]")
            (class_lang false [("+"%char, "+"%char); ("-"%char, "-"%char)]).
Proof. apply atom_frag_class with (k := 3%nat); [reflexivity | cbn; lia]. Qed.

Lemma atom_frag_blank :
  atom_frag (list_ascii_of_string "[\n ]")
            (class_lang false [("010"%char, "010"%char); (" "%char, " "%char)]).
Proof. apply atom_frag_class with (k := 4%nat); [reflexivity | cbn; lia]. Qed.

Lemma atom_frag_inner :
  atom_frag ("["%char :: "^"%char :: "034"%char
             :: list_ascii_of_string "\\\x00-\x1f\x7f-\x9f]")
            (class_lang true [("034"%char, "034"%char); ("\"%char, "\"%char);
                              ("000"%char, "031"%char); ("127"%char, "159"%char)]).
Proof. apply atom_frag_class with (k := 6%nat); [reflexivity | cbn; lia]. Qed.

Lemma denotes_NULL : denotes NULL (lang_text "null").
Proof. now apply denotes_plain_text. Qed.

Lemma denotes_BOOLEAN :
  denotes BOOLEAN (lang_alt (lang_text "true") (lang_text "false")).
Proof.
  change BOOLEAN with ("(" ++ "true|false" ++ ")").
  apply denotes_group.
  change (list_ascii_of_string "true|false")
    with (list_ascii_of_string "true" ++ "|"%char :: list_ascii_of_string "false")%list.
  apply alt_frag_bar; [| apply alt_frag_seq]; now apply seq_frag_plain_text.
Qed.

Lemma seq_frag_integer_body :
  seq_frag (list_ascii_of_string "[1-9][0-9]*")
           (lang_cat (class_lang false [("1"%char, "9"%char)])
                     (lang_star (class_lang false [("0"%char, "9"%char)]))).
Proof.
  change (list_ascii_of_string "[1-9][0-9]*")
    with (list_ascii_of_string "[1-9]" ++ (list_ascii_of_string "[0-9]" ++ ["*"%char]))%list.
  apply seq_frag_app.
  - apply seq_frag_atom, atom_frag_nonzero.
  - apply seq_frag_star, atom_frag_digit.
Qed.

Lemma compile_INTEGER : compile INTEGER = Some (Cat integer_re Eps).
Proof. vm_compute. reflexivity. Qed.

Lemma denotes_INTEGER : denotes INTEGER integer_text.
Proof.
  apply denotes_compiled
    with (L := lang_alt (lang_text "0")
                 (lang_cat (class_lang false [("1"%char, "9"%char)])
                           (lang_star (class_lang false [("0"%char, "9"%char)]))))
         (r := Cat integer_re Eps).
  - change INTEGER with ("(" ++ "0|[1-9][0-9]*" ++ ")").
    apply denotes_group.
    change (list_ascii_of_string "0|[1-9][0-9]*")
      with (list_ascii_of_string "0" ++ "|"%char :: list_ascii_of_string "[1-9][0-9]*")%list.
    apply alt_frag_bar; [now apply seq_frag_plain_text |].
    apply alt_frag_seq, seq_frag_integer_body.
  - exact compile_INTEGER.
  - intros s. rewrite Matches_Cat_Eps. apply Matches_integer.
Qed.

Lemma seq_frag_digits1 :
  seq_frag (list_ascii_of_string "[0-9]+")
           (lang_cat (class_lang false [("0"%char, "9"%char)])
                     (lang_star (class_lang false [("0"%char, "9"%char)]))).
Proof.
  change (list_ascii_of_string "[0-9]+")
    with (list_ascii_of_string "[0-9]" ++ ["+"%char])%list.
  apply seq_frag_plus, atom_frag_digit.
Qed.

Lemma seq_frag_optional_group (a : list ascii) (L : lang) :
  seq_frag a L -> seq_frag (("("%char :: a ++ [")"%char]) ++ ["?"%char]) (lang_opt L).
Proof. intros H. apply seq_frag_opt, atom_frag_group, alt_frag_seq, H. Qed.

Lemma denotes_NUMBER : denotes NUMBER number_text.
Proof.
  apply denotes_compiled
    with (L := lang_cat (lang_opt (lang_text "-"))
                 (lang_cat (lang_alt (lang_text "0")
                              (lang_cat (class_lang false [("1"%char, "9"%char)])
                                 (lang_star (class_lang false [("0"%char, "9"%char)]))))
                    (lang_cat
                       (lang_opt
                          (lang_cat (fun s => s = ["."%char])
                             (lang_cat (class_lang false [("0"%char, "9"%char)])
                                (lang_star (class_lang false [("0"%char, "9"%char)])))))
                       (lang_opt
                          (lang_cat
                             (class_lang false [("e"%char, "e"%char); ("E"%char, "E"%char)])
                             (lang_cat
                                (class_lang false
                                   [("+"%char, "+"%char); ("-"%char, "-"%char)])
                                (lang_cat (class_lang false [("0"%char, "9"%char)])
                                   (lang_star
                                      (class_lang false [("0"%char, "9"%char)])))))))))
         (r := number_re).
  - unfold denotes.
    change (list_ascii_of_string NUMBER)
      with ((("("%char :: list_ascii_of_string "-" ++ [")"%char]) ++ ["?"%char])
            ++ ("("%char :: list_ascii_of_string "(0|[1-9][0-9]*)" ++ [")"%char])
            ++ (("("%char
                 :: (["\"%char; "."%char] ++ list_ascii_of_string "[0-9]+")
                 ++ [")"%char]) ++ ["?"%char])
            ++ (("("%char
                 :: (list_ascii_of_string "[eE]"
                     ++ list_ascii_of_string "[+-]" ++ list_ascii_of_string "[0-9]+")
                 ++ [")"%char]) ++ ["?"%char]))%list.
    apply seq_frag_app; [| apply seq_frag_app; [| apply seq_frag_app]].
    + apply seq_frag_optional_group. now apply seq_frag_plain_text.
    + apply seq_frag_atom, atom_frag_group, alt_frag_seq.
      change (list_ascii_of_string "(0|[1-9][0-9]*)")
        with ("("%char :: list_ascii_of_string "0|[1-9][0-9]*" ++ [")"%char])%list.
      apply seq_frag_atom, atom_frag_group.
      change (list_ascii_of_string "0|[1-9][0-9]*")
        with (list_ascii_of_string "0" ++ "|"%char
              :: list_ascii_of_string "[1-9][0-9]*")%list.
      apply alt_frag_bar; [now apply seq_frag_plain_text |].
      apply alt_frag_seq, seq_frag_integer_body.
    + apply seq_frag_optional_group. apply seq_frag_app; [| exact seq_frag_digits1].
      apply seq_frag_atom. now apply atom_frag_escaped.
    + apply seq_frag_optional_group.
      apply seq_frag_app; [apply seq_frag_atom, atom_frag_letter_e |].
      apply seq_frag_app; [apply seq_frag_atom, atom_frag_sign |].
      exact seq_frag_digits1.
  - exact compile_NUMBER.
  - intros s. apply Matches_number.
Qed.

Lemma inner_char_class (c : ascii) :
  class_mem true [("034"%char, "034"%char); ("\"%char, "\"%char);
                  ("000"%char, "031"%char); ("127"%char, "159"%char)] c
  = inner_char c.
Proof. ascii_cases c; reflexivity. Qed.

Lemma newline_class (c : ascii) :
  class_mem true [("010"%char, "010"%char)] c = true <-> c <> "010"%char.
Proof.
  unfold class_mem. cbn [existsb xorb]. rewrite orb_false_r.
  destruct (in_range c ("010"%char, "010"%char)) eqn:E; cbn [negb].
  - split; [discriminate |]. intros H. exfalso. apply H.
    apply class_mem_single. unfold class_mem. cbn [existsb xorb].
    now rewrite orb_false_r.
  - split; [| reflexivity]. intros _ ->. discriminate E.
Qed.

Lemma denotes_STRING : denotes STRING string_text.
Proof.
  apply denotes_ext
    with (L := lang_cat (fun s => s = ["034"%char])
                 (lang_cat
                    (lang_star
                       (lang_alt
                          (class_lang true
                             [("034"%char, "034"%char); ("\"%char, "\"%char);
                              ("000"%char, "031"%char); ("127"%char, "159"%char)])
                          (lang_cat (fun s => s = ["\"%char])
                                    (class_lang true [("010"%char, "010"%char)]))))
                    (fun s => s = ["034"%char]))).
  - unfold denotes.
    change (list_ascii_of_string STRING)
      with (["034"%char]
            ++ (("("%char :: "?"%char :: ":"%char
                 :: (("["%char :: "^"%char :: "034"%char
                      :: list_ascii_of_string "\\\x00-\x1f\x7f-\x9f]")
                     ++ "|"%char :: (["\"%char; "\"%char] ++ ["."%char]))
                 ++ [")"%char]) ++ ["*"%char])
            ++ ["034"%char])%list.
    apply seq_frag_app; [apply seq_frag_atom; now apply atom_frag_plain |].
    apply seq_frag_app; [| apply seq_frag_atom; now apply atom_frag_plain].
    apply seq_frag_star, atom_frag_noncapturing, alt_frag_bar.
    + apply seq_frag_atom, atom_frag_inner.
    + apply alt_frag_seq, seq_frag_app.
      * apply seq_frag_atom. now apply atom_frag_escaped.
      * apply seq_frag_atom, atom_frag_dot.
  - intros s. unfold string_text, lang_cat, lang_star. split.
    + intros (s1 & s2 & -> & -> & body & s3 & -> & (chunks & -> & Hall) & ->).
      exists chunks. split; [reflexivity |].
      revert Hall. apply Forall_impl. intros u [(c & -> & Hc) | Hu].
      * left. exists c. split; [reflexivity |]. now rewrite <- inner_char_class.
      * right. destruct Hu as (u1 & u2 & -> & -> & c & -> & Hc).
        exists c. split; [reflexivity | now apply newline_class].
    + intros (units & -> & Hall).
      exists ["034"%char], (List.concat units ++ ["034"%char])%list.
      split; [reflexivity |]. split; [reflexivity |].
      exists (List.concat units), ["034"%char].
      split; [reflexivity |]. split; [| reflexivity].
      exists units. split; [reflexivity |].
      revert Hall. apply Forall_impl. intros u [(c & -> & Hc) | (c & -> & Hc)].
      * left. exists c. split; [reflexivity |]. now rewrite inner_char_class.
      * right. exists ["\"%char], [c]. split; [reflexivity |]. split; [reflexivity |].
        exists c. split; [reflexivity | now apply newline_class].
Qed.

End Leaves.

(** ** The branches put fragments together *)

Section BranchFragments.
Import Regex RegexFacts Fragment.

Lemma alt_frag_choice (fs : list string) (Ls : list lang) :
  Forall2 denotes fs Ls ->
  alt_frag (list_ascii_of_string (join "|" fs)) (lang_choice Ls).
Proof.
  intros H. destruct H as [|f L fs Ls Hf Hall].
  - exact alt_frag_nil.
  - apply alt_frag_join; [now constructor | discriminate].
Qed.

Lemma denotes_choice_group (fs : list string) (Ls : list lang) :
  Forall2 denotes fs Ls -> denotes ("(" ++ join "|" fs ++ ")") (lang_choice Ls).
Proof. intros H. now apply denotes_group, alt_frag_choice. Qed.

Lemma denotes_concat_group (fs : list string) (Ls : list lang) :
  Forall2 denotes fs Ls -> denotes ("(" ++ join "" fs ++ ")") (lang_concat Ls).
Proof. intros H. now apply denotes_group, alt_frag_seq, seq_frag_concat. Qed.

Lemma Forall2_map2 {A B C D : Type} (P : A -> B -> Prop) (Q : C -> D -> Prop)
    (f : A -> C) (g : B -> D) (l1 : list A) (l2 : list B) :
  (forall a b, P a b -> Q (f a) (g b)) ->
  Forall2 P l1 l2 -> Forall2 Q (map f l1) (map g l2).
Proof. intros H. induction 1; cbn [map]; constructor; auto. Qed.

Lemma Forall2_flat_map {A B C D : Type} (P : A -> B -> Prop) (Q : C -> D -> Prop)
    (f : A -> list C) (g : B -> list D) (l1 : list A) (l2 : list B) :
  (forall a b, P a b -> Forall2 Q (f a) (g b)) ->
  Forall2 P l1 l2 -> Forall2 Q (flat_map f l1) (flat_map g l2).
Proof.
  intros H. induction 1; cbn [flat_map]; [constructor |].
  apply Forall2_app; auto.
Qed.

Lemma picks_Forall2 {A B : Type} (P : A -> B -> Prop) (l1 : list A) (l2 : list B) :
  Forall2 P l1 l2 ->
  Forall2 (fun p q => P (fst p) (fst q) /\ Forall2 P (snd p) (snd q))
          (picks l1) (picks l2).
Proof.
  induction 1 as [|x y l1 l2 Hxy Hl IH]; cbn [picks]; constructor.
  - now split.
  - revert IH. apply Forall2_map2. intros p q [H1 H2]. cbn [fst snd].
    split; [exact H1 | now constructor].
Qed.

Lemma permutations_Forall2 {A B : Type} (P : A -> B -> Prop) (r : nat) :
  forall (l1 : list A) (l2 : list B),
    Forall2 P l1 l2 ->
    Forall2 (Forall2 P) (permutations r l1) (permutations r l2).
Proof.
  induction r as [|r IH]; intros l1 l2 H; cbn [permutations].
  - repeat constructor.
  - apply Forall2_flat_map
      with (P := fun p q => P (fst p) (fst q) /\ Forall2 P (snd p) (snd q));
      [| now apply picks_Forall2].
    intros p q [H1 H2].
    apply Forall2_map2 with (P := Forall2 P); [| now apply IH].
    intros c1 c2 Hc. now constructor.
Qed.

Lemma arrangements_Forall2 {A B : Type} (P : A -> B -> Prop)
    (l1 : list A) (l2 : list B) :
  Forall2 P l1 l2 -> Forall2 (Forall2 P) (arrangements l1) (arrangements l2).
Proof.
  intros H. unfold arrangements. rewrite <- (Forall2_length H).
  induction (seq 1 (List.length l1)) as [|r rs IH]; cbn [flat_map]; [constructor |].
  apply Forall2_app; [now apply permutations_Forall2 | exact IH].
Qed.

Lemma lang_blank_star (s : list ascii) :
  lang_star (class_lang false [("010"%char, "010"%char); (" "%char, " "%char)]) s
  <-> lang_blank s.
Proof.
  unfold lang_star, lang_blank, class_lang. split.
  - intros (chunks & -> & Hall). induction Hall as [|u chunks Hu _ IH]; [constructor |].
    destruct Hu as (c & -> & Hc). cbn [List.concat app]. constructor; [| exact IH].
    unfold class_mem in Hc. cbn [existsb xorb] in Hc.
    rewrite orb_false_r in Hc. apply orb_true_iff in Hc as [Hc | Hc].
    + left. apply class_mem_single. unfold class_mem. cbn [existsb xorb].
      now rewrite orb_false_r.
    + right. apply class_mem_single. unfold class_mem. cbn [existsb xorb].
      now rewrite orb_false_r.
  - intros H. induction H as [|c s Hc _ (chunks & -> & Hall)].
    + exists []. split; [reflexivity | constructor].
    + exists ([c] :: chunks). split; [reflexivity |]. constructor; [| exact Hall].
      exists c. split; [reflexivity |]. destruct Hc as [-> | ->]; reflexivity.
Qed.

Lemma denotes_whitespace : denotes whitespace lang_blank.
Proof.
  apply denotes_ext
    with (L := lang_star
                 (class_lang false [("010"%char, "010"%char); (" "%char, " "%char)])).
  - unfold denotes.
    change (list_ascii_of_string whitespace)
      with (list_ascii_of_string "[\n ]" ++ ["*"%char])%list.
    apply seq_frag_star, atom_frag_blank.
  - apply lang_blank_star.
Qed.

Lemma seq_frag_join (sep : string) (Lsep : lang) (fs : list string) (Ls : list lang) :
  denotes sep Lsep ->
  Forall2 denotes fs Ls ->
  seq_frag (list_ascii_of_string (join sep fs)) (lang_join Lsep Ls).
Proof.
  intros Hsep. induction 1 as [|f L fs Ls Hf Hall IH]; [exact seq_frag_nil |].
  destruct Hall as [|f2 L2 fs Ls Hf2 Hall].
  - exact Hf.
  - unfold join in *. cbn [String.concat lang_join].
    rewrite !list_ascii_of_string_app.
    apply seq_frag_app; [exact Hf |]. now apply seq_frag_app.
Qed.

End BranchFragments.

(** ** What the patterns of the branches match *)

Section BranchSemantics.
Import Regex RegexFacts Fragment.

Lemma translated_intro (outcome : result string) (pattern : string) (L : lang) :
  outcome = Ok pattern -> denotes pattern L -> translated outcome L.
Proof.
  intros E H. exists pattern. split; [exact E |]. split; [exact H |].
  now apply denotes_fullmatch.
Qed.

Lemma translated_children {A : Type} (f : A -> result string) (children : list A)
    (Ls : list lang) :
  Forall2 (fun c L => translated (f c) L) children Ls ->
  exists fragments, mapM f children = Ok fragments /\ Forall2 denotes fragments Ls.
Proof.
  induction 1 as [|c L children Ls (p & E & H & _) _ (fragments & M & Hall)].
  - exists []. split; [reflexivity | constructor].
  - exists (p :: fragments). split; [| now constructor].
    cbn [mapM bind]. rewrite E. cbn [bind]. now rewrite M.
Qed.

End BranchSemantics.

(** The subschemas of [allOf], end to end. *)
Lemma allOf_translated (fuel : nat) (resolver : Resolver) (d : list (string * json))
    (children : list json) (Ls : list Fragment.lang) :
  wins "allOf" d (JArr children) ->
  Forall2 (fun c L => translated (to_regex fuel resolver c) L) children Ls ->
  translated (to_regex (S fuel) resolver (JObj d)) (Fragment.lang_concat Ls).
Proof.
  intros Hwin Hall.
  destruct (translated_children _ _ _ Hall) as (fragments & M & Hf).
  apply translated_intro with (pattern := "(" ++ join "" fragments ++ ")").
  - rewrite (to_regex_allOf _ _ _ _ Hwin). destruct Hwin as [_ Hkey].
    unfold allOf_branch. cbn [getitem bind]. rewrite Hkey. cbn [bind iter].
    rewrite M. cbn [bind]. now rewrite map_id.
  - now apply denotes_concat_group.
Qed.

(** Any one of the subschemas of [oneOf]. *)
Lemma oneOf_translated (fuel : nat) (resolver : Resolver) (d : list (string * json))
    (children : list json) (Ls : list Fragment.lang) :
  wins "oneOf" d (JArr children) ->
  Forall2 (fun c L => translated (to_regex fuel resolver c) L) children Ls ->
  translated (to_regex (S fuel) resolver (JObj d)) (lang_choice Ls).
Proof.
  intros Hwin Hall.
  destruct (translated_children _ _ _ Hall) as (fragments & M & Hf).
  apply translated_intro with (pattern := "(" ++ join "|" fragments ++ ")").
  - rewrite (to_regex_oneOf _ _ _ _ Hwin). destruct Hwin as [_ Hkey].
    unfold oneOf_branch. cbn [getitem bind]. rewrite Hkey. cbn [bind iter].
    now rewrite M.
  - now apply denotes_choice_group.
Qed.

(** An arrangement of some of the subschemas of [anyOf]. *)
Lemma anyOf_translated (fuel : nat) (resolver : Resolver) (d : list (string * json))
    (children : list json) (Ls : list Fragment.lang) :
  wins "anyOf" d (JArr children) ->
  Forall2 (fun c L => translated (to_regex fuel resolver c) L) children Ls ->
  translated (to_regex (S fuel) resolver (JObj d))
             (lang_choice (map Fragment.lang_concat (arrangements Ls))).
Proof.
  intros Hwin Hall.
  destruct (translated_children _ _ _ Hall) as (fragments & M & Hf).
  apply translated_intro
    with (pattern := "(" ++ join "|" (map (fun c => "(" ++ join "" c ++ ")")
                                          (arrangements fragments)) ++ ")").
  - rewrite (to_regex_anyOf _ _ _ _ Hwin). destruct Hwin as [_ Hkey].
    unfold anyOf_branch. cbn [getitem bind]. rewrite Hkey. cbn [bind iter].
    rewrite M. cbn [bind]. unfold arrangements. now rewrite flat_map_map.
  - apply denotes_choice_group.
    apply Forall2_map2 with (P := Forall2 denotes).
    + intros c Lc Hc. now apply denotes_concat_group.
    + now apply arrangements_Forall2.
Qed.


(** ** What the patterns of the leaves and of the arrays match *)

Section LeafSemantics.
Import Regex RegexFacts Fragment.

Lemma leaf_translated (fuel : nat) (resolver : Resolver) (d : list (string * json))
    (type : string) :
  wins "type" d (JStr type) ->
  In type primitive_types ->
  (type = "string" ->
   absent d "minLength" /\ absent d "maxLength" /\ absent d "pattern") ->
  translated (to_regex (S fuel) resolver (JObj d)) (leaf_lang type).
Proof.
  intros Hwin Hin Hstring.
  rewrite (to_regex_type _ _ _ _ Hwin). destruct Hwin as [_ Hkey].
  unfold type_branch. cbn [getitem bind]. rewrite Hkey. cbn [bind].
  cbv [primitive_types In] in Hin.
  destruct Hin as [<- | [<- | [<- | [<- | [<- | []]]]]].
  - destruct (Hstring eq_refl) as (Hmin & Hmax & Hpat). unfold absent in *.
    apply translated_intro with (pattern := STRING); [| exact denotes_STRING].
    cbn [is_str]. change (String.eqb "string" "string") with true. cbv iota.
    unfold string_leaf. cbn [contains_key bind]. rewrite Hmax, Hmin. cbn [bind].
    rewrite Hpat. reflexivity.
  - apply translated_intro with (pattern := INTEGER); [reflexivity | exact denotes_INTEGER].
  - apply translated_intro with (pattern := NUMBER); [reflexivity | exact denotes_NUMBER].
  - apply translated_intro with (pattern := BOOLEAN); [reflexivity | exact denotes_BOOLEAN].
  - apply translated_intro with (pattern := NULL); [reflexivity | exact denotes_NULL].
Qed.

Lemma bare_leaf_translated (fuel : nat) (resolver : Resolver) (type : string) :
  In type primitive_types ->
  translated (to_regex (S fuel) resolver (JObj [("type", JStr type)])) (leaf_lang type).
Proof.
  intros Hin. apply leaf_translated; [| exact Hin | intros _; repeat split].
  split; [repeat constructor | reflexivity].
Qed.

(** The pattern of an array around the fragment of its items. *)
Lemma denotes_array (F : string) (L : lang) :
  alt_frag (list_ascii_of_string F) L ->
  denotes ("\[(" ++ F ++ ")(,(" ++ F ++ "))*\]") (array_lang L).
Proof.
  intros HF.
  assert (Hgroup : atom_frag ("("%char :: list_ascii_of_string F ++ [")"%char]) L)
    by now apply atom_frag_group.
  apply denotes_ext
    with (L := lang_cat (fun s => s = ["["%char])
                 (lang_cat L
                    (lang_cat (lang_star (lang_cat (fun s => s = [","%char]) L))
                              (fun s => s = ["]"%char])))).
  - unfold denotes.
    replace (list_ascii_of_string ("\[(" ++ F ++ ")(,(" ++ F ++ "))*\]"))
      with (["\"%char; "["%char]
            ++ ("("%char :: list_ascii_of_string F ++ [")"%char])
            ++ (("("%char
                 :: ([","%char] ++ ("("%char :: list_ascii_of_string F ++ [")"%char]))
                 ++ [")"%char]) ++ ["*"%char])
            ++ ["\"%char; "]"%char])%list.
    + apply seq_frag_app; [apply seq_frag_atom; now apply atom_frag_escaped |].
      apply seq_frag_app; [now apply seq_frag_atom |].
      apply seq_frag_app; [| apply seq_frag_atom; now apply atom_frag_escaped].
      apply seq_frag_star, atom_frag_group, alt_frag_seq, seq_frag_app.
      * apply seq_frag_atom. now apply atom_frag_plain.
      * now apply seq_frag_atom.
    + cbn [append list_ascii_of_string].
      repeat (rewrite list_ascii_of_string_app; cbn [append list_ascii_of_string]).
      cbn [app]. repeat (rewrite <- app_assoc; cbn [app]). reflexivity.
  - intros s. unfold array_lang, lang_cat, lang_star. split.
    + intros (s1 & s2 & -> & -> & first & s3 & -> & Hfirst
              & body & s4 & -> & (chunks & -> & Hall) & ->).
      assert (Hrest : exists rest,
                 Forall L rest
                 /\ List.concat chunks = List.concat (map (cons ","%char) rest)).
      { clear Hfirst. induction Hall as [|u chunks Hu _ (rest & Hr & E)].
        - exists []. split; [constructor | reflexivity].
        - destruct Hu as (u1 & u2 & -> & -> & Hu2).
          exists (u2 :: rest). split; [now constructor |].
          cbn [map List.concat app]. now rewrite E. }
      destruct Hrest as (rest & Hr & E). exists first, rest.
      split; [exact Hfirst |]. split; [exact Hr |]. cbn [app]. now rewrite E.
    + intros (first & rest & Hfirst & Hrest & ->).
      exists ["["%char], (first ++ List.concat (map (cons ","%char) rest) ++ ["]"%char])%list.
      split; [reflexivity |]. split; [reflexivity |].
      exists first, (List.concat (map (cons ","%char) rest) ++ ["]"%char])%list.
      split; [reflexivity |]. split; [exact Hfirst |].
      exists (List.concat (map (cons ","%char) rest)), ["]"%char].
      split; [reflexivity |]. split; [| reflexivity].
      exists (map (cons ","%char) rest). split; [reflexivity |].
      apply Forall_map. revert Hrest. apply Forall_impl.
      intros u Hu. exists [","%char], u. auto.
Qed.


Lemma array_any_translated (fuel : nat) (resolver : Resolver) (d : list (string * json)) :
  wins "type" d (JStr "array") ->
  absent d "items" ->
  translated (to_regex (S (S fuel)) resolver (JObj d))
             (array_lang any_item_lang).
Proof.
  intros Hwin Hitems.
  apply translated_intro
    with (pattern := "\[(" ++ join "|" [BOOLEAN; NULL; NUMBER; INTEGER; STRING]
                     ++ ")(,(" ++ join "|" [BOOLEAN; NULL; NUMBER; INTEGER; STRING]
                     ++ "))*\]").
  - rewrite (to_regex_type _ _ _ _ Hwin). destruct Hwin as [_ Hkey].
    rewrite (type_branch_array _ _ Hkey).
    unfold array_leaf, absent in *. cbn [contains_key bind]. rewrite Hitems. reflexivity.
  - apply denotes_array. apply alt_frag_join; [| discriminate].
    repeat constructor.
    + exact denotes_BOOLEAN.
    + exact denotes_NULL.
    + exact denotes_NUMBER.
    + exact denotes_INTEGER.
    + exact denotes_STRING.
Qed.

End LeafSemantics.

(** ** What the patterns of type lists, enumerations and objects match *)

Section KeywordSemantics.
Import Regex RegexFacts Fragment.

Lemma filter_named (names : list string) :
  filter (fun t => negb (is_str t "object")) (map JStr names)
  = map JStr (filter (fun n => negb (String.eqb n "object")) names).
Proof.
  induction names as [|n names IH]; [reflexivity |].
  cbn [map filter is_str]. destruct (String.eqb n "object"); cbn [negb map]; now rewrite IH.
Qed.

Lemma bare_type_translated (fuel : nat) (resolver : Resolver) (type : string) :
  type = "array" \/ In type primitive_types ->
  translated (to_regex (S (S fuel)) resolver (JObj [("type", JStr type)])) (type_lang type).
Proof.
  intros [-> | Hin].
  - apply array_any_translated; [| reflexivity].
    split; [repeat constructor | reflexivity].
  - replace (type_lang type) with (leaf_lang type).
    + now apply bare_leaf_translated.
    + unfold type_lang. cbv [primitive_types In] in Hin.
      destruct Hin as [<- | [<- | [<- | [<- | [<- | []]]]]]; reflexivity.
Qed.

Lemma type_list_translated (fuel : nat) (resolver : Resolver) (d : list (string * json))
    (names : list string) :
  wins "type" d (JArr (map JStr names)) ->
  Forall (fun n => n = "object" \/ n = "array" \/ In n primitive_types) names ->
  translated (to_regex (S (S (S fuel))) resolver (JObj d))
             (lang_choice
                (map type_lang (filter (fun n => negb (String.eqb n "object")) names))).
Proof.
  intros Hwin Hnames.
  assert (Hall : Forall2
                   (fun t L => translated
                                 (to_regex (S (S fuel)) resolver (JObj [("type", t)])) L)
                   (map JStr (filter (fun n => negb (String.eqb n "object")) names))
                   (map type_lang (filter (fun n => negb (String.eqb n "object")) names))).
  { clear Hwin. induction Hnames as [|n names Hn _ IH]; [constructor |].
    cbn [filter]. destruct (String.eqb n "object") eqn:E; cbn [negb map]; [exact IH |].
    constructor; [| exact IH]. apply bare_type_translated.
    destruct Hn as [-> | Hn]; [discriminate E | exact Hn]. }
  destruct (translated_children _ _ _ Hall) as (fragments & M & Hf).
  apply translated_intro with (pattern := "(" ++ join "|" fragments ++ ")").
  - rewrite (to_regex_type _ _ _ _ Hwin). destruct Hwin as [_ Hkey].
    unfold type_branch. cbn [getitem bind]. rewrite Hkey. cbn [bind is_str].
    rewrite filter_named, M. reflexivity.
  - now apply denotes_choice_group.
Qed.

Lemma denotes_dq : denotes dq (lang_text dq).
Proof. now apply denotes_plain_text. Qed.

Lemma denotes_quoted_escape (s : string) :
  denotes (dq ++ Re.escape s ++ dq) (lang_text (quoted s)).
Proof.
  apply denotes_ext
    with (L := lang_cat (lang_text dq) (lang_cat (lang_text s) (lang_text dq))).
  - apply denotes_app; [exact denotes_dq |].
    apply denotes_app; [apply denotes_escape | exact denotes_dq].
  - intros t. unfold lang_cat, lang_text, quoted. rewrite !list_ascii_of_string_app. split.
    + intros (s1 & s2 & -> & -> & s3 & s4 & -> & -> & ->). reflexivity.
    + intros ->. eexists _, _. split; [reflexivity |]. split; [reflexivity |].
      eexists _, _. split; [reflexivity |]. split; reflexivity.
Qed.

Lemma enum_strings_translated (fuel : nat) (resolver : Resolver)
    (d : list (string * json)) (strings : list string) :
  wins "enum" d (JArr (map JStr strings)) ->
  assoc "type" d = Some (JStr "string") ->
  translated (to_regex (S fuel) resolver (JObj d))
             (lang_choice (map (fun s => lang_text (quoted s)) strings)).
Proof.
  intros Hwin Htype.
  apply translated_intro
    with (pattern := "(" ++ join "|" (map (fun s => dq ++ Re.escape s ++ dq) strings) ++ ")").
  - now apply enum_of_strings.
  - apply denotes_choice_group. clear Hwin.
    induction strings as [|s strings IH]; [constructor |].
    cbn [map]. constructor; [apply denotes_quoted_escape | apply IH].
Qed.

Lemma enum_other_translated (fuel : nat) (resolver : Resolver)
    (d : list (string * json)) (members : list json) (type : json) :
  wins "enum" d (JArr members) ->
  assoc "type" d = Some type ->
  is_str type "string" = false ->
  translated (to_regex (S fuel) resolver (JObj d))
             (lang_choice (map (fun m => lang_text (str m)) members)).
Proof.
  intros Hwin Htype Hother.
  apply translated_intro
    with (pattern := "(" ++ join "|" (map (fun m => Re.escape (str m)) members) ++ ")").
  - now apply enum_of_other_type with (type := type).
  - apply denotes_choice_group. clear Hwin.
    induction members as [|m members IH]; [constructor |].
    cbn [map]. constructor; [apply denotes_escape | apply IH].
Qed.

Lemma denotes_brace (c : ascii) :
  existsb (Ascii.eqb c) Re.special_chars = true ->
  denotes (String "\" (String c "")) (lang_text (String c "")).
Proof. intros H. apply seq_frag_atom. now apply atom_frag_escaped. Qed.

Lemma denotes_member (name fragment : string) (L : lang) :
  forallb plain (list_ascii_of_string name) = true ->
  denotes fragment L ->
  denotes (member_fragment name fragment) (member_lang name L).
Proof.
  intros Hname HL. unfold member_fragment, member_lang.
  replace (whitespace ++ dq ++ name ++ dq ++ whitespace ++ ":" ++ whitespace ++ fragment)
    with (whitespace ++ quoted name ++ whitespace ++ ":" ++ whitespace ++ fragment).
  - cbn [lang_concat fold_right].
    apply denotes_app; [exact denotes_whitespace |].
    apply denotes_app.
    { apply denotes_plain_text. unfold quoted. rewrite !list_ascii_of_string_app.
      rewrite !forallb_app, Hname. reflexivity. }
    apply denotes_app; [exact denotes_whitespace |].
    apply denotes_app; [now apply denotes_plain_text |].
    apply denotes_app; [exact denotes_whitespace |].
    apply denotes_ext with (L := L); [exact HL |].
    intros s. symmetry. apply lang_cat_eps_r.
  - unfold quoted. now rewrite !append_assoc.
Qed.

Lemma denotes_object (members : list (string * string)) (Ls : list lang) :
  Forall (fun m => forallb plain (list_ascii_of_string (fst m)) = true) members ->
  Forall2 denotes (map snd members) Ls ->
  denotes (object_fragment members) (object_lang (combine (map fst members) Ls)).
Proof.
  intros Hnames Hall. unfold object_fragment, object_lang.
  cbn [lang_concat fold_right].
  apply denotes_app; [now apply denotes_brace |].
  apply denotes_app.
  { apply seq_frag_join.
    - apply denotes_app; [exact denotes_whitespace | now apply denotes_plain_text].
    - revert Ls Hall. induction Hnames as [|[name f] members Hname _ IH];
        intros Ls Hall; inversion Hall as [|f' L fs' Ls' Hf Hrest]; subst;
        cbn [map combine fst snd]; constructor.
      + now apply denotes_member.
      + now apply IH. }
  apply denotes_app; [exact denotes_whitespace |].
  apply denotes_ext with (L := lang_text "}"); [now apply denotes_brace |].
  intros s. symmetry. apply lang_cat_eps_r.
Qed.

Lemma properties_translated (fuel : nat) (resolver : Resolver) (d : list (string * json))
    (members : list (string * json)) (Ls : list lang) :
  wins "properties" d (JObj members) ->
  Forall (fun m => forallb plain (list_ascii_of_string (fst m)) = true) members ->
  Forall2 (fun m L => translated (to_regex fuel resolver (snd m)) L) members Ls ->
  translated (to_regex (S fuel) resolver (JObj d))
             (object_lang (combine (map fst members) Ls)).
Proof.
  intros Hwin Hnames Hall.
  destruct (translated_children _ _ _ Hall) as (fragments & M & Hf).
  assert (Hlen : List.length fragments = List.length members).
  { apply Forall2_length in Hall, Hf. congruence. }
  apply translated_intro
    with (pattern := object_fragment (combine (map fst members) fragments)).
  - rewrite (to_regex_properties _ _ _ _ Hwin). destruct Hwin as [_ Hkey].
    rewrite (properties_branch_join _ _ _ Hkey), M. reflexivity.
  - replace (combine (map fst members) Ls)
      with (combine (map fst (combine (map fst members) fragments)) Ls).
    + apply denotes_object.
      * clear - Hnames Hlen. revert fragments Hlen.
        induction Hnames as [|m members Hm _ IH]; intros [|f fragments] Hlen;
          try discriminate Hlen; cbn [map combine]; constructor; [exact Hm |].
        apply IH. now injection Hlen.
      * replace (map snd (combine (map fst members) fragments)) with fragments; [exact Hf |].
        clear - Hlen. revert fragments Hlen.
        induction members as [|m members IH]; intros [|f fragments] Hlen;
          try discriminate Hlen; [reflexivity |].
        cbn [map combine snd]. f_equal. apply IH. now injection Hlen.
    + f_equal. clear - Hlen. revert fragments Hlen.
      induction members as [|m members IH]; intros [|f fragments] Hlen;
        try discriminate Hlen; [reflexivity |].
      cbn [map combine fst]. f_equal. apply IH. now injection Hlen.
Qed.

End KeywordSemantics.

(** ** Strings with bounds on their length *)

Section Lengths.
Import Regex RegexFacts Fragment StringText.

(** *** Numbers printed by [str] are read back by the parser *)







(** *** The texts of a bounded repetition *)




(** *** The pattern of a string with bounds *)




End Lengths.

(** ** Strings with a pattern *)

Section Patterns.
Import Regex RegexFacts Fragment.

Lemma seq_frag_not_anchored (a : list ascii) (L : lang) :
  seq_frag ("^"%char :: a) L -> False.
Proof.
  intros H.
  destruct (H 1%nat [] lang_eps [] (stable_seq_end [] (or_introl eq_refl))
              (S (1 + 3 * List.length ("^"%char :: a))) ltac:(lia)) as (r & P & _).
  cbn [app] in P. rewrite parse_seq_step in P by discriminate.
  rewrite parse_atom_refused in P by reflexivity. discriminate P.
Qed.

Lemma string_leaf_pattern (d : list (string * json)) (c : ascii) (rest : string) :
  absent d "minLength" ->
  absent d "maxLength" ->
  assoc "pattern" d = Some (JStr (String c rest)) ->
  c <> "^"%char ->
  string_leaf (JObj d) = Ok ("(" ++ dq ++ String c rest ++ dq ++ ")").
Proof.
  unfold absent. intros Hmin Hmax Hpat Hc.
  unfold string_leaf. cbn [contains_key bind]. rewrite Hmax, Hmin. cbn [bind].
  rewrite Hpat. cbn [getitem bind]. rewrite Hpat. cbn [bind first is_str String.eqb].
  apply Ascii.eqb_neq in Hc. rewrite Hc. reflexivity.
Qed.

Lemma pattern_translated (fuel : nat) (resolver : Resolver) (d : list (string * json))
    (pattern : string) (L : lang) :
  wins "type" d (JStr "string") ->
  absent d "minLength" ->
  absent d "maxLength" ->
  assoc "pattern" d = Some (JStr pattern) ->
  pattern <> "" ->
  denotes pattern L ->
  translated (to_regex (S fuel) resolver (JObj d))
             (lang_cat (lang_text dq) (lang_cat L (lang_text dq))).
Proof.
  intros Hwin Hmin Hmax Hpat Hne HL.
  apply translated_intro with (pattern := "(" ++ dq ++ pattern ++ dq ++ ")").
  - rewrite (to_regex_type _ _ _ _ Hwin). destruct Hwin as [_ Hkey].
    rewrite (type_branch_string _ _ Hkey).
    destruct pattern as [|c rest]; [congruence |].
    apply string_leaf_pattern; try assumption.
    intros ->. now apply seq_frag_not_anchored in HL.
  - replace ("(" ++ dq ++ pattern ++ dq ++ ")") with ("(" ++ (dq ++ pattern ++ dq) ++ ")")
      by (now rewrite !append_assoc).
    apply denotes_group, alt_frag_seq.
    apply denotes_app; [now apply denotes_plain_text |].
    apply denotes_app; [exact HL | now apply denotes_plain_text].
Qed.


End Patterns.

(** ** Schemas without references are translated in bounded depth *)

Section Termination.

Lemma bind_ends {A B : Type} (c : result A) (k : A -> result B) :
  c <> OutOfFuel ->
  (forall a, c = Ok a -> k a <> OutOfFuel) ->
  bind c k <> OutOfFuel.
Proof. intros Hc Hk. destruct c as [a | e |]; cbn [bind]; [now apply Hk | discriminate | congruence]. Qed.

Lemma mapM_ends {A B : Type} (f : A -> result B) (l : list A) :
  (forall x, In x l -> f x <> OutOfFuel) -> mapM f l <> OutOfFuel.
Proof.
  induction l as [|x l IH]; intros H; cbn [mapM]; [discriminate |].
  apply bind_ends; [apply H; now left |]. intros y _.
  apply bind_ends; [apply IH; intros z Hz; apply H; now right |]. discriminate.
Qed.

Lemma depth_member (x : json) (l : list json) : In x l -> (depth x < depth (JArr l))%nat.
Proof.
  intros Hin. cbn [depth]. apply Nat.lt_succ_r.
  assert (H : Forall (fun k => (k <= list_max (map depth l))%nat) (map depth l))
    by now apply list_max_le.
  rewrite Forall_forall in H. apply H. now apply in_map.
Qed.

Lemma depth_value (kv : string * json) (d : list (string * json)) :
  In kv d -> (depth (snd kv) < depth (JObj d))%nat.
Proof.
  intros Hin. cbn [depth]. apply Nat.lt_succ_r.
  assert (H : Forall (fun k => (k <= list_max (map (fun kv => depth (snd kv)) d))%nat)
                     (map (fun kv => depth (snd kv)) d))
    by now apply list_max_le.
  rewrite Forall_forall in H. apply H.
  now apply (in_map (fun kv => depth (snd kv))).
Qed.

Lemma assoc_In (key : string) (d : list (string * json)) (v : json) :
  assoc key d = Some v -> exists k, In (k, v) d.
Proof.
  induction d as [|[k x] d IH]; cbn [assoc]; [discriminate |].
  destruct (String.eqb key k).
  - intros [= ->]. exists k. now left.
  - intros H. destruct (IH H) as (k' & Hin). exists k'. now right.
Qed.

Lemma depth_assoc (key : string) (d : list (string * json)) (v : json) :
  assoc key d = Some v -> (depth v < depth (JObj d))%nat.
Proof.
  intros H. destruct (assoc_In _ _ _ H) as (k & Hin). exact (depth_value (k, v) d Hin).
Qed.

Lemma ref_free_value (kv : string * json) (d : list (string * json)) :
  ref_free (JObj d) = true -> In kv d -> ref_free (snd kv) = true.
Proof.
  cbn [ref_free]. destruct (assoc "$ref" d); [discriminate |].
  intros H Hin. rewrite forallb_forall in H. now apply H.
Qed.

Lemma ref_free_assoc (key : string) (d : list (string * json)) (v : json) :
  ref_free (JObj d) = true -> assoc key d = Some v -> ref_free v = true.
Proof.
  intros Hfree H. destruct (assoc_In _ _ _ H) as (k & Hin).
  exact (ref_free_value (k, v) d Hfree Hin).
Qed.

Lemma ref_free_member (x : json) (l : list json) :
  ref_free (JArr l) = true -> In x l -> ref_free x = true.
Proof. cbn [ref_free]. intros H Hin. rewrite forallb_forall in H. now apply H. Qed.

(** What a [for] loop visits is nested no deeper than what it iterates on. *)
Lemma iter_children (v : json) (ts : list json) (c : json) :
  iter v = Ok ts -> In c ts ->
  (depth c <= depth v)%nat /\ (ref_free v = true -> ref_free c = true).
Proof.
  destruct v as [| b | z | s | l | d]; cbn [iter]; try discriminate; intros [= <-] Hin.
  - assert (E : forall t, In c (chars t) -> exists a, c = JStr (String a "")).
    { induction t as [|a t IH]; cbn [chars]; [intros [] |].
      intros [<- | H]; [now exists a | now apply IH]. }
    destruct (E s Hin) as (a & ->). split; [cbn [depth]; lia | reflexivity].
  - split; [apply Nat.lt_le_incl; now apply depth_member |].
    intros Hfree. now apply ref_free_member with (l := l).
  - apply in_map_iff in Hin. destruct Hin as (kv & <- & _).
    split; [cbn [depth]; lia | reflexivity].
Qed.

Section BodyEnds.

Variables (recur : json -> result string) (resolver : Resolver) (d : list (string * json)).

Hypothesis Hfree : ref_free (JObj d) = true.
Hypothesis Hrecur :
  forall c, ref_free c = true -> (depth c < depth (JObj d))%nat -> recur c <> OutOfFuel.
Hypothesis Hleaves : forall c, In c array_types -> recur c <> OutOfFuel.

Lemma loop_ends (key : string) (v : json) :
  assoc key d = Some v ->
  bind (iter v) (mapM recur) <> OutOfFuel.
Proof.
  intros Hkey. destruct (iter v) as [ts | e |] eqn:E; cbn [bind]; try discriminate.
  - apply mapM_ends. intros c Hin.
    destruct (iter_children v ts c E Hin) as [Hd Hf].
    apply Hrecur.
    + apply Hf. now apply ref_free_assoc with (key := key) (d := d).
    + apply Nat.le_lt_trans with (m := depth v); [exact Hd |].
      now apply depth_assoc with (key := key).
  - destruct v; discriminate E.
Qed.

Lemma properties_branch_ends (v : json) :
  assoc "properties" d = Some v -> properties_branch recur (JObj d) <> OutOfFuel.
Proof.
  intros Hkey. destruct v as [| b | z | s | l | members];
    try (unfold properties_branch; cbn [getitem bind]; rewrite Hkey; cbn [bind items];
         discriminate).
  rewrite (properties_branch_join _ _ _ Hkey).
  apply bind_ends; [| discriminate].
  apply mapM_ends. intros kv Hin. apply Hrecur.
  - apply ref_free_value with (d := members); [| exact Hin].
    now apply ref_free_assoc with (key := "properties") (d := d).
  - apply Nat.lt_trans with (m := depth (JObj members)); [now apply depth_value |].
    now apply depth_assoc with (key := "properties").
Qed.

Lemma allOf_branch_ends (v : json) :
  assoc "allOf" d = Some v -> allOf_branch recur (JObj d) <> OutOfFuel.
Proof.
  intros Hkey. unfold allOf_branch. cbn [getitem bind]. rewrite Hkey. cbn [bind].
  pose proof (loop_ends "allOf" v Hkey) as H.
  destruct (iter v) as [ts | e |]; cbn [bind] in *; try discriminate; [| congruence].
  destruct (mapM recur ts); cbn [bind]; [discriminate | discriminate | congruence].
Qed.

Lemma anyOf_branch_ends (v : json) :
  assoc "anyOf" d = Some v -> anyOf_branch recur (JObj d) <> OutOfFuel.
Proof.
  intros Hkey. unfold anyOf_branch. cbn [getitem bind]. rewrite Hkey. cbn [bind].
  pose proof (loop_ends "anyOf" v Hkey) as H.
  destruct (iter v) as [ts | e |]; cbn [bind] in *; try discriminate; [| congruence].
  destruct (mapM recur ts); cbn [bind]; [discriminate | discriminate | congruence].
Qed.

Lemma oneOf_branch_ends (v : json) :
  assoc "oneOf" d = Some v -> oneOf_branch recur (JObj d) <> OutOfFuel.
Proof.
  intros Hkey. unfold oneOf_branch. cbn [getitem bind]. rewrite Hkey. cbn [bind].
  pose proof (loop_ends "oneOf" v Hkey) as H.
  destruct (iter v) as [ts | e |]; cbn [bind] in *; try discriminate; [| congruence].
  destruct (mapM recur ts); cbn [bind]; [discriminate | discriminate | congruence].
Qed.

Lemma enum_branch_ends : enum_branch (JObj d) <> OutOfFuel.
Proof.
  unfold enum_branch. apply bind_ends.
  - cbn [getitem]. destruct (assoc "type" d); discriminate.
  - intros type _. destruct (is_str type "string").
    + apply bind_ends; [cbn [getitem]; destruct (assoc "enum" d); discriminate |].
      intros enum _. apply bind_ends; [destruct enum; discriminate |].
      intros members _. apply bind_ends; [| discriminate].
      apply mapM_ends. intros x _. apply bind_ends; [| discriminate].
      unfold Re.escape_value. destruct x; discriminate.
    + apply bind_ends; [cbn [getitem]; destruct (assoc "enum" d); discriminate |].
      intros enum _. apply bind_ends; [destruct enum; discriminate |]. discriminate.
Qed.

Lemma table_get_ends (table : list (string * string)) (name : string) :
  table_get table name <> OutOfFuel.
Proof.
  induction table as [|[k v] table IH]; cbn [table_get]; [discriminate |].
  destruct (String.eqb name k); [discriminate | exact IH].
Qed.

Lemma check_lengths_ends (hi lo : json) : check_lengths hi lo <> OutOfFuel.
Proof.
  unfold check_lengths.
  destruct (int hi) as [a | e |] eqn:Ea; cbn [bind].
  - destruct (int lo) as [b | e |] eqn:Eb; cbn [bind].
    + destruct (a <? b)%Z; discriminate.
    + destruct e; discriminate.
    + unfold int in Eb. destruct lo; try discriminate Eb.
      destruct (int_of_str s); discriminate Eb.
  - destruct e; discriminate.
  - unfold int in Ea. destruct hi; try discriminate Ea.
    destruct (int_of_str s); discriminate Ea.
Qed.

Lemma string_leaf_ends : string_leaf (JObj d) <> OutOfFuel.
Proof.
  unfold string_leaf. cbn [contains_key get getitem bind].
  assert (Hlengths :
            bind (check_lengths
                    match assoc "maxLength" d with Some v => v | None => JStr "" end
                    match assoc "minLength" d with Some v => v | None => JStr "" end)
                 (fun _ => Ok "")
            <> (OutOfFuel : result string)).
  { apply bind_ends; [apply check_lengths_ends | discriminate]. }
  destruct (assoc "maxLength" d) as [hi|]; cbn [bind].
  - destruct (assoc "minLength" d) as [lo|]; cbn [bind] in *;
      destruct (check_lengths _ _); cbn [bind] in *; congruence.
  - destruct (assoc "minLength" d) as [lo|]; cbn [bind] in *.
    + destruct (check_lengths _ _); cbn [bind] in *; congruence.
    + destruct (assoc "pattern" d) as [p|]; cbn [bind]; [| apply table_get_ends].
      destruct (first p) as [head | e |] eqn:Eh; cbn [bind];
        [| discriminate | destruct p as [| | | [|] | [|] |]; discriminate Eh].
      destruct (is_str head "^"); cbn [bind].
      * destruct (last p) as [tail | e |] eqn:El; cbn [bind];
          [| discriminate | destruct p as [| | | [|] | [|] |]; discriminate El].
        destruct (is_str tail "$"); discriminate.
      * discriminate.
Qed.

Lemma array_leaf_ends : array_leaf recur (JObj d) <> OutOfFuel.
Proof.
  unfold array_leaf. cbn [contains_key getitem bind].
  destruct (assoc "items" d) as [item|] eqn:E; cbn [bind].
  - apply bind_ends; [| discriminate]. apply Hrecur.
    + now apply ref_free_assoc with (key := "items") (d := d).
    + now apply depth_assoc with (key := "items").
  - apply bind_ends; [| discriminate]. now apply mapM_ends.
Qed.

Lemma type_branch_ends (v : json) :
  assoc "type" d = Some v -> type_branch recur (JObj d) <> OutOfFuel.
Proof.
  intros Hkey. unfold type_branch. cbn [getitem bind]. rewrite Hkey. cbn [bind].
  destruct (is_str v "string"); [apply string_leaf_ends |].
  destruct (is_str v "number"); [apply table_get_ends |].
  destruct (is_str v "integer"); [apply table_get_ends |].
  destruct (is_str v "array"); [apply array_leaf_ends |].
  destruct (is_str v "boolean"); [apply table_get_ends |].
  destruct (is_str v "null"); [apply table_get_ends |].
  destruct v as [| b | z | s | types | o]; try discriminate.
  apply bind_ends; [| discriminate]. apply mapM_ends. intros t Hin.
  apply filter_In in Hin. destruct Hin as [Hin _].
  assert (Ht : (depth t < depth (JArr types))%nat) by now apply depth_member.
  assert (Hv : (depth (JArr types) < depth (JObj d))%nat)
    by now apply depth_assoc with (key := "type").
  apply Hrecur.
  - cbn [ref_free assoc forallb snd]. change (String.eqb "$ref" "type") with false.
    cbv iota. rewrite andb_true_r.
    apply ref_free_member with (l := types); [| exact Hin].
    now apply ref_free_assoc with (key := "type") (d := d).
  - cbn [depth map snd list_max fold_right] in *. lia.
Qed.

Lemma to_regex_body_ends : to_regex_body recur resolver (JObj d) <> OutOfFuel.
Proof.
  unfold to_regex_body. cbn [contains_key bind].
  destruct (assoc "properties" d) eqn:E1; [now apply properties_branch_ends with (v := j) |].
  destruct (assoc "allOf" d) eqn:E2; [now apply allOf_branch_ends with (v := j) |].
  destruct (assoc "anyOf" d) eqn:E3; [now apply anyOf_branch_ends with (v := j) |].
  destruct (assoc "oneOf" d) eqn:E4; [now apply oneOf_branch_ends with (v := j) |].
  destruct (assoc "enum" d) eqn:E5; [apply enum_branch_ends |].
  destruct (assoc "$ref" d) eqn:E6.
  - cbn [ref_free] in Hfree. rewrite E6 in Hfree. discriminate Hfree.
  - destruct (assoc "type" d) eqn:E7; [now apply type_branch_ends with (v := j) |].
    discriminate.
Qed.

End BodyEnds.

(** A value that is not a dict makes every branch raise. *)
Lemma to_regex_body_atom (recur : json -> result string) (resolver : Resolver) (j : json) :
  (forall d, j <> JObj d) -> to_regex_body recur resolver j <> OutOfFuel.
Proof.
  intros Hj. unfold to_regex_body, properties_branch, allOf_branch, anyOf_branch,
    oneOf_branch, enum_branch, ref_branch, type_branch.
  destruct j as [| b | z | s | l | d]; cbn [contains_key getitem bind];
    try discriminate; [| | now destruct (Hj d)];
    repeat match goal with
           | |- context [if ?b then _ else _] => destruct b
           end; discriminate.
Qed.

Lemma leaf_ends (fuel : nat) (resolver : Resolver) (c : json) :
  In c array_types -> to_regex (S fuel) resolver c <> OutOfFuel.
Proof.
  cbv [array_types In].
  intros [<- | [<- | [<- | [<- | [<- | []]]]]]; discriminate.
Qed.

Lemma to_regex_ends (fuel : nat) (resolver : Resolver) (j : json) :
  ref_free j = true -> (depth j < fuel)%nat -> to_regex fuel resolver j <> OutOfFuel.
Proof.
  revert j. induction fuel as [|fuel IH]; intros j Hfree Hdepth; [lia |].
  cbn [to_regex].
  destruct j as [| b | z | s | l | d];
    try (apply to_regex_body_atom; discriminate).
  apply to_regex_body_ends; [exact Hfree | |].
  - intros c Hc Hd. apply IH; [exact Hc | lia].
  - intros c Hin. destruct fuel as [|fuel]; [cbn [depth] in Hdepth; lia |].
    now apply leaf_ends.
Qed.

End Termination.

(** ** The branches together *)

Section Composition.



End Composition.

(** ** Bounds in the wrong order, names read as patterns, members of an
    enumeration that are not strings *)

Section Edges.
Import Regex RegexFacts Fragment.





(** *** Names read as patterns *)

Lemma denotes_named_member (name fragment : string) (N L : lang) :
  denotes name N ->
  denotes fragment L ->
  denotes (member_fragment name fragment) (named_member_lang N L).
Proof.
  intros HN HL. unfold member_fragment, named_member_lang.
  cbn [lang_concat fold_right].
  apply denotes_app; [exact denotes_whitespace |].
  apply denotes_app; [exact denotes_dq |].
  apply denotes_app; [exact HN |].
  apply denotes_app; [exact denotes_dq |].
  apply denotes_app; [exact denotes_whitespace |].
  apply denotes_app; [now apply denotes_plain_text |].
  apply denotes_app; [exact denotes_whitespace |].
  apply denotes_ext with (L := L); [exact HL |].
  intros s. symmetry. apply lang_cat_eps_r.
Qed.

Lemma denotes_named_object (members : list (string * string))
    (Ns Ls : list lang) :
  Forall2 denotes (map fst members) Ns ->
  Forall2 denotes (map snd members) Ls ->
  denotes (object_fragment members) (named_object_lang (combine Ns Ls)).
Proof.
  intros Hnames Hall. unfold object_fragment, named_object_lang.
  cbn [lang_concat fold_right].
  apply denotes_app; [now apply denotes_brace |].
  apply denotes_app.
  { apply seq_frag_join.
    - apply denotes_app; [exact denotes_whitespace | now apply denotes_plain_text].
    - revert Ns Ls Hnames Hall. induction members as [|[name f] members IH];
        intros Ns Ls Hnames Hall;
        inversion Hnames as [|? N ? Ns' HN Hrest]; subst;
        inversion Hall as [|? L ? Ls' HL Hrest']; subst;
        cbn [map combine fst snd]; constructor.
      + now apply denotes_named_member.
      + now apply IH. }
  apply denotes_app; [exact denotes_whitespace |].
  apply denotes_ext with (L := lang_text "}"); [now apply denotes_brace |].
  intros s. symmetry. apply lang_cat_eps_r.
Qed.

Lemma combine_fst {A B : Type} (l1 : list A) (l2 : list B) :
  List.length l1 = List.length l2 -> map fst (combine l1 l2) = l1.
Proof.
  revert l2. induction l1 as [|x l1 IH]; intros [|y l2] H; try discriminate H;
    [reflexivity |].
  cbn [combine map fst]. f_equal. apply IH. now injection H.
Qed.

Lemma combine_snd {A B : Type} (l1 : list A) (l2 : list B) :
  List.length l1 = List.length l2 -> map snd (combine l1 l2) = l2.
Proof.
  revert l2. induction l1 as [|x l1 IH]; intros [|y l2] H; try discriminate H;
    [reflexivity |].
  cbn [combine map snd]. f_equal. apply IH. now injection H.
Qed.

Lemma properties_named_translated (fuel : nat) (resolver : Resolver)
    (d : list (string * json)) (members : list (string * json)) (Ns Ls : list lang) :
  wins "properties" d (JObj members) ->
  Forall2 (fun m N => denotes (fst m) N) members Ns ->
  Forall2 (fun m L => translated (to_regex fuel resolver (snd m)) L) members Ls ->
  translated (to_regex (S fuel) resolver (JObj d)) (named_object_lang (combine Ns Ls)).
Proof.
  intros Hwin Hnames Hall.
  destruct (translated_children _ _ _ Hall) as (fragments & M & Hf).
  assert (Hlen : List.length (map fst members) = List.length fragments).
  { rewrite length_map. apply Forall2_length in Hall, Hf. congruence. }
  apply translated_intro
    with (pattern := object_fragment (combine (map fst members) fragments)).
  - rewrite (to_regex_properties _ _ _ _ Hwin). destruct Hwin as [_ Hkey].
    rewrite (properties_branch_join _ _ _ Hkey), M. reflexivity.
  - apply denotes_named_object.
    + rewrite (combine_fst _ _ Hlen). clear - Hnames.
      induction Hnames; cbn [map]; constructor; assumption.
    + now rewrite (combine_snd _ _ Hlen).
Qed.

(** *** An enumeration of strings with a member that is not a string *)

Lemma mapM_escape_refused (strings : list string) (m : json) (rest : list json) :
  (forall s, m <> JStr s) ->
  mapM (fun choice => do e <- Re.escape_value choice; Ok (dq ++ e ++ dq))
       (map JStr strings ++ m :: rest)%list
  = Raise TypeError.
Proof.
  intros Hm. induction strings as [|s strings IH]; cbn [map app mapM bind Re.escape_value].
  - destruct m; try reflexivity. now destruct (Hm s).
  - now rewrite IH.
Qed.

Lemma enum_member_refused (fuel : nat) (resolver : Resolver) (d : list (string * json))
    (strings : list string) (m : json) (rest : list json) :
  wins "enum" d (JArr (map JStr strings ++ m :: rest)%list) ->
  assoc "type" d = Some (JStr "string") ->
  (forall s, m <> JStr s) ->
  to_regex (S fuel) resolver (JObj d) = Raise TypeError.
Proof.
  intros Hwin Htype Hm. rewrite (to_regex_enum _ _ _ _ Hwin). destruct Hwin as [_ Hkey].
  unfold enum_branch. cbn [getitem bind]. rewrite Htype. cbn [bind is_str].
  change (String.eqb "string" "string") with true. cbv iota.
  rewrite Hkey. cbn [bind iter]. now rewrite mapM_escape_refused.
Qed.

End Edges.

(** ** Recursive schemas have no translation *)

Section Recursive.

Lemma mapM_diverges {A B : Type} (f : A -> result B) (before after : list A) (c : A) :
  Forall (fun x => forall e, f x <> Raise e) before ->
  f c = OutOfFuel ->
  mapM f (before ++ c :: after)%list = OutOfFuel.
Proof.
  intros Hbefore Hc. induction Hbefore as [|x before Hx _ IH]; cbn [app mapM].
  - now rewrite Hc.
  - destruct (f x) as [y | e |]; cbn [bind]; [| now destruct (Hx e) | reflexivity].
    now rewrite IH.
Qed.

Lemma calls_diverges (fuel : nat) (resolver : Resolver) (node child : json) :
  calls resolver node child ->
  to_regex fuel resolver child = OutOfFuel ->
  to_regex (S fuel) resolver node = OutOfFuel.
Proof.
  intros Hcalls Hchild.
  destruct Hcalls as [d ref target Hwin Hlookup
                     | d before name value after Hwin Hbefore
                     | key d before child after Hkey Hwin Hbefore
                     | d items Hwin Hitems].
  - now rewrite (to_regex_ref_target fuel resolver d ref target Hwin Hlookup).
  - rewrite (to_regex_properties _ _ _ _ Hwin). destruct Hwin as [_ Hkey].
    rewrite (properties_branch_join _ _ _ Hkey).
    rewrite (mapM_diverges (fun m => to_regex fuel resolver (snd m))
               before after (name, value)); [reflexivity | | exact Hchild].
    revert Hbefore. apply Forall_impl. intros m Hm e. apply Hm.
  - assert (M : mapM (to_regex fuel resolver) (before ++ child :: after)%list = OutOfFuel).
    { apply mapM_diverges; [| exact Hchild].
      revert Hbefore. apply Forall_impl. intros c Hc e. apply Hc. }
    cbv [In] in Hkey. destruct Hkey as [<- | [<- | [<- | []]]].
    + rewrite (to_regex_allOf _ _ _ _ Hwin). destruct Hwin as [_ Hkey].
      unfold allOf_branch. cbn [getitem bind]. rewrite Hkey. cbn [bind iter].
      now rewrite M.
    + rewrite (to_regex_anyOf _ _ _ _ Hwin). destruct Hwin as [_ Hkey].
      unfold anyOf_branch. cbn [getitem bind]. rewrite Hkey. cbn [bind iter].
      now rewrite M.
    + rewrite (to_regex_oneOf _ _ _ _ Hwin). destruct Hwin as [_ Hkey].
      unfold oneOf_branch. cbn [getitem bind]. rewrite Hkey. cbn [bind iter].
      now rewrite M.
  - rewrite (to_regex_type _ _ _ _ Hwin). destruct Hwin as [_ Hkey].
    rewrite (type_branch_array _ _ Hkey).
    unfold array_leaf. cbn [contains_key getitem bind]. rewrite Hitems. cbn [bind].
    now rewrite Hchild.
Qed.

Lemma descent_diverges (resolver : Resolver) (nodes : json -> Prop) :
  (forall node, nodes node -> exists child, calls resolver node child /\ nodes child) ->
  forall fuel node, nodes node -> to_regex fuel resolver node = OutOfFuel.
Proof.
  intros Hstep fuel. induction fuel as [|fuel IH]; intros node Hnode; [reflexivity |].
  destruct (Hstep node Hnode) as (child & Hcalls & Hchild).
  apply calls_diverges with (child := child); [exact Hcalls | now apply IH].
Qed.

End Recursive.

(** * What the patterns match

    The theorems below give, branch by branch, the texts that [re.fullmatch]
    accepts with the pattern [to_regex] returns. *)

(** X1. A node whose first keyword is [properties], with names free of
    special characters and every value translated to a fragment, is
    translated to a pattern whose texts are the objects with exactly these
    members, all of them, in the order of the schema: an opening brace, the
    members, each a run of white space, the quoted name, white space, a
    colon, white space and a text of the value, with white space and a comma
    between two of them, then white space and a closing brace.  The other
    keys of the node, [required] among them, change nothing. *)
Theorem properties_texts (fuel : nat) (resolver : Resolver) (d : list (string * json))
    (members : list (string * json)) (Ls : list Fragment.lang) :
  wins "properties" d (JObj members) ->
  Forall (fun m => forallb Fragment.plain (list_ascii_of_string (fst m)) = true) members ->
  Forall2 (fun m L => translated (to_regex fuel resolver (snd m)) L) members Ls ->
  translated (to_regex (S fuel) resolver (JObj d))
             (object_lang (combine (map fst members) Ls)).
Proof. apply properties_translated. Qed.

Lemma properties_texts_witness :
  translated
    (to_regex 2 no_refs
       (JObj [("properties", JObj [("a", JObj [("type", JStr "string")]);
                                   ("b", JObj [("type", JStr "integer")])]);
              ("required", JArr [JStr "a"])]))
    (object_lang [("a", leaf_lang "string"); ("b", leaf_lang "integer")]).
Proof.
  apply (properties_texts 1 no_refs
           [("properties", JObj [("a", JObj [("type", JStr "string")]);
                                 ("b", JObj [("type", JStr "integer")])]);
            ("required", JArr [JStr "a"])]
           [("a", JObj [("type", JStr "string")]); ("b", JObj [("type", JStr "integer")])]
           [leaf_lang "string"; leaf_lang "integer"]).
  - split; [constructor | reflexivity].
  - repeat constructor.
  - repeat constructor; apply bare_leaf_translated; cbv [primitive_types In]; tauto.
Defined.

(** X2. When every subschema of [allOf] is translated to a fragment, the
    node is translated to a pattern whose texts are a text of the first
    subschema, then one of the second, and so on: the texts are put end to
    end, not required to fit all the subschemas at once. *)
Theorem allOf_texts (fuel : nat) (resolver : Resolver) (d : list (string * json))
    (children : list json) (Ls : list Fragment.lang) :
  wins "allOf" d (JArr children) ->
  Forall2 (fun c L => translated (to_regex fuel resolver c) L) children Ls ->
  translated (to_regex (S fuel) resolver (JObj d)) (Fragment.lang_concat Ls).
Proof. apply allOf_translated. Qed.

Lemma allOf_texts_witness :
  translated
    (to_regex 2 no_refs
       (JObj [("allOf", JArr [JObj [("type", JStr "null")];
                              JObj [("type", JStr "boolean")]])]))
    (Fragment.lang_concat [leaf_lang "null"; leaf_lang "boolean"]).
Proof.
  apply (allOf_texts 1 no_refs
           [("allOf", JArr [JObj [("type", JStr "null")]; JObj [("type", JStr "boolean")]])]
           [JObj [("type", JStr "null")]; JObj [("type", JStr "boolean")]]
           [leaf_lang "null"; leaf_lang "boolean"]).
  - split; [repeat constructor | reflexivity].
  - repeat constructor; apply bare_leaf_translated; cbv [primitive_types In]; tauto.
Defined.

(** X3. When every subschema of [anyOf] is translated to a fragment, the
    node is translated to a pattern whose texts are, for some arrangement of
    one or more of the subschemas, a text of each of them in turn. *)
Theorem anyOf_texts (fuel : nat) (resolver : Resolver) (d : list (string * json))
    (children : list json) (Ls : list Fragment.lang) :
  wins "anyOf" d (JArr children) ->
  Forall2 (fun c L => translated (to_regex fuel resolver c) L) children Ls ->
  translated (to_regex (S fuel) resolver (JObj d))
             (lang_choice (map Fragment.lang_concat (arrangements Ls))).
Proof. apply anyOf_translated. Qed.

Lemma anyOf_texts_witness :
  translated
    (to_regex 2 no_refs null_or_boolean)
    (lang_choice
       (map Fragment.lang_concat (arrangements [leaf_lang "null"; leaf_lang "boolean"]))).
Proof.
  apply (anyOf_texts 1 no_refs
           [("anyOf", JArr [JObj [("type", JStr "null")]; JObj [("type", JStr "boolean")]])]
           [JObj [("type", JStr "null")]; JObj [("type", JStr "boolean")]]
           [leaf_lang "null"; leaf_lang "boolean"]).
  - split; [repeat constructor | reflexivity].
  - repeat constructor; apply bare_leaf_translated; cbv [primitive_types In]; tauto.
Defined.

(** X4. When every subschema of [oneOf] is translated to a fragment, the
    node is translated to a pattern whose texts are the texts of any of the
    subschemas, a text that fits several of them included; with no
    subschema, the only text is the empty one. *)
Theorem oneOf_texts (fuel : nat) (resolver : Resolver) (d : list (string * json))
    (children : list json) (Ls : list Fragment.lang) :
  wins "oneOf" d (JArr children) ->
  Forall2 (fun c L => translated (to_regex fuel resolver c) L) children Ls ->
  translated (to_regex (S fuel) resolver (JObj d)) (lang_choice Ls).
Proof. apply oneOf_translated. Qed.

Lemma oneOf_texts_witness :
  translated (to_regex 2 no_refs integer_or_string)
             (lang_choice [leaf_lang "integer"; leaf_lang "string"]).
Proof.
  apply (oneOf_texts 1 no_refs
           [("oneOf", JArr [JObj [("type", JStr "integer")]; JObj [("type", JStr "string")]])]
           [JObj [("type", JStr "integer")]; JObj [("type", JStr "string")]]
           [leaf_lang "integer"; leaf_lang "string"]).
  - split; [repeat constructor | reflexivity].
  - repeat constructor; apply bare_leaf_translated; cbv [primitive_types In]; tauto.
Defined.

(** X5. An [enum] of strings in a node whose [type] is the string type is
    translated to a pattern whose texts are exactly the members, each
    between double quotes: the characters that are special in a pattern
    stand for themselves. *)
Theorem enum_strings_texts (fuel : nat) (resolver : Resolver)
    (d : list (string * json)) (strings : list string) :
  wins "enum" d (JArr (map JStr strings)) ->
  assoc "type" d = Some (JStr "string") ->
  translated (to_regex (S fuel) resolver (JObj d))
             (lang_choice (map (fun s => Fragment.lang_text (quoted s)) strings)).
Proof. apply enum_strings_translated. Qed.

Lemma enum_strings_texts_witness :
  translated
    (to_regex 1 no_refs (JObj [("enum", JArr [JStr "a.b"; JStr "c|d"]);
                               ("type", JStr "string")]))
    (lang_choice [Fragment.lang_text (quoted "a.b"); Fragment.lang_text (quoted "c|d")]).
Proof.
  apply (enum_strings_texts 0 no_refs
           [("enum", JArr [JStr "a.b"; JStr "c|d"]); ("type", JStr "string")]
           ["a.b"; "c|d"]).
  - split; [repeat constructor | reflexivity].
  - reflexivity.
Defined.

(** X6. An [enum] in a node whose [type] is not the string type is
    translated to a pattern whose texts are exactly what [str] prints for
    the members, without quotes: a member that is a boolean is matched as
    Python prints it, with a capital, and not as JSON writes it. *)
Theorem enum_other_texts (fuel : nat) (resolver : Resolver)
    (d : list (string * json)) (members : list json) (type : json) :
  wins "enum" d (JArr members) ->
  assoc "type" d = Some type ->
  is_str type "string" = false ->
  translated (to_regex (S fuel) resolver (JObj d))
             (lang_choice (map (fun m => Fragment.lang_text (str m)) members)).
Proof. apply enum_other_translated. Qed.

Lemma enum_other_texts_witness :
  translated
    (to_regex 1 no_refs (JObj [("enum", JArr [JBool true; JInt 10; JNull]);
                               ("type", JStr "integer")]))
    (lang_choice [Fragment.lang_text "True"; Fragment.lang_text "10";
                  Fragment.lang_text "None"]).
Proof.
  apply (enum_other_texts 0 no_refs
           [("enum", JArr [JBool true; JInt 10; JNull]); ("type", JStr "integer")]
           [JBool true; JInt 10; JNull] (JStr "integer")).
  - split; [repeat constructor | reflexivity].
  - reflexivity.
  - reflexivity.
Defined.

(** X7. A node whose [type] is one of the primitive types (a string without
    [minLength], [maxLength] and [pattern]) is translated to a pattern whose
    texts are exactly the texts of that type: a JSON string, with its
    escapes; an integer without sign and without leading zero; a number
    with optional sign, fraction and exponent; [true] or [false]; [null].
    The other keys of the node, [minimum] or [format] among them, change
    nothing. *)
Theorem primitive_leaf_texts (fuel : nat) (resolver : Resolver)
    (d : list (string * json)) (type : string) :
  wins "type" d (JStr type) ->
  In type primitive_types ->
  (type = "string" ->
   absent d "minLength" /\ absent d "maxLength" /\ absent d "pattern") ->
  translated (to_regex (S fuel) resolver (JObj d)) (leaf_lang type).
Proof. apply leaf_translated. Qed.

Lemma primitive_leaf_texts_witness :
  translated
    (to_regex 1 no_refs (JObj [("type", JStr "integer"); ("minimum", JInt (-5))]))
    NumberText.integer_text.
Proof.
  apply (primitive_leaf_texts 0 no_refs
           [("type", JStr "integer"); ("minimum", JInt (-5))] "integer").
  - split; [repeat constructor | reflexivity].
  - cbv [primitive_types In]. tauto.
  - discriminate.
Defined.



(** X9. A string node with a [pattern] that is not empty and is a sequence
    of pieces of a pattern, for the texts [L], is translated to a pattern
    whose texts are a double quote, a text of [L] and a double quote. *)
Theorem pattern_texts (fuel : nat) (resolver : Resolver) (d : list (string * json))
    (pattern : string) (L : Fragment.lang) :
  wins "type" d (JStr "string") ->
  absent d "minLength" ->
  absent d "maxLength" ->
  assoc "pattern" d = Some (JStr pattern) ->
  pattern <> "" ->
  denotes pattern L ->
  translated (to_regex (S fuel) resolver (JObj d))
             (Fragment.lang_cat (Fragment.lang_text dq)
                (Fragment.lang_cat L (Fragment.lang_text dq))).
Proof. apply pattern_translated. Qed.

Lemma pattern_texts_witness :
  translated
    (to_regex 1 no_refs (JObj [("type", JStr "string"); ("pattern", JStr "abc")]))
    (Fragment.lang_cat (Fragment.lang_text dq)
       (Fragment.lang_cat (Fragment.lang_text "abc") (Fragment.lang_text dq))).
Proof.
  apply (pattern_texts 0 no_refs
           [("type", JStr "string"); ("pattern", JStr "abc")] "abc"
           (Fragment.lang_text "abc")).
  - split; [repeat constructor | reflexivity].
  - reflexivity.
  - reflexivity.
  - reflexivity.
  - discriminate.
  - apply denotes_plain_text. reflexivity.
Defined.





(** X12. An array node without [items] is translated to a pattern whose
    texts are the arrays of one or more items, each a boolean, [null], a
    number, an integer or a string: no item is an array or an object. *)
Theorem array_any_texts (fuel : nat) (resolver : Resolver) (d : list (string * json)) :
  wins "type" d (JStr "array") ->
  absent d "items" ->
  translated (to_regex (S (S fuel)) resolver (JObj d)) (array_lang any_item_lang).
Proof. apply array_any_translated. Qed.

Lemma array_any_texts_witness :
  translated (to_regex 2 no_refs (JObj [("type", JStr "array"); ("minItems", JInt 0)]))
             (array_lang any_item_lang).
Proof.
  apply (array_any_texts 0 no_refs [("type", JStr "array"); ("minItems", JInt 0)]).
  - split; [repeat constructor | reflexivity].
  - reflexivity.
Defined.

(** X13. A node whose [type] is a list of names of types is translated to a
    pattern whose texts are the texts of any of the types named, [object]
    left out: with [object] in the list, no object is among the texts, and
    with nothing else in the list the only text is the empty one. *)
Theorem type_list_texts (fuel : nat) (resolver : Resolver) (d : list (string * json))
    (names : list string) :
  wins "type" d (JArr (map JStr names)) ->
  Forall (fun n => n = "object" \/ n = "array" \/ In n primitive_types) names ->
  translated (to_regex (S (S (S fuel))) resolver (JObj d))
             (lang_choice
                (map type_lang (filter (fun n => negb (String.eqb n "object")) names))).
Proof. apply type_list_translated. Qed.

Lemma type_list_texts_witness :
  translated
    (to_regex 3 no_refs (JObj [("type", JArr [JStr "string"; JStr "object"; JStr "null"])]))
    (lang_choice [type_lang "string"; type_lang "null"]).
Proof.
  apply (type_list_texts 0 no_refs
           [("type", JArr [JStr "string"; JStr "object"; JStr "null"])]
           ["string"; "object"; "null"]).
  - split; [repeat constructor | reflexivity].
  - repeat constructor; cbv [primitive_types In]; tauto.
Defined.



(** X15. A schema in which no dict has the key [$ref] is translated in
    bounded depth, whatever it holds: the call ends, with a pattern or with
    an exception, within one level of recursion more than the nesting of
    the schema. *)
Theorem ref_free_ends (resolver : Resolver) (schema : json) :
  ref_free schema = true ->
  translates resolver schema (to_regex (S (depth schema)) resolver schema).
Proof.
  intros Hfree. split; [| now exists (S (depth schema))].
  apply to_regex_ends; [exact Hfree | apply Nat.lt_succ_diag_r].
Qed.

Lemma ref_free_ends_witness :
  translates no_refs nested_schema (to_regex 6 no_refs nested_schema).
Proof. apply (ref_free_ends no_refs nested_schema). reflexivity. Defined.

(** X16. A recursive schema has no translation.  When the nodes of a set
    each make a recursive call on a node of the set, through a reference,
    a property, a subschema of [allOf], [anyOf] or [oneOf], or the items of
    an array, the call on any of them is still running at every depth: it
    returns no pattern and raises no exception of its own. *)
Theorem recursive_schema_diverges (resolver : Resolver) (nodes : json -> Prop) :
  (forall node, nodes node -> exists child, calls resolver node child /\ nodes child) ->
  forall fuel node, nodes node -> to_regex fuel resolver node = OutOfFuel.
Proof. apply descent_diverges. Qed.

Lemma recursive_schema_diverges_witness :
  to_regex 1000 chain_resolver chain_schema = OutOfFuel.
Proof.
  apply (recursive_schema_diverges chain_resolver
           (fun node => node = chain_schema \/ node = JObj self_ref)).
  - intros node [-> | ->].
    + exists (JObj self_ref). split; [| now right].
      apply (calls_property chain_resolver _
               [("value", JObj [("type", JStr "integer")])] "next" (JObj self_ref) []).
      * split; [constructor | reflexivity].
      * constructor; [| constructor].
        intros fuel e. destruct fuel; discriminate.
    + exists chain_schema. split; [| now left].
      apply (calls_ref chain_resolver self_ref (JStr "#") chain_schema).
      * split; [repeat constructor | reflexivity].
      * reflexivity.
  - now left.
Defined.



(** X18. The names of the properties are put in the pattern as they are,
    not escaped: a name is read as a pattern, and the texts of the object
    have, between the quotes of a member, any text of that pattern.  A
    point in a name stands for any character but the newline. *)
Theorem property_names_texts (fuel : nat) (resolver : Resolver)
    (d : list (string * json)) (members : list (string * json))
    (Ns Ls : list Fragment.lang) :
  wins "properties" d (JObj members) ->
  Forall2 (fun m N => denotes (fst m) N) members Ns ->
  Forall2 (fun m L => translated (to_regex fuel resolver (snd m)) L) members Ls ->
  translated (to_regex (S fuel) resolver (JObj d)) (named_object_lang (combine Ns Ls)).
Proof. apply properties_named_translated. Qed.

Lemma property_names_texts_witness :
  translated
    (to_regex 2 no_refs
       (JObj [("properties", JObj [("a.b", JObj [("type", JStr "null")])])]))
    (named_object_lang
       [(Fragment.lang_cat (Fragment.lang_text "a")
           (Fragment.lang_cat (class_lang true [("010"%char, "010"%char)])
                              (Fragment.lang_text "b")),
         leaf_lang "null")]).
Proof.
  apply (property_names_texts 1 no_refs
           [("properties", JObj [("a.b", JObj [("type", JStr "null")])])]
           [("a.b", JObj [("type", JStr "null")])]
           [Fragment.lang_cat (Fragment.lang_text "a")
              (Fragment.lang_cat (class_lang true [("010"%char, "010"%char)])
                                 (Fragment.lang_text "b"))]
           [leaf_lang "null"]).
  - split; [constructor | reflexivity].
  - constructor; [| constructor].
    apply (seq_frag_app ["a"%char] ["."%char; "b"%char]).
    + apply seq_frag_atom. now apply atom_frag_plain.
    + apply (seq_frag_app ["."%char] ["b"%char]).
      * apply seq_frag_atom, atom_frag_dot.
      * apply seq_frag_atom. now apply atom_frag_plain.
  - constructor; [| constructor].
    apply bare_leaf_translated. cbv [primitive_types In]. tauto.
Defined.

(** X19. An [enum] in a node whose [type] is the string type stops with a
    [TypeError] at its first member that is not a string: [re.escape] does
    not take it. *)
Theorem enum_member_not_string (fuel : nat) (resolver : Resolver)
    (d : list (string * json)) (strings : list string) (m : json) (rest : list json) :
  wins "enum" d (JArr (map JStr strings ++ m :: rest)%list) ->
  assoc "type" d = Some (JStr "string") ->
  (forall s, m <> JStr s) ->
  to_regex (S fuel) resolver (JObj d) = Raise TypeError.
Proof. apply enum_member_refused. Qed.

Lemma enum_member_not_string_witness :
  to_regex 1 no_refs (JObj [("enum", JArr [JStr "a"; JInt 1; JStr "b"]);
                            ("type", JStr "string")])
  = Raise TypeError.
Proof.
  apply (enum_member_not_string 0 no_refs
           [("enum", JArr [JStr "a"; JInt 1; JStr "b"]); ("type", JStr "string")]
           ["a"] (JInt 1) [JStr "b"]).
  - split; [repeat constructor | reflexivity].
  - reflexivity.
  - discriminate.
Defined.
